(** * DashcamTools: the clip concatenator and the folder player

    A shallow embedding of the bookkeeping routines of
    [concat_video_clips.py] and [dashcam_clips_viewer.py], and the
    properties their specification states about them.

    Conventions of the embedding.
    - Python [int] is [Z]; list positions produced by [enumerate] are [nat].
    - Python [str] is [list ascii]; a character stands for the code point
      of the same number (0..255), with the classification Python gives to
      these code points.
    - Python [float] is [pyfloat]: a finite value is carried as the exact
      rational it denotes (rounding to 53 bits is not modelled), overflow
      to an infinity and NaN are.
    - A Python exception is a value of the error monad [py].
    - Dialogs and callbacks are recorded as traces.
    - Of the widgets nothing is kept but whether building the status
      text raises. *)

From Stdlib Require Import String.
From Stdlib Require Import ZArith QArith Qabs Qround Lia Lqa Bool List Ascii.
Import ListNotations.

Local Open Scope Z_scope.

(* ================================================================== *)
(** * Python values and builtins used by both programs *)
(* ================================================================== *)

Module Py.

(** The exceptions the modelled code can meet. *)
Inductive exn : Type :=
| ValueError
| TypeError
| IndexError
| OverflowError
| ZeroDivisionError.

(** A computation that returns or raises. *)
Inductive py (A : Type) : Type :=
| Ret (a : A)
| Raise (e : exn).

Arguments Ret {A} a.
Arguments Raise {A} e.

Definition bind {A B : Type} (m : py A) (k : A -> py B) : py B :=
  match m with
  | Ret a => k a
  | Raise e => Raise e
  end.

(** [try: ... except Exception: pass] around a computation. *)
Definition catch {A : Type} (m : py A) : option A :=
  match m with
  | Ret a => Some a
  | Raise _ => None
  end.

Fixpoint mapM {A B : Type} (f : A -> py B) (l : list A) : py (list B) :=
  match l with
  | [] => Ret []
  | x :: l' =>
      bind (f x) (fun y => bind (mapM f l') (fun ys => Ret (y :: ys)))
  end.

(** ** Characters and [str] methods *)

Definition str : Type := list ascii.

(** A string literal as a [str]. *)
Definition lit (s : String.string) : str := String.list_ascii_of_string s.
Arguments lit s%_string.

Definition code (c : ascii) : Z := Z.of_N (N_of_ascii c).

(** A decimal digit: what [\d] matches and what [int()] accepts. *)
Definition is_decimal (c : ascii) : bool :=
  (48 <=? code c) && (code c <=? 57).

(** What [str.isdigit] accepts of one character: the decimal digits and
    the superscripts two, three and one. *)
Definition isdigit_char (c : ascii) : bool :=
  is_decimal c || (code c =? 178) || (code c =? 179) || (code c =? 185).

(** [str.isspace] of one character. *)
Definition isspace_char (c : ascii) : bool :=
  ((9 <=? code c) && (code c <=? 13)) ||
  ((28 <=? code c) && (code c <=? 32)) ||
  (code c =? 133) || (code c =? 160).

(** The white space [int()] skips at both ends of its argument. *)
Definition int_space (c : ascii) : bool :=
  ((9 <=? code c) && (code c <=? 13)) ||
  (code c =? 32) || (code c =? 133) || (code c =? 160).

Definition lower_char (c : ascii) : ascii :=
  if ((65 <=? code c) && (code c <=? 90)) ||
     ((192 <=? code c) && (code c <=? 222) && negb (code c =? 215))
  then ascii_of_N (N_of_ascii c + 32)
  else c.

(** [s.isdigit()]. *)
Definition isdigit (s : str) : bool :=
  match s with
  | [] => false
  | _ => forallb isdigit_char s
  end.

(** [s.lower()]. *)
Definition lower (s : str) : str := map lower_char s.

Fixpoint lstrip_by (sp : ascii -> bool) (s : str) : str :=
  match s with
  | [] => []
  | c :: s' => if sp c then lstrip_by sp s' else s
  end.

Definition strip_by (sp : ascii -> bool) (s : str) : str :=
  rev (lstrip_by sp (rev (lstrip_by sp s))).

(** [s.strip()]. *)
Definition strip (s : str) : str := strip_by isspace_char s.

(** [s.startswith(prefix)]. *)
Fixpoint startswith (s prefix : str) : bool :=
  match prefix, s with
  | [], _ => true
  | p :: prefix', c :: s' => Ascii.eqb c p && startswith s' prefix'
  | _ :: _, [] => false
  end.

(** [s.split(sep, 1)] for a one-character separator. *)
Fixpoint split_once (sep : ascii) (s : str) : list str :=
  match s with
  | [] => [[]]
  | c :: s' =>
      if Ascii.eqb c sep then [[]; s']
      else match split_once sep s' with
           | h :: t => (c :: h) :: t
           | [] => [[c]]
           end
  end.

(** [s.split(sep)] for a one-character separator. *)
Fixpoint split_all (sep : ascii) (s : str) : list str :=
  match s with
  | [] => [[]]
  | c :: s' =>
      match split_all sep s' with
      | h :: t => if Ascii.eqb c sep then [] :: h :: t else (c :: h) :: t
      | [] => [[c]]
      end
  end.

(** [l[i]] for a position counted from the left. *)
Definition index {A : Type} (l : list A) (i : nat) : py A :=
  match nth_error l i with
  | Some x => Ret x
  | None => Raise IndexError
  end.

(** [s.rfind(".")]. *)
Fixpoint rfind (ch : ascii) (s : str) : option nat :=
  match s with
  | [] => None
  | c :: s' =>
      match rfind ch s' with
      | Some i => Some (S i)
      | None => if Ascii.eqb c ch then Some 0%nat else None
      end
  end.

(** Code-point order on strings: [a < b]. *)
Fixpoint str_lt (a b : str) : bool :=
  match a, b with
  | _, [] => false
  | [], _ :: _ => true
  | x :: a', y :: b' =>
      if code x <? code y then true
      else if code y <? code x then false
      else str_lt a' b'
  end.

Definition str_eqb (a b : str) : bool :=
  if list_eq_dec ascii_dec a b then true else false.

(** ** [int()] of a string *)

Definition digit_val (c : ascii) : Z := code c - 48.

(** The digits of an integer literal after its first digit: digits, with
    single underscores allowed between two digits. *)
Fixpoint int_digits (acc : Z) (s : str) : py Z :=
  match s with
  | [] => Ret acc
  | c :: s' =>
      if is_decimal c then int_digits (10 * acc + digit_val c) s'
      else if Ascii.eqb c "_"%char then
        match s' with
        | d :: _ => if is_decimal d then int_digits acc s' else Raise ValueError
        | [] => Raise ValueError
        end
      else Raise ValueError
  end.

Definition int_unsigned (s : str) : py Z :=
  match s with
  | c :: _ => if is_decimal c then int_digits 0 s else Raise ValueError
  | [] => Raise ValueError
  end.

(** [int(s)], base 10.  Integers are unbounded; the cap an interpreter
    may put on the number of digits it converts is left out. *)
Definition int_of_str (s : str) : py Z :=
  match strip_by int_space s with
  | c :: r =>
      if Ascii.eqb c "+"%char then int_unsigned r
      else if Ascii.eqb c "-"%char then bind (int_unsigned r) (fun n => Ret (- n))
      else int_unsigned (c :: r)
  | [] => Raise ValueError
  end.

(** ** [re.split(r'(\d+)', text)] *)

(** The scan, with the token being read kept reversed in [cur];
    [in_digits] tells whether that token is a run of digits.  The result
    alternates text, digits, text, ..., text. *)
Fixpoint re_split_scan (in_digits : bool) (cur : str) (s : str) : list str :=
  match s with
  | [] => if in_digits then [rev cur; []] else [rev cur]
  | c :: s' =>
      if is_decimal c then
        if in_digits then re_split_scan true (c :: cur) s'
        else rev cur :: re_split_scan true [c] s'
      else
        if in_digits then rev cur :: re_split_scan false [c] s'
        else re_split_scan false (c :: cur) s'
  end.

Definition re_split_digits (text : str) : list str :=
  re_split_scan false [] text.

(** ** Sort keys: lists of integers and strings *)

Inductive elem : Type :=
| EInt (n : Z)
| EStr (s : str).

(** [a == b]: never raises; an integer and a string are different. *)
Definition elem_eqb (a b : elem) : bool :=
  match a, b with
  | EInt n, EInt m => n =? m
  | EStr s, EStr t => str_eqb s t
  | _, _ => false
  end.

(** [a < b]: raises [TypeError] between an integer and a string. *)
Definition elem_lt (a b : elem) : py bool :=
  match a, b with
  | EInt n, EInt m => Ret (n <? m)
  | EStr s, EStr t => Ret (str_lt s t)
  | _, _ => Raise TypeError
  end.

(** [a < b] on lists: the first position where the two differ decides;
    without one, the shorter list is the smaller. *)
Fixpoint list_lt (a b : list elem) : py bool :=
  match a, b with
  | _, [] => Ret false
  | [], _ :: _ => Ret true
  | x :: a', y :: b' => if elem_eqb x y then list_lt a' b' else elem_lt x y
  end.

(** ** [sorted(l, key=...)] and [l.sort(key=...)] *)

(** All keys are computed first; the list is then ordered with [<] on
    the keys alone, elements with equal keys keeping their order.  The
    stable insertion below stands for the interpreter's stable sort. *)
Fixpoint insert_key {A K : Type} (lt : K -> K -> py bool)
    (x : K * A) (l : list (K * A)) : py (list (K * A)) :=
  match l with
  | [] => Ret [x]
  | y :: l' =>
      bind (lt (fst y) (fst x)) (fun b =>
        if b then bind (insert_key lt x l') (fun r => Ret (y :: r))
        else Ret (x :: y :: l'))
  end.

Fixpoint sort_keyed {A K : Type} (lt : K -> K -> py bool)
    (l : list (K * A)) : py (list (K * A)) :=
  match l with
  | [] => Ret []
  | x :: l' => bind (sort_keyed lt l') (insert_key lt x)
  end.

Definition sorted {A K : Type} (key : A -> py K) (lt : K -> K -> py bool)
    (l : list A) : py (list A) :=
  bind (mapM (fun a => bind (key a) (fun k => Ret (k, a))) l) (fun kl =>
  bind (sort_keyed lt kl) (fun r => Ret (map snd r))).

(** ** [float] *)

Inductive pyfloat : Type :=
| Fin (q : Q)
| PInf
| NInf
| NaN.

(** Magnitudes from [2^1024 - 2^970] on are beyond the largest float. *)
Definition float_overflow : Z := 2 ^ 1024 - 2 ^ 970.

(** The float of an exact result: an infinity if it is out of range. *)
Definition fnorm (q : Q) : pyfloat :=
  if Qle_bool (inject_Z float_overflow) q then PInf
  else if Qle_bool q (inject_Z (- float_overflow)) then NInf
  else Fin q.

(** [float(n)] of an integer, as done by mixed arithmetic. *)
Definition float_of_int (n : Z) : py pyfloat :=
  if float_overflow <=? Z.abs n then Raise OverflowError
  else Ret (Fin (inject_Z n)).

Definition Qlt_bool (a b : Q) : bool := negb (Qle_bool b a).

Definition flt (a b : pyfloat) : bool :=
  match a, b with
  | NaN, _ | _, NaN => false
  | _, NInf => false
  | NInf, _ => true
  | PInf, _ => false
  | Fin _, PInf => true
  | Fin x, Fin y => Qlt_bool x y
  end.

Definition fle (a b : pyfloat) : bool :=
  match a, b with
  | NaN, _ | _, NaN => false
  | NInf, _ => true
  | _, PInf => true
  | _, NInf => false
  | PInf, _ => false
  | Fin x, Fin y => Qle_bool x y
  end.

Definition fgt (a b : pyfloat) : bool := flt b a.

Definition fneg (a : pyfloat) : pyfloat :=
  match a with
  | Fin x => Fin (- x)
  | PInf => NInf
  | NInf => PInf
  | NaN => NaN
  end.

Definition fabs (a : pyfloat) : pyfloat :=
  match a with
  | Fin x => Fin (Qabs x)
  | PInf | NInf => PInf
  | NaN => NaN
  end.

Definition fadd (a b : pyfloat) : pyfloat :=
  match a, b with
  | NaN, _ | _, NaN => NaN
  | PInf, NInf | NInf, PInf => NaN
  | PInf, _ | _, PInf => PInf
  | NInf, _ | _, NInf => NInf
  | Fin x, Fin y => fnorm (x + y)
  end.

Definition fsub (a b : pyfloat) : pyfloat := fadd a (fneg b).

Definition is_zero (q : Q) : bool := Qnum q =? 0.

(** [a / b]: raises on a zero divisor. *)
Definition fdiv (a b : pyfloat) : py pyfloat :=
  match a, b with
  | _, Fin y =>
      if is_zero y then Raise ZeroDivisionError
      else Ret match a with
               | Fin x => fnorm (x / y)
               | PInf => if Qlt_bool 0 y then PInf else NInf
               | NInf => if Qlt_bool 0 y then NInf else PInf
               | NaN => NaN
               end
  | NaN, _ | _, NaN => Ret NaN
  | Fin _, _ => Ret (Fin 0)
  | _, _ => Ret NaN
  end.

(** Truth value of a float: anything but zero. *)
Definition ftruthy (a : pyfloat) : bool :=
  match a with
  | Fin x => negb (is_zero x)
  | _ => true
  end.

(** [int(x)] of a float: truncation towards zero. *)
Definition int_of_float (a : pyfloat) : py Z :=
  match a with
  | Fin x => Ret (Z.quot (Qnum x) (Zpos (Qden x)))
  | PInf | NInf => Raise OverflowError
  | NaN => Raise ValueError
  end.

(** ** [pathlib] *)

(** A child of a folder, as [Path(folder).iterdir()] yields it.  It is
    kept as its name and whether it is a regular file; [str(p)] and
    [Path(s)] go between this and the text of the path. *)
Record dirent : Type := mkDirent {
  d_name : str;
  d_is_file : bool
}.

(** [p.suffix]: the last dot of the name and what follows it, unless
    that dot is the first or the last character. *)
Definition suffix (name : str) : str :=
  match rfind "."%char name with
  | Some i =>
      if (0 <? i)%nat && (i <? length name - 1)%nat then skipn i name else []
  | None => []
  end.

(** [p.is_file() and p.suffix.lower() == ".mp4"]. *)
Definition is_mp4 (p : dirent) : bool :=
  d_is_file p && str_eqb (lower (suffix (d_name p))) (lit ".mp4").

End Py.

Import Py.

Declare Scope py_scope.
Delimit Scope py_scope with py.
Notation "x <- m ;; k" := (bind m (fun x => k))
  (at level 61, m at next level, right associativity) : py_scope.
Local Open Scope py_scope.

(* ================================================================== *)
(** * dashcam_clips_viewer.py *)
(* ================================================================== *)

Module Viewer.

(** [natural_keys(text)]: [atoi] over the pieces of [re.split]. *)
Definition atoi (tok : str) : py elem :=
  if isdigit tok then n <- int_of_str tok ;; Ret (EInt n)
  else Ret (EStr (lower tok)).

Definition natural_keys (text : str) : py (list elem) :=
  mapM atoi (re_split_digits text).

(** [paths.sort(key=lambda p: natural_keys(p.name))]. *)
Definition sort_paths (paths : list dirent) : py (list dirent) :=
  sorted (fun p => natural_keys (d_name p)) list_lt paths.

(** [clamp(val, lo, hi)] on integers. *)
Definition clamp (val lo hi : Z) : Z := Z.max lo (Z.min hi val).

(** One clip descriptor, the [dict] built by [_load_folder]. *)
Record clip : Type := mkClip {
  path : str;
  fps : pyfloat;
  frames : Z;
  width : Z;
  height : Z;
  start_frame : Z;
  start_time : pyfloat
}.

(** The fields of [FolderVideoPlayer] the index bookkeeping reads and
    writes.  [cap] holds the path of the open capture. *)
Record player : Type := mkPlayer {
  files : list clip;
  total_frames : Z;
  total_seconds : pyfloat;
  cap : option str;
  cur_file_idx : Z;
  cur_global_frame : Z
}.

(** The [for i, f in enumerate(self.files)] loop of
    [_global_to_file_local], started at position [i]: [Some] is a
    [return] from inside the loop, [None] is falling out of it. *)
Fixpoint scan_files (i : nat) (fs : list clip) (gframe : Z) : option (nat * Z) :=
  match fs with
  | [] => None
  | f :: fs' =>
      let start := start_frame f in
      let end_ := start + frames f in
      if gframe <? end_ then Some (i, gframe - start)
      else scan_files (S i) fs' gframe
  end.

(** The code after the loop: [self.files[len(self.files) - 1]]. *)
Definition fallback_last (fs : list clip) : py (nat * Z) :=
  match fs with
  | [] => Raise IndexError
  | f0 :: _ =>
      let last_ := (length fs - 1)%nat in
      Ret (last_, Z.max 0 (frames (nth last_ fs f0) - 1))
  end.

Definition _global_to_file_local (self : player) (gframe : Z) : py (nat * Z) :=
  let gframe := clamp gframe 0 (Z.max 0 (total_frames self - 1)) in
  match scan_files 0 (files self) gframe with
  | Some r => Ret r
  | None => fallback_last (files self)
  end.

(** ** Loading a folder *)

(** What an opened capture reports for the four properties read. *)
Record cv_props : Type := mkProps {
  cv_fps : pyfloat;
  cv_frame_count : pyfloat;
  cv_frame_width : pyfloat;
  cv_frame_height : pyfloat
}.

(** A dialog shown to the user. *)
Inductive dialog : Type :=
| ShowError (title : String.string) (message : String.string).

Arguments ShowError (title message)%_string.

(** The accumulators of the metadata loop. *)
Record index_acc : Type := mkAcc {
  a_files : list clip;
  a_total_frames : Z;
  a_total_secs : pyfloat;
  a_start_frame : Z;
  a_start_time : pyfloat
}.

Definition acc0 : index_acc :=
  {| a_files := []; a_total_frames := 0; a_total_secs := Fin 0;
     a_start_frame := 0; a_start_time := Fin 0 |}.

(** [int(x or 0)]. *)
Definition int_or_0 (x : pyfloat) : py Z :=
  if ftruthy x then int_of_float x else Ret 0.

Section Folder.

(** The folder being opened and the video library: [video p] is [None]
    when the capture for path [p] does not open. *)
Variable folder : str.
Variable video : str -> option cv_props.

(** [str(p)] for a child of the folder. *)
Definition path_str (p : dirent) : str :=
  folder ++ "/"%char :: d_name p.

(** One turn of [for p in paths]. *)
Definition index_step (acc : index_acc) (p : dirent) : py index_acc :=
  match video (path_str p) with
  | None => Ret acc
  | Some c =>
      let fps := if ftruthy (cv_fps c) then cv_fps c else Fin 0 in
      let fps := if fle fps (Fin (1 # 1000)) then Fin 30 else fps in
      nframes <- int_or_0 (cv_frame_count c) ;;
      width <- int_or_0 (cv_frame_width c) ;;
      height <- int_or_0 (cv_frame_height c) ;;
      dur <- (if 0 <? nframes
              then n <- float_of_int nframes ;; fdiv n fps
              else Ret (Fin 0)) ;;
      Ret {| a_files := a_files acc ++
                        [ {| path := path_str p; fps := fps; frames := nframes;
                             width := width; height := height;
                             start_frame := a_start_frame acc;
                             start_time := a_start_time acc |} ];
             a_total_frames := a_total_frames acc + nframes;
             a_total_secs := fadd (a_total_secs acc) dur;
             a_start_frame := a_start_frame acc + nframes;
             a_start_time := fadd (a_start_time acc) dur |}
  end.

Fixpoint index_loop (acc : index_acc) (paths : list dirent) : py index_acc :=
  match paths with
  | [] => Ret acc
  | p :: paths' => acc' <- index_step acc p ;; index_loop acc' paths'
  end.

(** [_open_capture_for_file(idx)]. *)
Definition _open_capture_for_file (self : player) (idx : nat) : py player :=
  if Z.of_nat idx =? cur_file_idx self then Ret self
  else
    f <- index (files self) idx ;;
    Ret {| files := files self; total_frames := total_frames self;
           total_seconds := total_seconds self;
           cap := Some (path f);
           cur_file_idx := Z.of_nat idx;
           cur_global_frame := cur_global_frame self |}.

(** [_open_capture_for_global_frame(gframe)]; positioning the capture
    leaves the fields kept here as they are. *)
Definition _open_capture_for_global_frame (self : player) (gframe : Z) : py player :=
  r <- _global_to_file_local self gframe ;;
  _open_capture_for_file self (fst r).

(** [_display_current_frame()], for the same fields. *)
Definition _display_current_frame (self : player) : py player :=
  r <- _global_to_file_local self (cur_global_frame self) ;;
  _open_capture_for_file self (fst r).

(** The outcome of a call that mutates the player: the player as the
    call leaves it, the dialogs it showed, and whether it raised. *)
Record outcome : Type := mkOutcome {
  o_self : player;
  o_dialogs : list dialog;
  o_result : py unit
}.

Definition release_cap (self : player) : player :=
  {| files := files self; total_frames := total_frames self;
     total_seconds := total_seconds self; cap := None;
     cur_file_idx := cur_file_idx self;
     cur_global_frame := cur_global_frame self |}.

Definition no_videos : dialog :=
  ShowError "No videos" "No .mp4/.MP4 files found in that folder.".

Definition no_frames : dialog :=
  ShowError "No frames" "Could not read frames from any file.".

(** [_load_folder(folder)], given what [folder.iterdir()] yields. *)
Definition _load_folder (self : player) (entries : list dirent) : outcome :=
  let self := release_cap self in
  let paths := filter is_mp4 entries in
  match paths with
  | [] => mkOutcome self [no_videos] (Ret tt)
  | _ :: _ =>
      match (paths <- sort_paths paths ;; index_loop acc0 paths) with
      | Raise e => mkOutcome self [] (Raise e)
      | Ret acc =>
          if a_total_frames acc =? 0 then mkOutcome self [no_frames] (Ret tt)
          else
            let self1 :=
              {| files := a_files acc; total_frames := a_total_frames acc;
                 total_seconds := a_total_secs acc; cap := cap self;
                 cur_file_idx := -1; cur_global_frame := 0 |} in
            match _open_capture_for_global_frame self1 0 with
            | Raise e => mkOutcome self1 [] (Raise e)
            | Ret self2 =>
                match _display_current_frame self2 with
                | Raise e => mkOutcome self2 [] (Raise e)
                | Ret self3 => mkOutcome self3 [] (Ret tt)
                end
            end
      end
  end.

End Folder.

End Viewer.

(* ================================================================== *)
(** * concat_video_clips.py *)
(* ================================================================== *)

Module Concat.

(** [natural_keys(text)]. *)
Definition atoi (tok : str) : py elem :=
  if isdigit tok then n <- int_of_str tok ;; Ret (EInt n)
  else Ret (EStr (lower tok)).

Definition natural_keys (text : str) : py (list elem) :=
  mapM atoi (re_split_digits text).


(** ** [_build_atempo_chain] *)

(** The two [while] loops run on fuel: [None] is a loop still running
    when the fuel is spent.  Each carries [steps] and [factor]. *)
Fixpoint while_below_half (fuel : nat) (steps : list pyfloat) (factor : pyfloat)
  : option (py (list pyfloat * pyfloat)) :=
  if flt factor (Fin (1 # 2)) then
    match fuel with
    | O => None
    | S fuel' =>
        match fdiv factor (Fin (1 # 2)) with
        | Ret factor' => while_below_half fuel' (steps ++ [Fin (1 # 2)]) factor'
        | Raise e => Some (Raise e)
        end
    end
  else Some (Ret (steps, factor)).

Fixpoint while_above_two (fuel : nat) (steps : list pyfloat) (factor : pyfloat)
  : option (py (list pyfloat * pyfloat)) :=
  if fgt factor (Fin 2) then
    match fuel with
    | O => None
    | S fuel' =>
        match fdiv factor (Fin 2) with
        | Ret factor' => while_above_two fuel' (steps ++ [Fin 2]) factor'
        | Raise e => Some (Raise e)
        end
    end
  else Some (Ret (steps, factor)).

Definition _build_atempo_chain (fuel : nat) (factor : pyfloat)
  : option (py (list pyfloat)) :=
  if fle factor (Fin 0) then Some (Ret [])
  else
    match while_below_half fuel [] factor with
    | None => None
    | Some (Raise e) => Some (Raise e)
    | Some (Ret (steps, factor)) =>
        match while_above_two fuel steps factor with
        | None => None
        | Some (Raise e) => Some (Raise e)
        | Some (Ret (steps, factor)) =>
            if fgt (fabs (fsub factor (Fin 1))) (Fin (1 # 1000000))
            then Some (Ret (steps ++ [factor]))
            else Some (Ret steps)
        end
    end.

(** ** The progress loop of [run_ffmpeg_concat] *)

(** A call made by the loop. *)
Inductive call : Type :=
| ProgressCall (secs : pyfloat)
| LogCall (line : str).

Section Progress.

(** [float(s)] of a string is taken from the interpreter. *)
Variable float_of_str : str -> py pyfloat.

(** Whether [log_callback] and [progress_callback] were given. *)
Variable log_callback : bool.
Variable progress_callback : bool.

(** The body of the first [try]: the seconds of an [out_time_ms=] line. *)
Definition out_time_ms_secs (line : str) : py pyfloat :=
  v <- index (split_once "="%char line) 1 ;;
  us <- int_of_str (strip v) ;;
  n <- float_of_int us ;;
  fdiv n (Fin 1000000).

(** The body of the second [try]: the seconds of an [out_time=] line. *)
Definition out_time_secs (line : str) : py pyfloat :=
  v <- index (split_once "="%char line) 1 ;;
  match split_all ":"%char (strip v) with
  | [hh; mm; ss] =>
      h <- int_of_str hh ;;
      m <- int_of_str mm ;;
      s <- float_of_str ss ;;
      n <- float_of_int (h * 3600 + m * 60) ;;
      Ret (fadd n s)
  | _ => Raise ValueError
  end.

Definition report (secs : py pyfloat) : list call :=
  match catch secs with
  | Some s => if progress_callback then [ProgressCall s] else []
  | None => []
  end.

(** One turn of [for raw in proc.stdout]: the calls it makes. *)
Definition on_line (raw : str) : list call :=
  let line := strip raw in
  match line with
  | [] => []
  | _ :: _ =>
      if startswith line (lit "out_time_ms=") then report (out_time_ms_secs line)
      else if startswith line (lit "out_time=") then report (out_time_secs line)
      else if startswith line (lit "progress=") then []
      else if log_callback then [LogCall line] else []
  end.

(** The loop over the lines of the encoder's output, with the calls made
    so far. *)
Fixpoint progress_loop (lines : list str) (calls : list call) : list call :=
  match lines with
  | [] => calls
  | raw :: lines' => progress_loop lines' (calls ++ on_line raw)
  end.

(** [run_ffmpeg_concat], from the lines the encoder writes and its exit
    code: the calls made while reading, and the value returned
    ([proc.wait()]).  How the command line is put together is left out. *)
Definition run_ffmpeg_concat (stdout : list str) (returncode : Z)
  : list call * Z :=
  (progress_loop stdout [], returncode).

End Progress.

End Concat.

(* ================================================================== *)
(** * Vocabulary of the statements *)
(* ================================================================== *)

Section ViewerVocabulary.
Import Viewer.

(** Sum of the frame counts of a descriptor list. *)
Definition sum_frames (fs : list clip) : Z :=
  fold_right (fun f acc => frames f + acc) 0 fs.

(** Every clip starts where the clips before it end. *)
Definition contiguous (fs : list clip) : Prop :=
  forall i f, nth_error fs i = Some f -> start_frame f = sum_frames (firstn i fs).

(** The same, read from the head of the list with a running offset. *)
Fixpoint contiguous_from (s : Z) (fs : list clip) : Prop :=
  match fs with
  | [] => True
  | f :: fs' => start_frame f = s /\ contiguous_from (s + frames f) fs'
  end.

(** [g] is mapped to a clip that owns it, with the matching offset. *)
Definition located (self : player) (g : Z) : Prop :=
  exists i f,
    _global_to_file_local self g = Ret (i, g - start_frame f) /\
    nth_error (files self) i = Some f /\
    start_frame f <= g < start_frame f + frames f.

(** Clip [i] is the first one, in list order, whose exclusive end lies
    beyond [g]. *)
Definition first_owner (fs : list clip) (g : Z) (i : nat) (f : clip) : Prop :=
  nth_error fs i = Some f /\
  g < start_frame f + frames f /\
  forall j f', (j < i)%nat -> nth_error fs j = Some f' ->
               start_frame f' + frames f' <= g.

(** The table of a player is contiguous and its total is the number of
    frames it holds. *)
Definition table_ok (self : player) : Prop :=
  contiguous (files self) /\ total_frames self = sum_frames (files self).

(** The load replaced the table: it returned without a dialog. *)
Definition loaded (o : outcome) : Prop :=
  o_result o = Ret tt /\ o_dialogs o = [].

(** The invariant of the metadata loop. *)
Definition acc_ok (acc : index_acc) : Prop :=
  contiguous (a_files acc) /\
  a_total_frames acc = sum_frames (a_files acc) /\
  a_start_frame acc = sum_frames (a_files acc).

(** A table of two clips of 3 and 2 frames. *)
Definition two_clips : player :=
  {| files := [ mkClip [] (Fin 30) 3 0 0 0 (Fin 0) ;
                mkClip [] (Fin 30) 2 0 0 3 (Fin (1 # 10)) ];
     total_frames := 5; total_seconds := Fin (1 # 6);
     cap := None; cur_file_idx := -1; cur_global_frame := 0 |}.

(** ** A folder of three clips, one of which does not open *)

Definition demo_folder : str := lit "/d".

Definition clip_props (n : Z) : cv_props :=
  mkProps (Fin 30) (Fin (inject_Z n)) (Fin 1920) (Fin 1080).

Definition demo_video (p : str) : option cv_props :=
  if str_eqb p (lit "/d/clip2.mp4") then Some (clip_props 3)
  else if str_eqb p (lit "/d/clip10.mp4") then Some (clip_props 2)
  else None.

Definition demo_entries : list dirent :=
  [ mkDirent (lit "clip10.mp4") true;
    mkDirent (lit "broken.mp4") true;
    mkDirent (lit "clip2.mp4") true;
    mkDirent (lit "notes.txt") true ].

(** The player as [__init__] leaves it. *)
Definition player0 : player :=
  {| files := []; total_frames := 0;
     total_seconds := Fin 0; cap := None;
     cur_file_idx := -1; cur_global_frame := 0 |}.

(** A video library that opens nothing. *)
Definition no_video (p : str) : option cv_props := None.


End ViewerVocabulary.

Section ConcatVocabulary.
Import Concat.
Local Open Scope Q_scope.

(** The product of a chain of factors. *)
Definition product (qs : list Q) : Q := fold_right Qmult 1 qs.

(** The range the audio filter accepts for one stage. *)
Definition in_atempo_range (x : Q) : Prop := 1 # 2 <= x <= 2.

(** [p] is [ratio] up to one millionth of [p]. *)
Definition within_tolerance (ratio p : Q) : Prop :=
  Qabs (ratio - p) <= (1 # 1000000) * p.

Definition pow2 (n : nat) : Q := inject_Z (2 ^ Z.of_nat n).


(** Fuel that lets both loops finish on a positive finite [q]. *)
Definition atempo_fuel (q : Q) : nat :=
  Nat.max (Pos.to_nat (Qden q)) (Z.to_nat (Qnum q)).

End ConcatVocabulary.

(** ** Keys, numerals and progress values *)

Definition is_str (e : elem) : Prop := exists s, e = EStr s.
Definition is_int (e : elem) : Prop := exists n, e = EInt n.

(** Strings at even positions, integers at odd positions. *)
Definition alternates (key : list elem) : Prop :=
  forall i e, nth_error key i = Some e ->
              if Nat.even i then is_str e else is_int e.

(** The same, read from the head: [want_str] tells what the head is. *)
Fixpoint alternates_from (want_str : bool) (key : list elem) : Prop :=
  match key with
  | [] => True
  | e :: key' =>
      (if want_str then is_str e else is_int e) /\
      alternates_from (negb want_str) key'
  end.

(** The pieces [re.split] returns: text, digits, text, ..., text, where
    a text holds no decimal digit and a run of digits is not empty. *)
Inductive split_shape : list str -> Prop :=
| shape_last t :
    existsb is_decimal t = false ->
    split_shape [t]
| shape_cons t d rest :
    existsb is_decimal t = false ->
    d <> [] -> forallb is_decimal d = true ->
    split_shape rest ->
    split_shape (t :: d :: rest).

(** No character that [isdigit] accepts and [int()] does not. *)
Definition plain_digits (text : str) : Prop :=
  Forall (fun c => isdigit_char c = is_decimal c) text.

(** The value of a run of decimal digits. *)
Definition decimal_value (d : str) : Z :=
  fold_left (fun acc c => 10 * acc + digit_val c) d 0.

(** The character of a digit [0..9]. *)
Definition digit_char (d : Z) : ascii := ascii_of_N (Z.to_N (48 + d)).

(** The decimal digits of [n >= 0], put in front of [acc]. *)
Fixpoint dec_digits (fuel : nat) (n : Z) (acc : str) : str :=
  match fuel with
  | O => acc
  | S fuel' =>
      let acc' := digit_char (n mod 10) :: acc in
      if n <? 10 then acc' else dec_digits fuel' (n / 10) acc'
  end.

Definition dec_nat (n : Z) : str :=
  dec_digits (S (Z.to_nat (Z.log2 n))) n [].






(** A [float()] that accepts nothing, for lines that do not reach it. *)
Definition no_float (s : str) : py pyfloat := Raise ValueError.

(** [a < b] in the order of the folder scans: the keys of the two names,
    then [<] on the keys. *)
Definition natural_lt (a b : str) : py bool :=
  k1 <- Viewer.natural_keys a ;;
  k2 <- Viewer.natural_keys b ;;
  list_lt k1 k2.



(** [s] is not empty and neither begins nor ends with a character of
    [sp]. *)
Definition trimmed (sp : ascii -> bool) (s : str) : Prop :=
  (exists c t, s = c :: t /\ sp c = false) /\
  (exists c t, rev s = c :: t /\ sp c = false).


(* ================================================================== *)
(** * More builtins: float arithmetic, rounding and formatting *)
(* ================================================================== *)

Module PyNum.

(** [min(a, b)] and [max(a, b)]: the first argument, unless the second
    is strictly below (above) it. *)
Definition fmin2 (a b : pyfloat) : pyfloat := if flt b a then b else a.
Definition fmax2 (a b : pyfloat) : pyfloat := if flt a b then b else a.

(** [min(l)] and [max(l)] of a list. *)
Definition list_min (l : list pyfloat) : py pyfloat :=
  match l with
  | [] => Raise ValueError
  | x :: l' => Ret (fold_left fmin2 l' x)
  end.

Definition list_max (l : list pyfloat) : py pyfloat :=
  match l with
  | [] => Raise ValueError
  | x :: l' => Ret (fold_left fmax2 l' x)
  end.

(** [min(range(len(keys)), key=lambda i: keys[i])]: the first position
    whose key is not above any earlier best. *)
Fixpoint argmin_from (best : nat) (best_key : pyfloat) (i : nat)
    (keys : list pyfloat) : nat :=
  match keys with
  | [] => best
  | k :: keys' =>
      if flt k best_key then argmin_from i k (S i) keys'
      else argmin_from best best_key (S i) keys'
  end.

Definition argmin (keys : list pyfloat) : py nat :=
  match keys with
  | [] => Raise ValueError
  | k :: keys' => Ret (argmin_from 0 k 1 keys')
  end.

(** [a * b]. *)
Definition fmul (a b : pyfloat) : pyfloat :=
  match a, b with
  | NaN, _ | _, NaN => NaN
  | Fin x, Fin y => fnorm (x * y)
  | Fin x, PInf | PInf, Fin x =>
      if is_zero x then NaN else if Qlt_bool 0 x then PInf else NInf
  | Fin x, NInf | NInf, Fin x =>
      if is_zero x then NaN else if Qlt_bool 0 x then NInf else PInf
  | PInf, PInf | NInf, NInf => PInf
  | PInf, NInf | NInf, PInf => NInf
  end.

(** [a // b]: the floor of the quotient; raises on a zero divisor. *)
Definition ffloordiv (a b : pyfloat) : py pyfloat :=
  match a, b with
  | _, Fin y =>
      if is_zero y then Raise ZeroDivisionError
      else Ret match a with
               | Fin x => fnorm (inject_Z (Qfloor (x / y)))
               | _ => NaN
               end
  | Fin x, PInf =>
      Ret (if Qlt_bool x 0 then Fin (-1) else Fin 0)
  | Fin x, NInf =>
      Ret (if Qlt_bool 0 x then Fin (-1) else Fin 0)
  | _, _ => Ret NaN
  end.

(** [a % b]: what is left of [a] above the floor multiple of [b]. *)
Definition fmod (a b : pyfloat) : py pyfloat :=
  match a, b with
  | _, Fin y =>
      if is_zero y then Raise ZeroDivisionError
      else Ret match a with
               | Fin x => Fin (x - y * inject_Z (Qfloor (x / y)))
               | _ => NaN
               end
  | Fin x, PInf => Ret (if Qlt_bool x 0 then PInf else Fin x)
  | Fin x, NInf => Ret (if Qlt_bool 0 x then NInf else Fin x)
  | _, _ => Ret NaN
  end.

(** The integer nearest to [q], the even one of two that are equally
    near. *)
Definition round_half_even (q : Q) : Z :=
  let f := Qfloor q in
  let r := (q - inject_Z f)%Q in
  if Qlt_bool r (1 # 2) then f
  else if Qlt_bool (1 # 2) r then f + 1
  else if Z.even f then f else f + 1.

(** [round(x)] of a float. *)
Definition round_float (a : pyfloat) : py Z :=
  match a with
  | Fin q => Ret (round_half_even q)
  | PInf | NInf => Raise OverflowError
  | NaN => Raise ValueError
  end.

(** [l[i]] for an integer position: a negative one counts from the
    end. *)
Definition index_z {A : Type} (l : list A) (i : Z) : py A :=
  let i := if i <? 0 then Z.of_nat (length l) + i else i in
  if i <? 0 then Raise IndexError else index l (Z.to_nat i).

(** Zero padding of [body] behind [sign] up to [width] characters. *)
Definition zero_pad (width : nat) (sign body : str) : str :=
  sign ++ repeat "0"%char (width - length sign - length body) ++ body.

(** [f"{n:02d}"] and the like. *)
Definition fmt_d (width : nat) (n : Z) : str :=
  zero_pad width (if n <? 0 then ["-"%char] else []) (dec_nat (Z.abs n)).

(** [f"{x:05.2f}"] and the like: two decimals, the last one rounded. *)
Definition fmt_2f (width : nat) (a : pyfloat) : str :=
  match a with
  | Fin q =>
      let n := round_half_even (Qabs q * 100) in
      zero_pad width (if Qlt_bool q 0 then ["-"%char] else [])
        (dec_nat (n / 100) ++ "."%char :: fmt_d 2 (n mod 100))
  | PInf => zero_pad width [] (lit "inf")
  | NInf => zero_pad width ["-"%char] (lit "inf")
  | NaN => zero_pad width [] (lit "nan")
  end.

(** [hms_from_seconds(sec)] of the concatenator and [_fmt_time(sec)] of
    the player: the same body. *)
Definition format_hms (sec : pyfloat) : py str :=
  let sec := fmax2 (Fin 0) sec in
  hq <- ffloordiv sec (Fin 3600) ;;
  h <- int_of_float hq ;;
  r <- fmod sec (Fin 3600) ;;
  mq <- ffloordiv r (Fin 60) ;;
  m <- int_of_float mq ;;
  s <- fmod sec (Fin 60) ;;
  Ret (if 0 <? h
       then fmt_d 2 h ++ ":"%char :: fmt_d 2 m ++ ":"%char :: fmt_2f 5 s
       else fmt_d 2 m ++ ":"%char :: fmt_2f 5 s).

End PyNum.

Import PyNum.

(* ================================================================== *)
(** * dashcam_clips_viewer.py: playback *)
(* ================================================================== *)

(** The rest of [FolderVideoPlayer].  Widgets are left out: what a
    method writes to the slider, the labels and the status text is not
    part of the state kept here.  Of the status text, whether building
    it raises is kept; of drawing a frame, nothing. *)
Module Player.
Import Viewer.

(** A call that returns, raises, or fails on [self.cap] being [None]
    (the [AttributeError] of calling a method of the capture then). *)
Inductive run (A : Type) : Type :=
| Done (a : A)
| Raised (e : exn)
| NoCapture.

Arguments Done {A} a.
Arguments Raised {A} e.
Arguments NoCapture {A}.

Definition lift {A : Type} (m : py A) : run A :=
  match m with
  | Ret a => Done a
  | Raise e => Raised e
  end.

Definition rbind {A B : Type} (m : run A) (k : A -> run B) : run B :=
  match m with
  | Done a => k a
  | Raised e => Raised e
  | NoCapture => NoCapture
  end.

(** The player, with the flags of playback. *)
Record playback : Type := mkPlayback {
  core : player;
  playing : bool;
  seeking : bool;
  loop_var : bool;
  play_speed : pyfloat
}.

Definition with_core (self : playback) (c : player) : playback :=
  {| core := c; playing := playing self; seeking := seeking self;
     loop_var := loop_var self; play_speed := play_speed self |}.

Definition with_frame (c : player) (g : Z) : player :=
  {| files := files c; total_frames := total_frames c;
     total_seconds := total_seconds c; cap := cap c;
     cur_file_idx := cur_file_idx c; cur_global_frame := g |}.

Definition speed_choices : list pyfloat :=
  [Fin (1 # 4); Fin (1 # 2); Fin (3 # 4); Fin 1; Fin (5 # 4); Fin (3 # 2);
   Fin 2; Fin 3; Fin 4].

(** [clamp(val, lo, hi)] on floats. *)
Definition clamp_float (val lo hi : pyfloat) : pyfloat :=
  fmax2 lo (fmin2 hi val).

(** A method call on [self.cap]. *)
Definition cap_call (c : player) : run unit :=
  match cap c with
  | Some _ => Done tt
  | None => NoCapture
  end.

(** [self.cap.set(cv2.CAP_PROP_POS_FRAMES, float(local))]: the method is
    looked up on the capture, then the argument is converted. *)
Definition set_position (c : player) (local : Z) : run unit :=
  rbind (cap_call c) (fun _ =>
  rbind (lift (float_of_int local)) (fun _ => Done tt)).

(** [_open_capture_for_global_frame(gframe)], with the positioning call
    on the capture.  ([Viewer._open_capture_for_global_frame] is this
    method where it is called with [cur_file_idx = -1] on frame 0, so
    that a capture is opened whatever the clip.) *)
Definition open_capture_for_global_frame (c : player) (gframe : Z) : run player :=
  rbind (lift (_global_to_file_local c gframe)) (fun r =>
  rbind (lift (_open_capture_for_file c (fst r))) (fun c' =>
  rbind (set_position c' (snd r)) (fun _ => Done c'))).

(** [_display_current_frame()], likewise. *)
Definition display_current_frame (c : player) : run player :=
  rbind (lift (_global_to_file_local c (cur_global_frame c))) (fun r =>
  rbind (lift (_open_capture_for_file c (fst r))) (fun c' =>
  rbind (set_position c' (snd r)) (fun _ => Done c'))).

(** [_status_text()] with its defaults: the text is not kept, only
    whether building it raises. *)
Definition _status_text (c : player) : run unit :=
  match files c with
  | [] => Done tt
  | _ :: _ =>
      rbind (lift (_global_to_file_local c (cur_global_frame c))) (fun r =>
      rbind (lift (index (files c) (fst r))) (fun f =>
      lift (l <- float_of_int (snd r) ;;
            d <- fdiv l (fmax2 (Fin 1) (fps f)) ;;
            _ <- format_hms (fadd (start_time f) d) ;;
            _ <- format_hms (total_seconds c) ;;
            Ret tt)))
  end.

(** [_set_speed(speed)]. *)
Definition _set_speed (self : playback) (speed : pyfloat) : run playback :=
  rbind (lift (list_min speed_choices)) (fun lo =>
  rbind (lift (list_max speed_choices)) (fun hi =>
  let self' := {| core := core self; playing := playing self;
                  seeking := seeking self; loop_var := loop_var self;
                  play_speed := clamp_float speed lo hi |} in
  rbind (_status_text (core self')) (fun _ => Done self'))).

(** [_nudge_speed(step)]. *)
Definition _nudge_speed (self : playback) (step : Z) : run playback :=
  rbind (lift (argmin (map (fun c => fabs (fsub c (play_speed self)))
                         speed_choices))) (fun idx =>
  let idx := clamp (Z.of_nat idx + step) 0
                   (Z.of_nat (length speed_choices) - 1) in
  rbind (lift (index_z speed_choices idx)) (fun s =>
  _set_speed self s)).

(** [seek_to(gframe)], on the fields of the player. *)
Definition seek_to (c : player) (gframe : Z) : run player :=
  match files c with
  | [] => Done c
  | _ :: _ =>
      let c1 := with_frame c (clamp gframe 0 (total_frames c - 1)) in
      rbind (open_capture_for_global_frame c1 (cur_global_frame c1)) (fun c2 =>
      rbind (display_current_frame c2) (fun c3 =>
      rbind (_status_text c3) (fun _ => Done c3)))
  end.

(** [step(delta)]. *)
Definition step (self : playback) (delta : Z) : run playback :=
  match files (core self) with
  | [] => Done self
  | _ :: _ =>
      let self1 := {| core := core self; playing := false;
                      seeking := seeking self; loop_var := loop_var self;
                      play_speed := play_speed self |} in
      let new_frame :=
        clamp (cur_global_frame (core self) + delta) 0
              (total_frames (core self) - 1) in
      rbind (seek_to (core self1) new_frame) (fun c => Done (with_core self1 c))
  end.



(** What the capture answers during one tick: its position, and whether
    the first and (when one is made) the second [read()] give a frame. *)
Record tick_io : Type := mkTickIo {
  cap_pos : pyfloat;
  read1 : bool;
  read2 : bool
}.

(** The end of [_timer_tick] after a frame was read or not: the playhead
    moves on by one frame if it was (and the status text is then written
    anew). *)
Definition after_read (c : player) (ok : bool) : player :=
  if ok then with_frame c (clamp (cur_global_frame c + 1) 0 (total_frames c - 1))
  else c.

(** The delay to the next tick, from the rate of the current clip and
    the speed. *)
Definition next_delay (self : playback) : run Z :=
  rbind (match files (core self) with
         | [] => Done (Fin 30)
         | _ :: _ =>
             rbind (lift (index_z (files (core self)) (cur_file_idx (core self))))
                   (fun f => Done (fps f))
         end) (fun fps =>
  let eff_fps := fmax2 (Fin 1) (fmul fps (fmax2 (Fin (1 # 100)) (play_speed self))) in
  rbind (lift (fdiv (Fin 1000) eff_fps)) (fun q =>
  rbind (lift (round_float q)) (fun r =>
  Done (Z.max 1 r)))).

(** [_timer_tick()]: the player after the tick and the delay passed to
    [self.after]. *)
Definition _timer_tick (self : playback) (io : tick_io) : run (playback * Z) :=
  match files (core self), playing self with
  | _ :: _, true =>
      rbind (lift (_global_to_file_local (core self)
                     (cur_global_frame (core self)))) (fun r =>
      let file_idx := fst r in
      rbind (lift (_open_capture_for_file (core self) file_idx)) (fun c1 =>
      rbind (cap_call c1) (fun _ =>
      rbind (lift (int_or_0 (cap_pos io))) (fun pos =>
      rbind (if 1 <? Z.abs (pos - snd r) then set_position c1 (snd r)
             else Done tt) (fun _ =>
      let finish (c : player) (ok : bool) :=
        let self' := with_core self (after_read c ok) in
        rbind (if ok then _status_text (core self') else Done tt) (fun _ =>
        rbind (next_delay self') (fun d => Done (self', d))) in
      if read1 io then finish c1 true
      else if (file_idx + 1 <? length (files c1))%nat then
        rbind (lift (_open_capture_for_file c1 (file_idx + 1))) (fun c2 =>
        rbind (lift (index (files c2) (file_idx + 1))) (fun f =>
        let c3 := with_frame c2 (start_frame f) in
        rbind (cap_call c3) (fun _ => finish c3 (read2 io))))
      else if loop_var self then
        rbind (seek_to c1 0) (fun c2 =>
        rbind (cap_call c2) (fun _ => finish c2 (read2 io)))
      else
        Done ({| core := c1; playing := false; seeking := seeking self;
                 loop_var := loop_var self; play_speed := play_speed self |},
              33))))))
  | _, _ => Done (self, 33)
  end.

End Player.

(* ================================================================== *)
(** * concat_video_clips.py: the application *)
(* ================================================================== *)

Module App.
Import Concat.

(** [p.replace("'", r"'\''")]. *)
Definition escape_quotes (p : str) : str :=
  flat_map (fun c => if Ascii.eqb c "'"%char then lit "'\''" else [c]) p.

(** What [build_concat_listfile] writes, given the resolved path of each
    file in [as_posix()] form. *)
Definition listfile_line (p : str) : str :=
  lit "file '" ++ escape_quotes p ++ ["'"%char; "010"%char].

Definition build_concat_listfile (files : list str) : str :=
  flat_map listfile_line files.

Section Probe.

(** [float(s)] of a string is taken from the interpreter. *)
Variable float_of_str : str -> py pyfloat.

(** [get_duration_seconds(path)], given what the prober wrote to its
    standard output, or [None] if running it raised. *)
Definition get_duration_seconds (stdout : option str) : pyfloat :=
  match stdout with
  | None => Fin 0
  | Some out =>
      match catch (float_of_str (strip out)) with
      | Some d => fmax2 (Fin 0) d
      | None => Fin 0
      end
  end.

End Probe.

(** [_set_progress_total(seconds_total)]: the new [total_duration], and
    whether writing the label raised. *)
Definition _set_progress_total (seconds_total : pyfloat) : pyfloat * py unit :=
  let total := fmax2 (Fin 0) seconds_total in
  (total,
   if fgt total (Fin 0) then _ <- format_hms total ;; Ret tt else Ret tt).

(** [_on_progress_seconds(seconds_done)]: the value given to the
    progress bar, if one is, and whether the call raised. *)
Definition _on_progress_seconds (total_duration seconds_done : pyfloat)
  : option pyfloat * py unit :=
  if fgt total_duration (Fin 0) then
    match fdiv seconds_done total_duration with
    | Ret q =>
        (Some (fmin2 (Fin 100) (fmul q (Fin 100))),
         _ <- format_hms seconds_done ;; _ <- format_hms total_duration ;; Ret tt)
    | Raise e => (None, Raise e)
    end
  else (None, Ret tt).

(** ** The arithmetic of [App.start] and of the command line *)

Definition base_out_fps : Z := 60.

Section Rate.

Variable float_of_str : str -> py pyfloat.

(** [user_fps = float(fps_str); assert user_fps > 0] under its [try]:
    the rate, or [None] where the dialog "Invalid FPS" is shown. *)
Definition parse_fps (fps_text : str) : option pyfloat :=
  let fps_str := match strip fps_text with
                 | [] => lit "60"
                 | c :: r => c :: r
                 end in
  match catch (float_of_str fps_str) with
  | Some user_fps => if fgt user_fps (Fin 0) then Some user_fps else None
  | None => None
  end.

End Rate.

(** [base_out_fps / user_fps]. *)
Definition speed_of (user_fps : pyfloat) : py pyfloat :=
  b <- float_of_int base_out_fps ;;
  fdiv b user_fps.

(** [sum(get_duration_seconds(f) for f in files)]. *)
Definition total_sec (durations : list pyfloat) : pyfloat :=
  fold_left fadd durations (Fin 0).

(** The total passed to [_set_progress_total]. *)
Definition effective_total (speed_mode : bool) (user_fps : pyfloat)
    (durations : list pyfloat) : py pyfloat :=
  if speed_mode then
    speed <- speed_of user_fps ;;
    if fgt speed (Fin 0) then fdiv (total_sec durations) speed
    else Ret (total_sec durations)
  else Ret (total_sec durations).

(** The audio arguments [run_ffmpeg_concat] puts on the command line. *)
Inductive audio_args : Type :=
| NoAudio
| PlainAac
| Atempo (steps : list pyfloat).

(** The choice of the audio arguments; [None] is a chain that is still
    being built when the fuel is spent. *)
Definition audio_of (fuel : nat) (user_fps : pyfloat)
    (speed_mode keep_audio audio_present : bool) : option (py audio_args) :=
  if speed_mode then
    match speed_of user_fps with
    | Raise e => Some (Raise e)
    | Ret speed =>
        if keep_audio && audio_present then
          match _build_atempo_chain fuel speed with
          | None => None
          | Some (Raise e) => Some (Raise e)
          | Some (Ret []) => Some (Ret PlainAac)
          | Some (Ret (s :: steps)) => Some (Ret (Atempo (s :: steps)))
          end
        else Some (Ret NoAudio)
    end
  else Some (Ret (if keep_audio && audio_present then PlainAac else NoAudio)).

End App.

(* ================================================================== *)
(** * Vocabulary of the statements on playback and on the application *)
(* ================================================================== *)

(** The clip opens. *)
Definition opens (folder : str) (video : str -> option Viewer.cv_props)
    (p : dirent) : bool :=
  match video (Viewer.path_str folder p) with
  | Some _ => true
  | None => false
  end.


(** The capture that is open is that of the clip [cur_file_idx]. *)
Definition open_on (c : Viewer.player) : Prop :=
  exists i f,
    Viewer.cur_file_idx c = Z.of_nat i /\
    nth_error (Viewer.files c) i = Some f /\
    Viewer.cap c = Some (Viewer.path f).

(** The clip [cur_file_idx] is the one the mapper gives for the
    playhead. *)
Definition playhead_owned (c : Viewer.player) : Prop :=
  exists i l,
    Viewer._global_to_file_local c (Viewer.cur_global_frame c) = Ret (i, l) /\
    Viewer.cur_file_idx c = Z.of_nat i.

(** The player [c] with the playhead at [g] and the capture of clip [i],
    which is [f], open. *)
Definition settled (c : Viewer.player) (g : Z) (i : nat) (f : Viewer.clip)
  : Viewer.player :=
  {| Viewer.files := Viewer.files c;
     Viewer.total_frames := Viewer.total_frames c;
     Viewer.total_seconds := Viewer.total_seconds c;
     Viewer.cap := Some (Viewer.path f);
     Viewer.cur_file_idx := Z.of_nat i;
     Viewer.cur_global_frame := g |}.
(** A frame the timer can leave the playhead on: one of the table, or
    the first frame of a clip. *)
Definition timer_frame (c : Viewer.player) (g : Z) : Prop :=
  0 <= g <= Viewer.total_frames c - 1 \/
  exists f, In f (Viewer.files c) /\ g = Viewer.start_frame f.

(** The status text can be built with the playhead on any frame. *)
Definition status_ok (c : Viewer.player) : Prop :=
  forall g, Player._status_text (Player.with_frame c g) = Player.Done tt.

(** The same float: the same special value, or equal finite values. *)
Definition same_float (a b : pyfloat) : Prop :=
  match a, b with
  | Fin x, Fin y => (x == y)%Q
  | PInf, PInf | NInf, NInf | NaN, NaN => True
  | _, _ => False
  end.

(** [two_clips] with the capture of its first clip open. *)
Definition two_clips_open : Viewer.player :=
  {| Viewer.files := Viewer.files two_clips;
     Viewer.total_frames := 5; Viewer.total_seconds := Fin (1 # 6);
     Viewer.cap := Some []; Viewer.cur_file_idx := 0;
     Viewer.cur_global_frame := 0 |}.

(** The line is one of the three kinds of progress lines. *)
Definition key_line (line : str) : bool :=
  startswith line (lit "out_time_ms=") || startswith line (lit "out_time=") ||
  startswith line (lit "progress=").

(** A [float()] that reads integer numerals and nothing else. *)
Definition float_of_numeral (s : str) : py pyfloat :=
  n <- int_of_str s ;; float_of_int n.

(** A value a float can hold. *)
Definition is_float (a : pyfloat) : Prop :=
  match a with
  | Fin q => (Qabs q < inject_Z float_overflow)%Q
  | _ => True
  end.

(** The text of [h] hours, [m] minutes and [s] seconds: the hours are
    left out when there are none. *)
Definition hms_text (h m : Z) (s : Q) : str :=
  if 0 <? h
  then fmt_d 2 h ++ ":"%char :: fmt_d 2 m ++ ":"%char :: fmt_2f 5 (Fin s)
  else fmt_d 2 m ++ ":"%char :: fmt_2f 5 (Fin s).

(** The text holds no colon. *)
Definition no_colon (s : str) : Prop :=
  existsb (fun c => Ascii.eqb c ":"%char) s = false.

(** The time line that carries the fields [hh], [mm] and [ss]. *)
Definition time_line (hh mm ss : str) : str :=
  lit "out_time=" ++ hh ++ ":"%char :: mm ++ ":"%char :: ss.


(* ================================================================== *)
(** * Properties of the frame index mapper *)
(* ================================================================== *)

Section FrameIndex.
Import Viewer.

Lemma contiguous_from_shift s fs :
  (forall i f, nth_error fs i = Some f ->
               start_frame f = s + sum_frames (firstn i fs)) ->
  contiguous_from s fs.
Proof.
  revert s. induction fs as [|f fs IH]; intros s H; simpl; [exact I|].
  split.
  - rewrite (H 0%nat f eq_refl). simpl. lia.
  - apply IH. intros i f' Hi.
    rewrite (H (S i) f' Hi). simpl. lia.
Qed.

Lemma contiguous_contiguous_from fs : contiguous fs -> contiguous_from 0 fs.
Proof.
  intros H. apply contiguous_from_shift. intros i f Hi.
  rewrite (H i f Hi). lia.
Qed.

Lemma contiguous_from_nth s fs :
  contiguous_from s fs ->
  forall i f, nth_error fs i = Some f ->
              start_frame f = s + sum_frames (firstn i fs).
Proof.
  revert s. induction fs as [|f fs IH]; intros s H i f' Hi.
  - destruct i; discriminate.
  - destruct H as [H0 H1]. destruct i as [|i]; simpl in *.
    + inversion Hi; subst. lia.
    + rewrite (IH _ H1 i f' Hi). lia.
Qed.

(** What the loop returns, whatever the table holds. *)
Lemma scan_files_first k fs g i f :
  first_owner fs g i f ->
  scan_files k fs g = Some ((k + i)%nat, g - start_frame f).
Proof.
  revert k i. induction fs as [|f0 fs IH]; intros k i (Hn & Hlt & Hbefore).
  - destruct i; discriminate.
  - destruct i as [|i]; simpl in *.
    + inversion Hn; subst f0.
      destruct (Z.ltb_spec g (start_frame f + frames f)); [|lia].
      now rewrite Nat.add_0_r.
    + pose proof (Hbefore 0%nat f0 (Nat.lt_0_succ _) eq_refl) as H0.
      destruct (Z.ltb_spec g (start_frame f0 + frames f0)); [lia|].
      rewrite (IH (S k) i).
      * now rewrite Nat.add_succ_r.
      * repeat split; auto. intros j f' Hj Hnj.
        apply (Hbefore (S j) f'); [lia|exact Hnj].
Qed.

Lemma scan_files_inv k fs g r :
  scan_files k fs g = Some r ->
  exists i f, r = ((k + i)%nat, g - start_frame f) /\ first_owner fs g i f.
Proof.
  revert k. induction fs as [|f0 fs IH]; intros k H; simpl in H; [discriminate|].
  destruct (Z.ltb_spec g (start_frame f0 + frames f0)) as [Hlt|Hge].
  - inversion H; subst r. exists 0%nat, f0. rewrite Nat.add_0_r.
    repeat split; auto. intros j f' Hj. lia.
  - destruct (IH _ H) as (i & f & -> & Hn & Hlt & Hb).
    exists (S i), f. rewrite Nat.add_succ_r. repeat split; auto.
    intros [|j] f' Hj Hnj; simpl in Hnj.
    + inversion Hnj; subst; lia.
    + apply (Hb j f'); [lia|exact Hnj].
Qed.

Lemma scan_files_None k fs g :
  scan_files k fs g = None <->
  Forall (fun f => start_frame f + frames f <= g) fs.
Proof.
  revert k. induction fs as [|f0 fs IH]; intros k; simpl.
  - split; auto.
  - destruct (Z.ltb_spec g (start_frame f0 + frames f0)) as [Hlt|Hge].
    + split; [discriminate|]. intros H. inversion H; subst. lia.
    + rewrite IH. split; intros H.
      * constructor; auto.
      * now inversion H.
Qed.

(** On a contiguous table the loop finds an owner for every index below
    the end of the table. *)
Lemma scan_files_contiguous k s fs g :
  contiguous_from s fs ->
  s <= g < s + sum_frames fs ->
  exists i f,
    scan_files k fs g = Some ((k + i)%nat, g - start_frame f) /\
    nth_error fs i = Some f /\
    start_frame f <= g < start_frame f + frames f.
Proof.
  revert k s. induction fs as [|f0 fs IH]; intros k s Hc Hg; simpl in *.
  - lia.
  - destruct Hc as [Hs Hc].
    destruct (Z.ltb_spec g (start_frame f0 + frames f0)) as [Hlt|Hge].
    + exists 0%nat, f0. rewrite Nat.add_0_r. simpl. repeat split; auto; lia.
    + destruct (IH (S k) (s + frames f0) Hc) as (i & f & Hscan & Hn & Hr); [lia|].
      exists (S i), f. rewrite Nat.add_succ_r. simpl. auto.
Qed.

Lemma clamp_in_range g hi : 0 <= hi -> 0 <= clamp g 0 hi <= hi.
Proof. unfold clamp. lia. Qed.

Lemma clamp_id g hi : 0 <= g <= hi -> clamp g 0 hi = g.
Proof. unfold clamp. lia. Qed.

Lemma clamp_below g hi : 0 <= hi -> g < 0 -> clamp g 0 hi = 0.
Proof. unfold clamp. lia. Qed.

Lemma clamp_above g hi : 0 <= hi -> hi <= g -> clamp g 0 hi = hi.
Proof. unfold clamp. lia. Qed.

Lemma clamp_idem g hi : 0 <= hi -> clamp (clamp g 0 hi) 0 hi = clamp g 0 hi.
Proof. unfold clamp. lia. Qed.

Lemma located_in_range self g :
  contiguous (files self) ->
  total_frames self = sum_frames (files self) ->
  0 <= g < total_frames self ->
  located self g.
Proof.
  intros Hc Ht Hg. unfold located, _global_to_file_local.
  rewrite clamp_id by lia.
  destruct (scan_files_contiguous 0 0 (files self) g) as (i & f & Hs & Hn & Hr).
  - now apply contiguous_contiguous_from.
  - lia.
  - exists i, f. rewrite Hs. auto.
Qed.

Lemma sum_frames_firstn_mono fs :
  Forall (fun f => 0 <= frames f) fs ->
  forall i j, (i <= j)%nat ->
              sum_frames (firstn i fs) <= sum_frames (firstn j fs).
Proof.
  induction 1 as [|f fs Hf _ IH]; intros i j Hij.
  - now rewrite !firstn_nil.
  - destruct i as [|i]; destruct j as [|j]; simpl; try lia.
    + specialize (IH 0%nat j (Nat.le_0_l _)). simpl in IH. lia.
    + specialize (IH i j). lia.
Qed.

Lemma sum_frames_firstn_succ fs i f :
  nth_error fs i = Some f ->
  sum_frames (firstn (S i) fs) = sum_frames (firstn i fs) + frames f.
Proof.
  revert i. induction fs as [|f0 fs IH]; intros [|i] H; try discriminate.
  - inversion H; subst. simpl. lia.
  - simpl in H. specialize (IH i H). simpl in *. lia.
Qed.

Lemma sum_frames_firstn_all fs i :
  (length fs <= i)%nat -> sum_frames (firstn i fs) = sum_frames fs.
Proof. intros H. now rewrite firstn_all2. Qed.

(** With no negative frame count, the first frame of a clip that has
    frames is mapped to that clip, offset 0. *)
Lemma boundary_exact self j f :
  contiguous (files self) ->
  total_frames self = sum_frames (files self) ->
  Forall (fun c => 0 <= frames c) (files self) ->
  nth_error (files self) j = Some f ->
  0 < frames f ->
  _global_to_file_local self (start_frame f) = Ret (j, 0).
Proof.
  intros Hc Ht Hnn Hj Hpos.
  assert (Hlen : (j < length (files self))%nat)
    by (apply nth_error_Some; congruence).
  pose proof (Hc j f Hj) as Hs.
  pose proof (sum_frames_firstn_succ _ _ _ Hj) as Hsucc.
  pose proof (sum_frames_firstn_mono _ Hnn 0%nat j (Nat.le_0_l _)) as H0.
  pose proof (sum_frames_firstn_mono _ Hnn (S j) (length (files self)) Hlen) as Hend.
  rewrite (sum_frames_firstn_all _ (length (files self))) in Hend by lia.
  simpl in H0.
  unfold _global_to_file_local. rewrite clamp_id by lia.
  rewrite (scan_files_first 0 (files self) (start_frame f) j f).
  - simpl. now rewrite Z.sub_diag.
  - repeat split; auto; [lia|].
    intros j' f' Hlt Hj'.
    rewrite (Hc j' f' Hj'), <- (sum_frames_firstn_succ _ _ _ Hj'), Hs.
    apply sum_frames_firstn_mono; auto.
Qed.

(** C1. On a non-empty table whose start frames are contiguous from 0,
    with [total_frames] the number of frames of the table, every global
    index [0 <= g < total_frames] is mapped to a pair [(i, local)] with
    [files[i].start_frame <= g < files[i].start_frame + files[i].frames]
    and [local = g - files[i].start_frame]; in particular at the first
    frame of each clip and at the last valid frame. *)
Theorem global_to_file_local_correct (self : player) :
  files self <> [] ->
  contiguous (files self) ->
  total_frames self = sum_frames (files self) ->
  (forall g, 0 <= g < total_frames self -> located self g) /\
  (forall j f, nth_error (files self) j = Some f ->
               0 <= start_frame f < total_frames self ->
               located self (start_frame f)) /\
  (0 < total_frames self -> located self (total_frames self - 1)) /\
  (Forall (fun c => 0 <= frames c) (files self) ->
   forall j f, nth_error (files self) j = Some f -> 0 < frames f ->
               _global_to_file_local self (start_frame f) = Ret (j, 0)).
Proof.
  intros _ Hc Ht. split; [|split; [|split]].
  - intros g Hg. now apply located_in_range.
  - intros j f _ Hr. now apply located_in_range.
  - intros Hpos. apply located_in_range; auto. lia.
  - intros Hnn j f Hj Hpos. now apply boundary_exact.
Qed.

Lemma two_clips_contiguous : contiguous (files two_clips).
Proof.
  intros [|[|[|i]]] f H; simpl in H; inversion H; reflexivity.
Defined.

Lemma global_to_file_local_correct_witness :
  files two_clips <> [] /\
  contiguous (files two_clips) /\
  total_frames two_clips = sum_frames (files two_clips) /\
  located two_clips 3 /\
  _global_to_file_local two_clips 4 = Ret (1%nat, 1).
Proof.
  assert (Hne : files two_clips <> []) by discriminate.
  assert (Ht : total_frames two_clips = sum_frames (files two_clips))
    by reflexivity.
  destruct (global_to_file_local_correct two_clips Hne two_clips_contiguous Ht)
    as (Hall & _).
  repeat split; try assumption.
  - apply two_clips_contiguous.
  - apply Hall. simpl. lia.
Defined.

(** C3. The input is first clamped into [0, total_frames - 1] and then
    looked up by a scan of the table in list order, which returns the
    first clip whose exclusive end lies beyond the clamped index; so an
    input below 0 is mapped like 0 and an input at or beyond
    [total_frames] like [total_frames - 1]. *)
Theorem global_to_file_local_clamps (self : player) (g : Z) :
  let c := clamp g 0 (Z.max 0 (total_frames self - 1)) in
  _global_to_file_local self g = _global_to_file_local self c /\
  (forall i f, first_owner (files self) c i f ->
               _global_to_file_local self g = Ret (i, c - start_frame f)) /\
  (forall i l, scan_files 0 (files self) c = Some (i, l) ->
               exists f, first_owner (files self) c i f /\ l = c - start_frame f) /\
  (0 < total_frames self ->
   0 <= c <= total_frames self - 1 /\
   (0 <= g < total_frames self -> c = g) /\
   (g < 0 -> c = 0 /\
             _global_to_file_local self g = _global_to_file_local self 0) /\
   (total_frames self <= g ->
    c = total_frames self - 1 /\
    _global_to_file_local self g =
    _global_to_file_local self (total_frames self - 1))).
Proof.
  intros c. subst c.
  set (hi := Z.max 0 (total_frames self - 1)).
  assert (Hhi : 0 <= hi) by (unfold hi; lia).
  split; [|split; [|split]].
  - unfold _global_to_file_local. fold hi. now rewrite clamp_idem.
  - intros i f Hf. unfold _global_to_file_local. fold hi.
    now rewrite (scan_files_first 0 _ _ i f Hf).
  - intros i l Hs. destruct (scan_files_inv _ _ _ _ Hs) as (i' & f & Heq & Hf).
    inversion Heq; subst. exists f. auto.
  - intros Hpos. assert (Hhi' : hi = total_frames self - 1) by (unfold hi; lia).
    split; [|split; [|split]].
    + pose proof (clamp_in_range g hi Hhi). lia.
    + intros Hg. apply clamp_id. lia.
    + intros Hg. rewrite (clamp_below g hi Hhi Hg). split; [reflexivity|].
      unfold _global_to_file_local. fold hi.
      rewrite (clamp_below g hi Hhi Hg). now rewrite (clamp_id 0 hi) by lia.
    + intros Hg. rewrite (clamp_above g hi Hhi) by lia. split; [exact Hhi'|].
      unfold _global_to_file_local. fold hi.
      rewrite (clamp_above g hi Hhi) by lia.
      rewrite <- Hhi'. now rewrite (clamp_id hi hi) by lia.
Qed.

Lemma global_to_file_local_clamps_witness :
  0 < total_frames two_clips /\
  _global_to_file_local two_clips (-7) = _global_to_file_local two_clips 0 /\
  _global_to_file_local two_clips 99 =
  _global_to_file_local two_clips (total_frames two_clips - 1).
Proof.
  assert (Hpos : 0 < total_frames two_clips) by reflexivity.
  destruct (global_to_file_local_clamps two_clips (-7)) as (_ & _ & _ & Hlo).
  destruct (global_to_file_local_clamps two_clips 99) as (_ & _ & _ & Hhi).
  destruct (Hlo Hpos) as (_ & _ & Hbelow & _).
  destruct (Hhi Hpos) as (_ & _ & _ & Habove).
  refine (conj Hpos (conj (proj2 (Hbelow _)) (proj2 (Habove _)))).
  - reflexivity.
  - discriminate.
Defined.

(** C10. On a non-empty table that is contiguous from 0, with
    [total_frames] the positive sum of its frame counts, the scan returns
    from inside the loop for every input: the code after the loop is not
    reached. *)
Theorem fallback_unreachable (self : player) (g : Z) :
  files self <> [] ->
  contiguous (files self) ->
  total_frames self = sum_frames (files self) ->
  0 < total_frames self ->
  exists r,
    scan_files 0 (files self)
      (clamp g 0 (Z.max 0 (total_frames self - 1))) = Some r /\
    _global_to_file_local self g = Ret r.
Proof.
  intros _ Hc Ht Hpos.
  set (c := clamp g 0 (Z.max 0 (total_frames self - 1))).
  assert (Hr : 0 <= c < total_frames self).
  { pose proof (clamp_in_range g (Z.max 0 (total_frames self - 1))).
    fold c in H. lia. }
  destruct (scan_files_contiguous 0 0 (files self) c) as (i & f & Hs & _).
  - now apply contiguous_contiguous_from.
  - lia.
  - exists (i, c - start_frame f). split; [exact Hs|].
    unfold _global_to_file_local. fold c. now rewrite Hs.
Qed.

Lemma fallback_unreachable_witness :
  files two_clips <> [] /\
  contiguous (files two_clips) /\
  total_frames two_clips = sum_frames (files two_clips) /\
  0 < total_frames two_clips /\
  exists r, scan_files 0 (files two_clips)
              (clamp 99 0 (Z.max 0 (total_frames two_clips - 1))) = Some r /\
            _global_to_file_local two_clips 99 = Ret r.
Proof.
  assert (Hne : files two_clips <> []) by discriminate.
  assert (Ht : total_frames two_clips = sum_frames (files two_clips))
    by reflexivity.
  assert (Hpos : 0 < total_frames two_clips) by reflexivity.
  repeat split; try assumption.
  - apply two_clips_contiguous.
  - exact (fallback_unreachable two_clips 99 Hne two_clips_contiguous Ht Hpos).
Defined.

End FrameIndex.

(* ================================================================== *)
(** * Properties of folder loading *)
(* ================================================================== *)

Section FolderLoad.
Import Viewer.

Lemma sum_frames_app fs gs :
  sum_frames (fs ++ gs) = sum_frames fs + sum_frames gs.
Proof. induction fs as [|f fs IH]; simpl; [reflexivity|]. rewrite IH. lia. Qed.

Lemma contiguous_snoc fs f :
  contiguous fs -> start_frame f = sum_frames fs -> contiguous (fs ++ [f]).
Proof.
  intros Hc Hf i f' Hi.
  destruct (Nat.lt_ge_cases i (length fs)) as [Hlt|Hge].
  - rewrite nth_error_app1 in Hi by exact Hlt.
    rewrite firstn_app. replace (i - length fs)%nat with 0%nat by lia.
    simpl. rewrite app_nil_r. now apply Hc.
  - rewrite nth_error_app2 in Hi by exact Hge.
    destruct (i - length fs)%nat as [|k] eqn:Hk; simpl in Hi.
    + inversion Hi; subst f'. rewrite firstn_app, Hk. simpl.
      rewrite app_nil_r, firstn_all2 by lia. exact Hf.
    + destruct k; discriminate.
Qed.

Lemma acc0_ok : acc_ok acc0.
Proof.
  repeat split. intros [|i] f H; discriminate.
Qed.

Variable folder : str.
Variable video : str -> option cv_props.

Lemma index_step_ok acc p acc' :
  acc_ok acc -> index_step folder video acc p = Ret acc' -> acc_ok acc'.
Proof.
  intros (Hc & Ht & Hs) H. unfold index_step in H.
  destruct (video (path_str folder p)) as [c|]; [|inversion H; subst; now repeat split].
  destruct (int_or_0 (cv_frame_count c)) as [n|]; simpl in H; [|discriminate].
  destruct (int_or_0 (cv_frame_width c)) as [w|]; simpl in H; [|discriminate].
  destruct (int_or_0 (cv_frame_height c)) as [h|]; simpl in H; [|discriminate].
  match type of H with bind ?d _ = _ => destruct d as [dur|] end;
    simpl in H; [|discriminate].
  inversion H; subst acc'; clear H. unfold acc_ok; simpl.
  rewrite sum_frames_app. simpl. repeat split; try lia.
  apply contiguous_snoc; auto.
Qed.

Lemma index_loop_ok paths : forall acc acc',
  acc_ok acc -> index_loop folder video acc paths = Ret acc' -> acc_ok acc'.
Proof.
  induction paths as [|p paths IH]; intros acc acc' Hok H; simpl in H.
  - now inversion H; subst.
  - destruct (index_step folder video acc p) as [acc1|] eqn:Hstep;
      simpl in H; [|discriminate].
    eapply IH; [|exact H]. eapply index_step_ok; eauto.
Qed.


(** The mapper reads the table and the total only. *)
Lemma global_to_file_local_ext self self' g :
  files self' = files self -> total_frames self' = total_frames self ->
  _global_to_file_local self' g = _global_to_file_local self g.
Proof. intros Hf Ht. unfold _global_to_file_local. now rewrite Hf, Ht. Qed.

(** On a table that is not empty the mapper returns a position of the
    table, whatever it is asked. *)
Lemma global_to_file_local_total self g :
  files self <> [] ->
  exists r, _global_to_file_local self g = Ret r /\
            (fst r < length (files self))%nat.
Proof.
  intros Hne. unfold _global_to_file_local. set (c := clamp g 0 _).
  destruct (scan_files 0 (files self) c) as [[i l]|] eqn:Hs.
  - destruct (scan_files_inv _ _ _ _ Hs) as (j & f & Heq & Hn & _).
    inversion Heq; subst. eexists; split; [reflexivity|]. simpl.
    apply nth_error_Some. congruence.
  - unfold fallback_last. destruct (files self) as [|f0 fs]; [congruence|].
    eexists; split; [reflexivity|]. simpl. lia.
Qed.

Lemma open_capture_for_file_ok self idx :
  (idx < length (files self))%nat ->
  exists self', _open_capture_for_file self idx = Ret self' /\
                files self' = files self /\
                total_frames self' = total_frames self /\
                cur_global_frame self' = cur_global_frame self.
Proof.
  intros Hlt. unfold _open_capture_for_file.
  destruct (Z.of_nat idx =? cur_file_idx self).
  - exists self. auto.
  - unfold index. destruct (nth_error (files self) idx) as [f|] eqn:Hn.
    + simpl. eexists; split; [reflexivity|]. simpl. auto.
    + apply nth_error_None in Hn. lia.
Qed.

(** Showing the first frame of a table that is not empty does not raise
    and leaves the table as it is. *)
Lemma show_first_frame self :
  files self <> [] ->
  exists self2 self3,
    _open_capture_for_global_frame self 0 = Ret self2 /\
    _display_current_frame self2 = Ret self3 /\
    files self3 = files self /\ total_frames self3 = total_frames self.
Proof.
  intros Hne.
  destruct (global_to_file_local_total self 0 Hne) as (r & Hr & Hlt).
  destruct (open_capture_for_file_ok self (fst r) Hlt)
    as (self2 & Ho & Hf2 & Ht2 & Hg2).
  assert (Hne2 : files self2 <> []) by now rewrite Hf2.
  destruct (global_to_file_local_total self2 (cur_global_frame self2) Hne2)
    as (r2 & Hr2 & Hlt2).
  destruct (open_capture_for_file_ok self2 (fst r2) Hlt2)
    as (self3 & Ho3 & Hf3 & Ht3 & _).
  exists self2, self3.
  unfold _open_capture_for_global_frame, _display_current_frame.
  rewrite Hr, Hr2. simpl. repeat split; congruence.
Qed.

(** What a load leaves in the table, case by case. *)
Lemma load_folder_cases self entries :
  let o := _load_folder folder video self entries in
  (o_dialogs o = [no_videos] /\ filter is_mp4 entries = [] /\
   files (o_self o) = files self /\ total_frames (o_self o) = total_frames self) \/
  (filter is_mp4 entries <> [] /\
   ((exists e, o_result o = Raise e /\ o_dialogs o = [] /\
               ((files (o_self o) = files self /\
                 total_frames (o_self o) = total_frames self) \/
                table_ok (o_self o))) \/
    (exists paths acc,
        sort_paths (filter is_mp4 entries) = Ret paths /\
        index_loop folder video acc0 paths = Ret acc /\
        ((a_total_frames acc = 0 /\ o_dialogs o = [no_frames] /\
          o_result o = Ret tt /\
          files (o_self o) = files self /\
          total_frames (o_self o) = total_frames self) \/
         (a_total_frames acc <> 0 /\ o_dialogs o = [] /\
          files (o_self o) = a_files acc /\
          total_frames (o_self o) = a_total_frames acc /\
          table_ok (o_self o)))))).
Proof.
  intros o. subst o. unfold _load_folder.
  destruct (filter is_mp4 entries) as [|p0 ps] eqn:Hf.
  - left. simpl. auto.
  - right. split; [discriminate|].
    destruct (sort_paths (p0 :: ps)) as [paths|e] eqn:Hsort.
    2:{ left. exists e. simpl. auto. }
    simpl bind.
    destruct (index_loop folder video acc0 paths) as [acc|e] eqn:Hloop.
    2:{ left. exists e. simpl. auto. }
    right. exists paths, acc. split; [reflexivity|]. split; [exact Hloop|].
    destruct (index_loop_ok _ _ _ acc0_ok Hloop) as (Hc & Ht & _).
    destruct (Z.eqb_spec (a_total_frames acc) 0) as [Hz|Hnz].
    + left. simpl. repeat split; auto.
    + right. split; [exact Hnz|].
      set (self1 := {| files := a_files acc |}).
      assert (Hne : files self1 <> []).
      { simpl. intros Hnil. rewrite Hnil in Ht. simpl in Ht. lia. }
      destruct (show_first_frame self1 Hne) as (self2 & self3 & -> & -> & Hf3 & Ht3).
      simpl. unfold table_ok. rewrite Hf3, Ht3. simpl. repeat split; auto.
Qed.

(** ** Sorting keeps the elements *)





(** C4. After a load that replaces the table, the table is contiguous
    and gapless: the first descriptor starts at 0, each next one starts
    where the one before it ends, and [total_frames] is the sum of the
    frame counts; this holds whatever the player held before, and a load
    that does not replace the table leaves it as it was. *)
Theorem load_folder_contiguous (self : player) (entries : list dirent) :
  let o := _load_folder folder video self entries in
  (loaded o ->
   total_frames (o_self o) <> 0 /\
   (forall f, nth_error (files (o_self o)) 0 = Some f -> start_frame f = 0) /\
   (forall i f f', nth_error (files (o_self o)) i = Some f ->
                   nth_error (files (o_self o)) (S i) = Some f' ->
                   start_frame f' = start_frame f + frames f) /\
   total_frames (o_self o) = sum_frames (files (o_self o)) /\
   contiguous (files (o_self o))) /\
  (table_ok self -> table_ok (o_self o)).
Proof.
  intros o. pose proof (load_folder_cases self entries) as H. fold o in H.
  split.
  - intros [Hres Hdlg].
    destruct H as [(Hd & _)|(_ & [(e & He & _)|(paths & acc & _ & _ & H)])];
      [congruence|congruence|].
    destruct H as [(_ & Hd & _)|(Hnz & _ & Hf & Ht & Hc & Hsum)]; [congruence|].
    split; [congruence|]. split; [|split; [|split]]; auto.
    + intros f Hf0. now rewrite (Hc 0%nat f Hf0).
    + intros i f f' Hi Hi'.
      rewrite (Hc (S i) f' Hi'), (Hc i f Hi).
      now apply sum_frames_firstn_succ.
  - intros [Hc Ht]. unfold table_ok.
    destruct H as [(_ & _ & Hf & Ht')|(_ & [(e & _ & _ & [[Hf Ht']|Hok])
                                           |(paths & acc & _ & _ & H)])].
    + now rewrite Hf, Ht'.
    + now rewrite Hf, Ht'.
    + exact Hok.
    + destruct H as [(_ & _ & _ & Hf & Ht')|(_ & _ & _ & _ & Hok)].
      * now rewrite Hf, Ht'.
      * exact Hok.
Qed.


End FolderLoad.

Lemma player0_table_ok : table_ok player0.
Proof.
  split; [|reflexivity]. intros [|i] f H; discriminate.
Defined.

Lemma load_folder_contiguous_witness :
  let o := Viewer._load_folder demo_folder demo_video player0 demo_entries in
  loaded o /\ table_ok player0 /\
  Viewer.total_frames (Viewer.o_self o) = 5 /\
  contiguous (Viewer.files (Viewer.o_self o)) /\
  table_ok (Viewer.o_self o).
Proof.
  intros o.
  assert (Hl : loaded o) by (split; vm_compute; reflexivity).
  destruct (load_folder_contiguous demo_folder demo_video player0 demo_entries)
    as [Hload Hkeep].
  destruct (Hload Hl) as (_ & _ & _ & _ & Hc).
  refine (conj Hl (conj player0_table_ok
           (conj _ (conj Hc (Hkeep player0_table_ok))))).
  vm_compute. reflexivity.
Defined.



(* ================================================================== *)
(** * Properties of the speed-ratio decomposition *)
(* ================================================================== *)

Section Atempo.
Import Concat.
Local Open Scope Q_scope.

Lemma Qlt_bool_iff a b : Qlt_bool a b = true <-> a < b.
Proof.
  unfold Qlt_bool. rewrite negb_true_iff. split; intros H.
  - apply Qnot_le_lt. intros Hle. apply Qle_bool_iff in Hle. congruence.
  - destruct (Qle_bool b a) eqn:E; [|reflexivity].
    apply Qle_bool_iff in E. exfalso. lra.
Qed.

Lemma Qlt_bool_false a b : Qlt_bool a b = false <-> b <= a.
Proof.
  unfold Qlt_bool. rewrite negb_false_iff. apply Qle_bool_iff.
Qed.

Lemma float_overflow_large : 4 < inject_Z float_overflow.
Proof.
  change 4 with (inject_Z 4). rewrite <- Zlt_Qlt. now vm_compute.
Qed.

Lemma fnorm_finite x :
  - inject_Z float_overflow < x < inject_Z float_overflow -> fnorm x = Fin x.
Proof.
  intros [Hlo Hhi]. unfold fnorm.
  destruct (Qle_bool (inject_Z float_overflow) x) eqn:E1.
  - apply Qle_bool_iff in E1. lra.
  - destruct (Qle_bool x (inject_Z (- float_overflow))) eqn:E2; [|reflexivity].
    apply Qle_bool_iff in E2. rewrite inject_Z_opp in E2. lra.
Qed.

Lemma product_snoc qs a : product (qs ++ [a]) == product qs * a.
Proof.
  induction qs as [|b qs IH]; simpl.
  - ring.
  - rewrite IH. ring.
Qed.

Lemma map_Fin_snoc qs a : map Fin qs ++ [Fin a] = map Fin (qs ++ [a]).
Proof. now rewrite map_app. Qed.

Lemma pow2_pos n : 0 < pow2 n.
Proof.
  unfold pow2. change 0 with (inject_Z 0). rewrite <- Zlt_Qlt.
  apply Z.pow_pos_nonneg; lia.
Qed.

Lemma pow2_0 : pow2 0 == 1.
Proof. reflexivity. Qed.

Lemma pow2_S n : pow2 (S n) == 2 * pow2 n.
Proof.
  unfold pow2. rewrite Nat2Z.inj_succ, Z.pow_succ_r by lia.
  now rewrite inject_Z_mult.
Qed.

Lemma pow2_gt n : inject_Z (Z.of_nat n) < pow2 n.
Proof.
  unfold pow2. rewrite <- Zlt_Qlt. apply Z.pow_gt_lin_r; lia.
Qed.

Lemma pow2_mono n m : (n <= m)%nat -> pow2 n <= pow2 m.
Proof.
  intros H. unfold pow2. rewrite <- Zle_Qle.
  apply Z.pow_le_mono_r; lia.
Qed.

Lemma while_below_half_eq fuel steps factor :
  while_below_half fuel steps factor =
  if flt factor (Fin (1 # 2)) then
    match fuel with
    | O => None
    | S fuel' =>
        match fdiv factor (Fin (1 # 2)) with
        | Ret factor' => while_below_half fuel' (steps ++ [Fin (1 # 2)]) factor'
        | Raise e => Some (Raise e)
        end
    end
  else Some (Ret (steps, factor)).
Proof. destruct fuel; reflexivity. Qed.

Lemma while_above_two_eq fuel steps factor :
  while_above_two fuel steps factor =
  if fgt factor (Fin 2) then
    match fuel with
    | O => None
    | S fuel' =>
        match fdiv factor (Fin 2) with
        | Ret factor' => while_above_two fuel' (steps ++ [Fin 2]) factor'
        | Raise e => Some (Raise e)
        end
    end
  else Some (Ret (steps, factor)).
Proof. destruct fuel; reflexivity. Qed.

Lemma fdiv_half x :
  0 < x -> x < 1 # 2 -> fdiv (Fin x) (Fin (1 # 2)) = Ret (Fin (x / (1 # 2))).
Proof.
  intros H0 H1. unfold fdiv. change (is_zero (1 # 2)) with false. cbv iota.
  rewrite fnorm_finite; [reflexivity|].
  pose proof float_overflow_large.
  assert (x / (1 # 2) == 2 * x) by (field). lra.
Qed.

Lemma fdiv_two x :
  0 < x -> x < inject_Z float_overflow ->
  fdiv (Fin x) (Fin 2) = Ret (Fin (x / 2)).
Proof.
  intros H0 H1. unfold fdiv. change (is_zero 2) with false. cbv iota.
  rewrite fnorm_finite; [reflexivity|].
  assert (x / 2 == (1 # 2) * x) by (field). lra.
Qed.

Lemma while_below_half_spec fuel : forall qs x r,
  0 < x -> x < inject_Z float_overflow ->
  while_below_half fuel (map Fin qs) (Fin x) = Some r ->
  exists qs' x',
    r = Ret (map Fin qs', Fin x') /\
    product qs' * x' == product qs * x /\
    (Forall in_atempo_range qs -> Forall in_atempo_range qs') /\
    1 # 2 <= x' /\ (x' == x \/ x' < 1).
Proof.
  induction fuel as [|fuel IH]; intros qs x r H0 Hthr H;
    rewrite while_below_half_eq in H; simpl flt in H;
    destruct (Qlt_bool x (1 # 2)) eqn:E.
  - discriminate.
  - apply Qlt_bool_false in E. inversion H; subst r.
    exists qs, x. repeat split; auto; try reflexivity. now left.
  - apply Qlt_bool_iff in E. rewrite (fdiv_half x H0 E), map_Fin_snoc in H.
    assert (Hx : x / (1 # 2) == 2 * x) by field.
    pose proof float_overflow_large as Hbig.
    assert (H0' : 0 < x / (1 # 2)) by lra.
    assert (Hthr' : x / (1 # 2) < inject_Z float_overflow) by lra.
    destruct (IH _ _ _ H0' Hthr' H) as (qs' & x' & -> & Hp & Hr & Hlo & Hhi).
    exists qs', x'. split; [reflexivity|]. split; [|split; [|split]].
    + rewrite Hp, product_snoc, Hx. ring.
    + intros Hall. apply Hr. apply Forall_app. split; [exact Hall|].
      constructor; [|constructor]. unfold in_atempo_range. lra.
    + exact Hlo.
    + right. destruct Hhi as [Heq|Hlt]; lra.
  - apply Qlt_bool_false in E. inversion H; subst r.
    exists qs, x. repeat split; auto; try reflexivity. now left.
Qed.

Lemma while_below_half_runs fuel : forall steps x,
  0 < x -> 1 <= 2 * x * pow2 fuel ->
  exists r, while_below_half fuel steps (Fin x) = Some r.
Proof.
  induction fuel as [|fuel IH]; intros steps x H0 Hb;
    rewrite while_below_half_eq; simpl flt;
    destruct (Qlt_bool x (1 # 2)) eqn:E; eauto.
  - apply Qlt_bool_iff in E. rewrite pow2_0 in Hb. lra.
  - apply Qlt_bool_iff in E. rewrite (fdiv_half x H0 E).
    assert (Hx : x / (1 # 2) == 2 * x) by field.
    apply IH; [lra|]. rewrite pow2_S in Hb. rewrite Hx. lra.
Qed.

Lemma while_above_two_spec fuel : forall qs x r,
  1 # 2 <= x -> x < inject_Z float_overflow ->
  while_above_two fuel (map Fin qs) (Fin x) = Some r ->
  exists qs' x',
    r = Ret (map Fin qs', Fin x') /\
    product qs' * x' == product qs * x /\
    (Forall in_atempo_range qs -> Forall in_atempo_range qs') /\
    1 # 2 <= x' <= 2.
Proof.
  induction fuel as [|fuel IH]; intros qs x r H0 Hthr H;
    rewrite while_above_two_eq in H; unfold fgt in H; simpl flt in H;
    destruct (Qlt_bool 2 x) eqn:E.
  - discriminate.
  - apply Qlt_bool_false in E. inversion H; subst r.
    exists qs, x. repeat split; auto; reflexivity.
  - apply Qlt_bool_iff in E.
    rewrite (fdiv_two x ltac:(lra) Hthr), map_Fin_snoc in H.
    assert (Hx : x / 2 == (1 # 2) * x) by field.
    assert (H0' : 1 # 2 <= x / 2) by lra.
    assert (Hthr' : x / 2 < inject_Z float_overflow) by lra.
    destruct (IH _ _ _ H0' Hthr' H) as (qs' & x' & -> & Hp & Hr & Hlo).
    exists qs', x'. split; [reflexivity|]. split; [|split].
    + rewrite Hp, product_snoc, Hx. ring.
    + intros Hall. apply Hr. apply Forall_app. split; [exact Hall|].
      constructor; [|constructor]. unfold in_atempo_range. lra.
    + exact Hlo.
  - apply Qlt_bool_false in E. inversion H; subst r.
    exists qs, x. repeat split; auto; reflexivity.
Qed.

Lemma while_above_two_runs fuel : forall steps x,
  0 < x -> x < inject_Z float_overflow -> x <= 2 * pow2 fuel ->
  exists r, while_above_two fuel steps (Fin x) = Some r.
Proof.
  induction fuel as [|fuel IH]; intros steps x H0 Hthr Hb;
    rewrite while_above_two_eq; unfold fgt; simpl flt;
    destruct (Qlt_bool 2 x) eqn:E; eauto.
  - apply Qlt_bool_iff in E. rewrite pow2_0 in Hb. lra.
  - apply Qlt_bool_iff in E. rewrite (fdiv_two x H0 Hthr).
    assert (Hx : x / 2 == (1 # 2) * x) by field.
    apply IH; [lra|lra|]. rewrite pow2_S in Hb. rewrite Hx. lra.
Qed.

Lemma Qnum_den_mult q : q * inject_Z (Zpos (Qden q)) == inject_Z (Qnum q).
Proof. destruct q as [a b]. unfold Qeq, inject_Z, Qmult. simpl. lia. Qed.

Lemma pow2_ge_1 n : 1 <= pow2 n.
Proof. rewrite <- pow2_0. apply pow2_mono. lia. Qed.

Lemma atempo_fuel_below q fuel :
  0 < q -> (atempo_fuel q <= fuel)%nat -> 1 <= 2 * q * pow2 fuel.
Proof.
  intros H0 Hf.
  pose proof (Qnum_den_mult q) as Hq.
  pose proof (pow2_gt (Pos.to_nat (Qden q))) as Hg.
  rewrite positive_nat_Z in Hg.
  pose proof (pow2_mono (Pos.to_nat (Qden q)) fuel) as Hm.
  assert (Hn : 1 <= inject_Z (Qnum q)).
  { change 1 with (inject_Z 1). rewrite <- Zle_Qle.
    assert (0 < Qnum q)%Z by (apply Qlt_alt in H0; destruct q as [[|a|a] b];
      simpl in *; try discriminate; lia). lia. }
  unfold atempo_fuel in Hf. specialize (Hm ltac:(lia)).
  set (B := inject_Z (Zpos (Qden q))) in *. set (P := pow2 fuel) in *.
  set (P0 := pow2 (Pos.to_nat (Qden q))) in *.
  nra.
Qed.

Lemma atempo_fuel_above q fuel :
  0 < q -> (atempo_fuel q <= fuel)%nat -> q <= 2 * pow2 fuel.
Proof.
  intros H0 Hf.
  pose proof (Qnum_den_mult q) as Hq.
  assert (H0n : (0 < Qnum q)%Z).
  { apply Qlt_alt in H0. destruct q as [[|a|a] b]; simpl in *; try discriminate; lia. }
  pose proof (pow2_gt (Z.to_nat (Qnum q))) as Hg.
  rewrite Z2Nat.id in Hg by lia.
  pose proof (pow2_mono (Z.to_nat (Qnum q)) fuel) as Hm.
  unfold atempo_fuel in Hf. specialize (Hm ltac:(lia)).
  assert (HB : 1 <= inject_Z (Zpos (Qden q))).
  { change 1 with (inject_Z 1). rewrite <- Zle_Qle. lia. }
  set (B := inject_Z (Zpos (Qden q))) in *. set (P := pow2 fuel) in *.
  set (P0 := pow2 (Z.to_nat (Qnum q))) in *. set (A := inject_Z (Qnum q)) in *.
  nra.
Qed.

Lemma last_step x :
  1 # 2 <= x <= 2 ->
  fgt (fabs (fsub (Fin x) (Fin 1))) (Fin (1 # 1000000)) =
  Qlt_bool (1 # 1000000) (Qabs (x + - 1)).
Proof.
  intros Hx. unfold fsub, fneg, fadd. rewrite fnorm_finite.
  - reflexivity.
  - pose proof float_overflow_large. lra.
Qed.

(** What the chain is, for a positive finite ratio, when it returns. *)
Lemma build_atempo_chain_result fuel q r :
  0 < q -> q < inject_Z float_overflow ->
  _build_atempo_chain fuel (Fin q) = Some r ->
  exists qs, r = Ret (map Fin qs) /\
             Forall in_atempo_range qs /\
             within_tolerance q (product qs).
Proof.
  intros H0 Hthr H. unfold _build_atempo_chain in H. simpl fle in H.
  destruct (Qle_bool q 0) eqn:E; [apply Qle_bool_iff in E; lra|clear E].
  destruct (while_below_half fuel [] (Fin q)) as [r1|] eqn:E1; [|discriminate].
  destruct (while_below_half_spec fuel [] q r1 H0 Hthr E1)
    as (qs1 & x1 & -> & Hp1 & Hr1 & Hlo1 & Hx1).
  assert (Hthr1 : x1 < inject_Z float_overflow).
  { pose proof float_overflow_large. destruct Hx1; lra. }
  destruct (while_above_two fuel (map Fin qs1) (Fin x1)) as [r2|] eqn:E2;
    [|discriminate].
  destruct (while_above_two_spec fuel qs1 x1 r2 Hlo1 Hthr1 E2)
    as (qs2 & x2 & -> & Hp2 & Hr2 & Hx2).
  assert (Hp : product qs2 * x2 == q).
  { rewrite Hp2, Hp1. simpl. ring. }
  assert (Hall : Forall in_atempo_range qs2) by (apply Hr2, Hr1; constructor).
  assert (HP : 0 < product qs2).
  { destruct (Qlt_le_dec 0 (product qs2)) as [|Hle]; [assumption|].
    exfalso. set (P := product qs2) in *. nra. }
  rewrite (last_step x2 Hx2) in H.
  destruct (Qlt_bool (1 # 1000000) (Qabs (x2 + - 1))) eqn:E;
    inversion H; subst r; clear H.
  - exists (qs2 ++ [x2]). rewrite map_Fin_snoc. split; [reflexivity|].
    split.
    + apply Forall_app. split; [exact Hall|]. constructor; [exact Hx2|constructor].
    + unfold within_tolerance. pose proof (product_snoc qs2 x2) as Hs.
      apply Qabs_Qle_condition.
      set (P' := product (qs2 ++ [x2])) in *. set (P := product qs2) in *.
      split; nra.
  - exists qs2. split; [reflexivity|]. split; [exact Hall|].
    apply Qlt_bool_false in E. apply Qabs_Qle_condition in E.
    unfold within_tolerance. apply Qabs_Qle_condition.
    set (P := product qs2) in *. split; nra.
Qed.

Lemma build_atempo_chain_returns q fuel :
  0 < q -> q < inject_Z float_overflow ->
  (atempo_fuel q <= fuel)%nat ->
  exists r, _build_atempo_chain fuel (Fin q) = Some r.
Proof.
  intros H0 Hthr Hf. unfold _build_atempo_chain. simpl fle.
  destruct (Qle_bool q 0) eqn:E; [eauto|clear E].
  destruct (while_below_half_runs fuel [] q H0 (atempo_fuel_below q fuel H0 Hf))
    as (r1 & E1).
  rewrite E1.
  destruct (while_below_half_spec fuel [] q r1 H0 Hthr E1)
    as (qs1 & x1 & -> & _ & _ & Hlo1 & Hx1).
  assert (Hb : x1 <= 2 * pow2 fuel).
  { destruct Hx1 as [Heq|Hlt].
    - rewrite Heq. now apply atempo_fuel_above.
    - pose proof (pow2_ge_1 fuel). lra. }
  assert (Hthr1 : x1 < inject_Z float_overflow).
  { pose proof float_overflow_large. destruct Hx1; lra. }
  destruct (while_above_two_runs fuel (map Fin qs1) x1 ltac:(lra) Hthr1 Hb)
    as (r2 & E2).
  rewrite E2.
  destruct (while_above_two_spec fuel qs1 x1 r2 Hlo1 Hthr1 E2)
    as (qs2 & x2 & -> & _ & _ & Hx2).
  destruct (fgt _ _); eauto.
Qed.

Example atempo_3 :
  _build_atempo_chain 4 (Fin 3) = Some (Ret [Fin 2; Fin (3 / 2)]).
Proof. reflexivity. Qed.

Example atempo_eighth :
  _build_atempo_chain 4 (Fin (1 # 8)) =
  Some (Ret [Fin (1 # 2); Fin (1 # 2); Fin ((1 # 8) / (1 # 2) / (1 # 2))]).
Proof. reflexivity. Qed.

Example atempo_1 : _build_atempo_chain 0 (Fin 1) = Some (Ret []).
Proof. reflexivity. Qed.

Example atempo_nan : _build_atempo_chain 0 NaN = Some (Ret []).
Proof. reflexivity. Qed.

Lemma while_above_two_inf fuel : forall steps,
  while_above_two fuel steps PInf = None.
Proof.
  induction fuel as [|fuel IH]; intros steps; [reflexivity|].
  rewrite while_above_two_eq. simpl. apply IH.
Qed.

(** C2, for finite ratios.  For every positive finite ratio the chain is
    returned, given fuel enough for the two loops; each of its factors
    lies in [0.5, 2.0], and the product of the factors is the ratio, or is
    within one millionth of it (relative to the product) when a last
    factor within one millionth of 1 was left out. *)
Theorem build_atempo_chain_correct (q : Q) :
  0 < q -> q < inject_Z float_overflow ->
  (forall fuel, (atempo_fuel q <= fuel)%nat ->
     exists r, _build_atempo_chain fuel (Fin q) = Some r) /\
  (forall fuel r, _build_atempo_chain fuel (Fin q) = Some r ->
     exists qs, r = Ret (map Fin qs) /\
                Forall in_atempo_range qs /\
                within_tolerance q (product qs)).
Proof.
  intros H0 Hthr. split.
  - intros fuel Hf. now apply build_atempo_chain_returns.
  - intros fuel r. now apply build_atempo_chain_result.
Qed.

Lemma build_atempo_chain_correct_witness :
  0 < 3 /\ 3 < inject_Z float_overflow /\
  (exists r, _build_atempo_chain (atempo_fuel 3) (Fin 3) = Some r) /\
  (exists qs, _build_atempo_chain (atempo_fuel 3) (Fin 3) = Some (Ret (map Fin qs)) /\
              Forall in_atempo_range qs /\ within_tolerance 3 (product qs)).
Proof.
  assert (H0 : 0 < 3) by reflexivity.
  assert (Hthr : 3 < inject_Z float_overflow) by reflexivity.
  destruct (build_atempo_chain_correct 3 H0 Hthr) as [Hruns Hres].
  destruct (Hruns (atempo_fuel 3) (Nat.le_refl _)) as [r Hr].
  destruct (Hres _ _ Hr) as (qs & Heq & Hall & Htol).
  refine (conj H0 (conj Hthr (conj (ex_intro _ r Hr) _))).
  exists qs. rewrite Hr, Heq. auto.
Defined.

(** Against C2: on the positive ratio [inf] the second loop never ends,
    so no chain is returned. *)
Lemma build_atempo_chain_inf :
  fgt PInf (Fin 0) = true /\
  ~ exists fuel r, _build_atempo_chain fuel PInf = Some r.
Proof.
  split; [reflexivity|]. intros (fuel & r & H).
  unfold _build_atempo_chain in H. simpl fle in H.
  rewrite while_below_half_eq in H. simpl in H.
  now rewrite while_above_two_inf in H.
Qed.

End Atempo.

(* ================================================================== *)
(** * Properties of the natural sort and of the progress parser *)
(* ================================================================== *)

Section NaturalKeys.

Lemma existsb_rev {A} (f : A -> bool) l : existsb f (rev l) = existsb f l.
Proof.
  induction l as [|a l IH]; simpl; [reflexivity|].
  rewrite existsb_app, IH. simpl. rewrite orb_false_r. apply orb_comm.
Qed.

Lemma forallb_rev {A} (f : A -> bool) l : forallb f (rev l) = forallb f l.
Proof.
  induction l as [|a l IH]; simpl; [reflexivity|].
  rewrite forallb_app, IH. simpl. rewrite andb_true_r. apply andb_comm.
Qed.

Lemma re_split_scan_shape s :
  (forall cur, existsb is_decimal cur = false ->
               split_shape (re_split_scan false cur s)) /\
  (forall cur, cur <> [] -> forallb is_decimal cur = true ->
               exists d rest, re_split_scan true cur s = d :: rest /\
                              d <> [] /\ forallb is_decimal d = true /\
                              split_shape rest).
Proof.
  induction s as [|c s [IHt IHd]]; split; intros cur.
  - intros H. simpl. constructor. now rewrite existsb_rev.
  - intros Hne Hd. simpl. exists (rev cur), [[]]. repeat split.
    + intros Hr. apply (f_equal (@rev ascii)) in Hr.
      rewrite rev_involutive in Hr. auto.
    + now rewrite forallb_rev.
    + now constructor.
  - intros H. simpl. destruct (is_decimal c) eqn:Ec.
    + destruct (IHd [c]) as (d & rest & -> & Hne & Hd & Hrest);
        [discriminate|simpl; now rewrite Ec|].
      constructor; auto. now rewrite existsb_rev.
    + apply IHt. simpl. now rewrite Ec, H.
  - intros Hne Hd. simpl. destruct (is_decimal c) eqn:Ec.
    + apply IHd; [discriminate|]. simpl. now rewrite Ec, Hd.
    + exists (rev cur), (re_split_scan false [c] s). repeat split.
      * intros Hr. apply (f_equal (@rev ascii)) in Hr.
        rewrite rev_involutive in Hr. auto.
      * now rewrite forallb_rev.
      * apply IHt. simpl. now rewrite Ec.
Qed.

Lemma re_split_digits_shape text : split_shape (re_split_digits text).
Proof. apply re_split_scan_shape. reflexivity. Qed.

(** ** [int()] on runs of digits and on text without digits *)

Lemma is_decimal_not_space c : is_decimal c = true -> int_space c = false.
Proof.
  unfold is_decimal, int_space. intros H.
  apply andb_true_iff in H as [H1 H2].
  apply Z.leb_le in H1. apply Z.leb_le in H2.
  repeat (apply orb_false_iff; split);
    try apply andb_false_iff; try (apply Z.eqb_neq; lia).
  right. apply Z.leb_gt. lia.
Qed.

Lemma lstrip_by_head sp c s : sp c = false -> lstrip_by sp (c :: s) = c :: s.
Proof. intros H. simpl. now rewrite H. Qed.

Lemma forallb_hd_last {A} (f : A -> bool) (a : A) l :
  forallb f (a :: l) = true ->
  exists b l', rev (a :: l) = b :: l' /\ f b = true.
Proof.
  intros H. rewrite <- forallb_rev in H.
  destruct (rev (a :: l)) as [|b l'] eqn:E.
  - apply (f_equal (@length A)) in E. rewrite length_rev in E. discriminate.
  - simpl in H. apply andb_true_iff in H as [Hb _]. eauto.
Qed.

Lemma strip_digits d :
  forallb is_decimal d = true -> strip_by int_space d = d.
Proof.
  intros H. unfold strip_by. destruct d as [|c d]; [reflexivity|].
  pose proof H as H'. simpl in H'. apply andb_true_iff in H' as [Hc _].
  rewrite (lstrip_by_head _ _ _ (is_decimal_not_space c Hc)).
  destruct (forallb_hd_last _ _ _ H) as (b & l' & E & Hb).
  rewrite E, (lstrip_by_head _ _ _ (is_decimal_not_space b Hb)), <- E.
  apply rev_involutive.
Qed.

Lemma int_digits_value d : forall acc,
  forallb is_decimal d = true ->
  int_digits acc d = Ret (fold_left (fun a c => 10 * a + digit_val c) d acc).
Proof.
  induction d as [|c d IH]; intros acc H; simpl in *; [reflexivity|].
  apply andb_true_iff in H as [Hc Hd]. rewrite Hc. now apply IH.
Qed.

Lemma is_decimal_not_sign c :
  is_decimal c = true -> Ascii.eqb c "+" = false /\ Ascii.eqb c "-" = false.
Proof.
  intros H. split; apply Ascii.eqb_neq; intros ->; discriminate.
Qed.

(** [int()] of a run of decimal digits is its value. *)
Lemma int_of_digits d :
  d <> [] -> forallb is_decimal d = true ->
  int_of_str d = Ret (decimal_value d).
Proof.
  intros Hne H. unfold int_of_str. rewrite (strip_digits d H).
  destruct d as [|c d]; [congruence|].
  pose proof H as H'. simpl in H'. apply andb_true_iff in H' as [Hc _].
  destruct (is_decimal_not_sign c Hc) as [-> ->].
  unfold int_unsigned. rewrite Hc. now apply int_digits_value.
Qed.

Lemma is_decimal_isdigit c : is_decimal c = true -> isdigit_char c = true.
Proof. unfold isdigit_char. now intros ->. Qed.

Lemma isdigit_digits d :
  d <> [] -> forallb is_decimal d = true -> isdigit d = true.
Proof.
  intros Hne H. unfold isdigit. destruct d as [|c d]; [congruence|].
  apply forallb_forall. intros x Hx. apply is_decimal_isdigit.
  now apply (proj1 (forallb_forall _ _) H).
Qed.

Lemma existsb_lstrip f sp s :
  existsb f s = false -> existsb f (lstrip_by sp s) = false.
Proof.
  induction s as [|c s IH]; intros H; [reflexivity|].
  pose proof H as H'. simpl in H'. apply orb_false_iff in H' as [Hc Hs].
  simpl. destruct (sp c); [now apply IH|exact H].
Qed.

Lemma existsb_strip f sp s :
  existsb f s = false -> existsb f (strip_by sp s) = false.
Proof.
  intros H. unfold strip_by. rewrite existsb_rev.
  apply existsb_lstrip. rewrite existsb_rev. now apply existsb_lstrip.
Qed.

Lemma int_unsigned_no_digit s :
  existsb is_decimal s = false -> int_unsigned s = Raise ValueError.
Proof.
  destruct s as [|c s]; [reflexivity|]. simpl. intros H.
  apply orb_false_iff in H as [-> _]. reflexivity.
Qed.

(** [int()] rejects a text that holds no decimal digit. *)
Lemma int_of_no_digit s :
  existsb is_decimal s = false -> int_of_str s = Raise ValueError.
Proof.
  intros H. unfold int_of_str.
  pose proof (existsb_strip is_decimal int_space s H) as Hs.
  destruct (strip_by int_space s) as [|c r]; [reflexivity|].
  pose proof Hs as Hs'. simpl in Hs'. apply orb_false_iff in Hs' as [_ Hr].
  destruct (Ascii.eqb c "+"); [now rewrite int_unsigned_no_digit|].
  destruct (Ascii.eqb c "-"); [now rewrite int_unsigned_no_digit|].
  now rewrite int_unsigned_no_digit.
Qed.

(** ** From pieces to keys *)

Lemma atoi_digits d :
  d <> [] -> forallb is_decimal d = true ->
  Viewer.atoi d = Ret (EInt (decimal_value d)).
Proof.
  intros Hne H. unfold Viewer.atoi.
  now rewrite (isdigit_digits d Hne H), (int_of_digits d Hne H).
Qed.

Lemma atoi_text t :
  existsb is_decimal t = false ->
  Viewer.atoi t = (if isdigit t then Raise ValueError else Ret (EStr (lower t))).
Proof.
  intros H. unfold Viewer.atoi. destruct (isdigit t); [|reflexivity].
  now rewrite (int_of_no_digit t H).
Qed.

Lemma atoi_raises tok e : Viewer.atoi tok = Raise e -> e = ValueError.
Proof.
  unfold Viewer.atoi. destruct (isdigit tok); [|discriminate].
  unfold int_of_str.
  assert (Hd : forall s acc, int_digits acc s = Raise e -> e = ValueError).
  { induction s as [|c s IH]; intros acc H; simpl in H; [discriminate|].
    destruct (is_decimal c); [now apply (IH _ H)|].
    destruct (Ascii.eqb c "_"); [|congruence].
    destruct s as [|d s']; [congruence|].
    destruct (is_decimal d); [now apply (IH _ H)|congruence]. }
  assert (Hu : forall s, int_unsigned s = Raise e -> e = ValueError).
  { intros [|c s] H; simpl in H; [congruence|].
    destruct (is_decimal c) eqn:Ec; [|congruence].
    apply (Hd (c :: s) 0). simpl. now rewrite Ec. }
  destruct (strip_by int_space tok) as [|c r]; [simpl; congruence|].
  destruct (Ascii.eqb c "+").
  - destruct (int_unsigned r) eqn:E; simpl; [discriminate|].
    intros H; inversion H; subst. now apply (Hu r).
  - destruct (Ascii.eqb c "-").
    + destruct (int_unsigned r) eqn:E; simpl; [discriminate|].
      intros H; inversion H; subst. now apply (Hu r).
    + destruct (int_unsigned (c :: r)) eqn:E; simpl; [discriminate|].
      intros H; inversion H; subst. now apply (Hu (c :: r)).
Qed.

Lemma mapM_raises {A B} (f : A -> py B) (l : list A) e :
  mapM f l = Raise e -> exists x, In x l /\ f x = Raise e.
Proof.
  induction l as [|a l IH]; simpl; [discriminate|].
  destruct (f a) as [b|e'] eqn:Ea; simpl.
  - destruct (mapM f l) as [bs|e'']; simpl; [discriminate|].
    intros H; inversion H; subst. destruct (IH eq_refl) as (x & Hx & Hfx).
    exists x. auto.
  - intros H; inversion H; subst. exists a. auto.
Qed.

Lemma keys_of_shape toks :
  split_shape toks ->
  forall key, mapM Viewer.atoi toks = Ret key ->
              alternates_from true key /\ length key = length toks.
Proof.
  induction 1 as [t Ht|t d rest Ht Hne Hd Hrest IH]; intros key H; simpl in H.
  - rewrite (atoi_text t Ht) in H. destruct (isdigit t); [discriminate|].
    inversion H; subst. simpl. repeat split. now exists (lower t).
  - rewrite (atoi_text t Ht), (atoi_digits d Hne Hd) in H.
    destruct (isdigit t); [discriminate|]. simpl in H.
    destruct (mapM Viewer.atoi rest) as [k|] eqn:Ek; [|discriminate].
    simpl in H. inversion H; subst. destruct (IH k eq_refl) as [Ha Hl].
    simpl. repeat split; auto.
    + now exists (lower t).
    + now exists (decimal_value d).
Qed.

Lemma alternates_from_nth b key :
  alternates_from b key <->
  (forall i e, nth_error key i = Some e ->
               if Bool.eqb (Nat.even i) b then is_str e else is_int e).
Proof.
  revert b. induction key as [|x key IH]; intros b; simpl.
  - split; [|auto]. intros _ [|i] e H; discriminate.
  - rewrite IH. split.
    + intros [Hx Hk] [|i] e H; simpl in H.
      * inversion H; subst. destruct b; exact Hx.
      * specialize (Hk i e H). rewrite Nat.even_succ, <- Nat.negb_even.
        destruct (Nat.even i), b; exact Hk.
    + intros H. split.
      * specialize (H 0%nat x eq_refl). destruct b; exact H.
      * intros i e Hi. specialize (H (S i) e Hi).
        rewrite Nat.even_succ, <- Nat.negb_even in H.
        destruct (Nat.even i), b; exact H.
Qed.

Lemma alternates_from_true key : alternates_from true key <-> alternates key.
Proof.
  rewrite alternates_from_nth. unfold alternates.
  split; intros H i e Hi; specialize (H i e Hi);
    destruct (Nat.even i); exact H.
Qed.

(** Two keys of the same kind are compared without a type error. *)
Lemma list_lt_defined k1 : forall b k2,
  alternates_from b k1 -> alternates_from b k2 ->
  exists r, list_lt k1 k2 = Ret r.
Proof.
  induction k1 as [|x k1 IH]; intros b [|y k2] H1 H2; simpl; eauto.
  destruct H1 as [Hx H1], H2 as [Hy H2].
  destruct (elem_eqb x y); [now apply (IH (negb b))|].
  destruct b; destruct Hx as [? ->], Hy as [? ->]; simpl; eauto.
Qed.

Lemma str_eqb_refl s : str_eqb s s = true.
Proof. unfold str_eqb. destruct (list_eq_dec ascii_dec s s); congruence. Qed.

Lemma elem_eqb_refl x : elem_eqb x x = true.
Proof. destruct x; simpl; [apply Z.eqb_refl|apply str_eqb_refl]. Qed.

Lemma list_lt_irrefl k : list_lt k k = Ret false.
Proof.
  induction k as [|x k IH]; simpl; [reflexivity|].
  now rewrite elem_eqb_refl.
Qed.

Lemma natural_keys_shape text key :
  Viewer.natural_keys text = Ret key ->
  alternates key /\ Nat.odd (length key) = true.
Proof.
  intros H. unfold Viewer.natural_keys in H.
  destruct (keys_of_shape _ (re_split_digits_shape text) key H) as [Ha Hl].
  split; [now apply alternates_from_true|].
  rewrite Hl. clear. induction (re_split_digits_shape text); [reflexivity|].
  simpl length. now rewrite Nat.odd_succ, Nat.even_succ.
Qed.

Example natural_keys_clip10 :
  Viewer.natural_keys (lit "Clip10.MP4") =
  Ret [EStr (lit "clip"); EInt 10; EStr (lit ".mp"); EInt 4; EStr []].
Proof. reflexivity. Qed.

(** A piece made of a superscript two passes [isdigit] and fails
    [int()]. *)
Example natural_keys_superscript :
  Viewer.natural_keys (lit "a1" ++ [ascii_of_N 178]) = Raise ValueError.
Proof. reflexivity. Qed.

Lemma natural_keys_raises text e :
  Viewer.natural_keys text = Raise e -> e = ValueError.
Proof.
  intros H. destruct (mapM_raises _ _ _ H) as (tok & _ & Ht).
  now apply (atoi_raises tok).
Qed.

(** ** Strings on which [natural_keys] returns *)

Lemma re_split_scan_Forall (P : ascii -> Prop) s : forall b cur,
  Forall P cur -> Forall P s -> Forall (Forall P) (re_split_scan b cur s).
Proof.
  induction s as [|c s IH]; intros b cur Hc Hs; simpl.
  - assert (Forall P (rev cur)) by now apply Forall_rev.
    destruct b; repeat constructor; auto.
  - inversion Hs; subst.
    assert (Forall P (rev cur)) by now apply Forall_rev.
    destruct (is_decimal c), b; try constructor; auto.
Qed.

Lemma isdigit_plain t :
  plain_digits t -> existsb is_decimal t = false -> isdigit t = false.
Proof.
  intros Hp Hn. destruct t as [|c t]; [reflexivity|].
  unfold isdigit. inversion Hp; subst. simpl in *.
  apply orb_false_iff in Hn as [Hc _]. now rewrite H1, Hc.
Qed.

Lemma keys_of_plain toks :
  split_shape toks -> Forall plain_digits toks ->
  exists key, mapM Viewer.atoi toks = Ret key.
Proof.
  induction 1 as [t Ht|t d rest Ht Hne Hd Hrest IH]; intros Hp; simpl.
  - inversion Hp; subst.
    rewrite (atoi_text t Ht), (isdigit_plain t) by assumption. simpl. eauto.
  - inversion Hp as [|? ? Hpt Hp']; subst. inversion Hp'; subst.
    rewrite (atoi_text t Ht), (isdigit_plain t), (atoi_digits d Hne Hd)
      by assumption.
    simpl. destruct IH as [k ->]; [assumption|]. simpl. eauto.
Qed.

Lemma natural_keys_plain text :
  plain_digits text -> exists key, Viewer.natural_keys text = Ret key.
Proof.
  intros H. apply keys_of_plain; [apply re_split_digits_shape|].
  apply re_split_scan_Forall; [constructor|exact H].
Qed.

(** ** Sorting by natural keys *)

Lemma insert_key_defined {A} (x : list elem * A) l :
  alternates_from true (fst x) ->
  Forall (fun y => alternates_from true (fst y)) l ->
  exists r, insert_key list_lt x l = Ret r /\
            Forall (fun y => alternates_from true (fst y)) r.
Proof.
  intros Hx. induction 1 as [|y l Hy Hl IH]; simpl.
  - eexists; split; [reflexivity|]. now constructor.
  - destruct (list_lt_defined (fst y) true (fst x) Hy Hx) as [[|] ->]; simpl.
    + destruct IH as (r & -> & Hr). simpl.
      eexists; split; [reflexivity|]. now constructor.
    + eexists; split; [reflexivity|]. repeat constructor; auto.
Qed.

Lemma sort_keyed_defined {A} (l : list (list elem * A)) :
  Forall (fun y => alternates_from true (fst y)) l ->
  exists r, sort_keyed list_lt l = Ret r /\
            Forall (fun y => alternates_from true (fst y)) r.
Proof.
  induction 1 as [|x l Hx Hl IH]; simpl.
  - eexists; split; [reflexivity|constructor].
  - destruct IH as (r & -> & Hr). simpl. now apply insert_key_defined.
Qed.

Lemma decorate_keys (l : list dirent) kl :
  mapM (fun a => bind (Viewer.natural_keys (d_name a)) (fun k => Ret (k, a))) l
    = Ret kl ->
  Forall (fun y => alternates_from true (fst y)) kl.
Proof.
  revert kl. induction l as [|a l IH]; intros kl H; simpl in H.
  - inversion H. constructor.
  - destruct (Viewer.natural_keys (d_name a)) as [k|] eqn:Ek; simpl in H;
      [|discriminate].
    destruct (mapM _ l) as [kl'|]; simpl in H; [|discriminate].
    inversion H; subst. constructor; [|now apply IH].
    simpl. apply alternates_from_true. now apply (natural_keys_shape (d_name a)).
Qed.

(** The sort of the folder scan raises nothing but the [ValueError] of a
    key that cannot be built. *)
Lemma sort_paths_raises paths e :
  Viewer.sort_paths paths = Raise e ->
  e = ValueError /\
  exists p, In p paths /\ Viewer.natural_keys (d_name p) = Raise ValueError.
Proof.
  unfold Viewer.sort_paths, sorted. intros H.
  destruct (mapM _ paths) as [kl|e'] eqn:Hd; simpl in H.
  - destruct (sort_keyed_defined kl (decorate_keys paths kl Hd)) as (r & Hr & _).
    rewrite Hr in H. discriminate.
  - inversion H; subst e'. destruct (mapM_raises _ _ _ Hd) as (p & Hp & Hk).
    destruct (Viewer.natural_keys (d_name p)) as [k|e'] eqn:Ek; simpl in Hk;
      [discriminate|].
    inversion Hk; subst e'. pose proof (natural_keys_raises _ _ Ek). subst e.
    eauto.
Qed.

Lemma sort_paths_defined paths :
  (forall p, In p paths -> exists k, Viewer.natural_keys (d_name p) = Ret k) ->
  exists r, Viewer.sort_paths paths = Ret r.
Proof.
  intros H. destruct (Viewer.sort_paths paths) as [r|e] eqn:E; [eauto|].
  destruct (sort_paths_raises _ _ E) as (_ & p & Hp & Hk).
  destruct (H p Hp) as [k Hk']. congruence.
Qed.

(** C9. A key built by [natural_keys] has strings at its even positions
    and integers at its odd positions; so two such keys are compared
    without ever setting an integer against a string, and the comparison
    of the sort is defined.  The key is built for every string free of
    the digit characters that [int()] rejects; building it is the one
    place where sorting can raise. *)
Theorem natural_keys_alternate :
  (forall text key, Viewer.natural_keys text = Ret key ->
                    alternates key /\ Nat.odd (length key) = true) /\
  (forall t1 t2 k1 k2,
     Viewer.natural_keys t1 = Ret k1 -> Viewer.natural_keys t2 = Ret k2 ->
     exists b, list_lt k1 k2 = Ret b) /\
  (forall text, plain_digits text ->
                exists key, Viewer.natural_keys text = Ret key) /\
  (forall text, Concat.natural_keys text = Viewer.natural_keys text) /\
  (forall paths e, Viewer.sort_paths paths = Raise e -> e <> TypeError) /\
  (forall paths,
     (forall p, In p paths -> exists k, Viewer.natural_keys (d_name p) = Ret k) ->
     exists r, Viewer.sort_paths paths = Ret r).
Proof.
  split; [|split; [|split; [|split; [|split]]]].
  - exact natural_keys_shape.
  - intros t1 t2 k1 k2 H1 H2. apply (list_lt_defined k1 true k2).
    + apply alternates_from_true. now apply (natural_keys_shape t1).
    + apply alternates_from_true. now apply (natural_keys_shape t2).
  - exact natural_keys_plain.
  - reflexivity.
  - intros paths e H. destruct (sort_paths_raises _ _ H) as [-> _]. discriminate.
  - exact sort_paths_defined.
Qed.

Lemma natural_keys_alternate_witness :
  Viewer.natural_keys (lit "clip10.mp4") =
    Ret [EStr (lit "clip"); EInt 10; EStr (lit ".mp"); EInt 4; EStr []] /\
  alternates [EStr (lit "clip"); EInt 10; EStr (lit ".mp"); EInt 4; EStr []] /\
  exists b, list_lt [EStr (lit "clip"); EInt 10; EStr (lit ".mp"); EInt 4; EStr []]
                    [EStr (lit "clip"); EInt 10; EStr (lit ".mp"); EInt 4; EStr []]
            = Ret b.
Proof.
  assert (H : Viewer.natural_keys (lit "clip10.mp4") =
              Ret [EStr (lit "clip"); EInt 10; EStr (lit ".mp"); EInt 4; EStr []])
    by reflexivity.
  destruct natural_keys_alternate as (Halt & Hcmp & _).
  exact (conj H (conj (proj1 (Halt _ _ H)) (Hcmp _ _ _ _ H H))).
Defined.

(** ** Digit runs are compared as numbers *)







End NaturalKeys.

Section Decimal.




(** ** Stripping *)

Lemma lstrip_by_spaces sp ws s :
  forallb sp ws = true -> lstrip_by sp (ws ++ s) = lstrip_by sp s.
Proof.
  induction ws as [|c ws IH]; simpl; [reflexivity|].
  intros H. apply andb_true_iff in H as [-> H]. now apply IH.
Qed.

Lemma strip_by_trimmed sp s ws :
  trimmed sp s -> forallb sp ws = true -> strip_by sp (s ++ ws) = s.
Proof.
  intros [(c & t & -> & Hc) (c' & t' & Hr & Hc')] Hws. unfold strip_by.
  change ((c :: t) ++ ws) with (c :: t ++ ws).
  rewrite (lstrip_by_head _ _ _ Hc).
  change (c :: t ++ ws) with ((c :: t) ++ ws).
  rewrite rev_app_distr, lstrip_by_spaces by now rewrite forallb_rev.
  rewrite Hr, (lstrip_by_head _ _ _ Hc'), <- Hr. apply rev_involutive.
Qed.

Lemma strip_by_trimmed_id sp s : trimmed sp s -> strip_by sp s = s.
Proof.
  intros H. rewrite <- (app_nil_r s) at 1. now apply strip_by_trimmed.
Qed.

Lemma is_decimal_not_isspace c : is_decimal c = true -> isspace_char c = false.
Proof.
  unfold is_decimal, isspace_char. intros H.
  apply andb_true_iff in H as [H1 H2].
  apply Z.leb_le in H1. apply Z.leb_le in H2.
  repeat (apply orb_false_iff; split);
    try (apply Z.eqb_neq; lia); apply andb_false_iff; right; apply Z.leb_gt; lia.
Qed.



End Decimal.

Section NaturalOrder.





End NaturalOrder.

Section ProgressParser.
Import Concat.

Variable float_of_str : str -> py pyfloat.
Variable log_callback : bool.

Lemma startswith_app p x : startswith (p ++ x) p = true.
Proof.
  induction p as [|c p IH]; simpl; [now destruct x|].
  now rewrite Ascii.eqb_refl, IH.
Qed.

Lemma split_once_first sep a x :
  existsb (fun c => Ascii.eqb c sep) a = false ->
  split_once sep (a ++ sep :: x) = [a; x].
Proof.
  induction a as [|c a IH]; simpl; intros H.
  - now rewrite Ascii.eqb_refl.
  - apply orb_false_iff in H as [Hc Ha]. rewrite Hc, (IH Ha). reflexivity.
Qed.

Lemma float_of_int_small n :
  Z.abs n < float_overflow -> float_of_int n = Ret (Fin (inject_Z n)).
Proof.
  intros H. unfold float_of_int.
  destruct (Z.leb_spec float_overflow (Z.abs n)); [lia|reflexivity].
Qed.





Lemma progress_loop_flat pc lines : forall calls,
  progress_loop float_of_str log_callback pc lines calls =
  calls ++ flat_map (on_line float_of_str log_callback pc) lines.
Proof.
  induction lines as [|raw lines IH]; intros calls; simpl.
  - now rewrite app_nil_r.
  - now rewrite IH, app_assoc.
Qed.








End ProgressParser.

(** An [out_time=] line, with a [float()] that knows one numeral. *)
Example out_time_clock :
  Concat.on_line
    (fun s => if str_eqb s (lit "01.500000") then Ret (Fin (3 # 2))
              else Raise ValueError)
    true true (lit "out_time=00:01:01.500000") =
  [Concat.ProgressCall (Fin (inject_Z 60 + (3 # 2)))].
Proof. reflexivity. Qed.

Example other_lines :
  Concat.on_line no_float true true (lit "progress=continue") = [] /\
  Concat.on_line no_float true true (lit "out_time=N/A") = [] /\
  Concat.on_line no_float true true (lit "frame=  12 ") =
    [Concat.LogCall (lit "frame=  12")].
Proof. repeat split. Qed.





(* ================================================================== *)
(** * More on the frame index mapper *)
(* ================================================================== *)

Section MapperExtras.
Import Viewer.

(** X1. On a table with no negative frame count, every frame of every clip
    is reached: the global index [start + l] of offset [l] in clip [i]
    is mapped back to [(i, l)]. *)
Theorem frame_of_clip_offset (self : player) (i : nat) (f : clip) (l : Z) :
  contiguous (files self) ->
  total_frames self = sum_frames (files self) ->
  Forall (fun c => 0 <= frames c) (files self) ->
  nth_error (files self) i = Some f ->
  0 <= l < frames f ->
  _global_to_file_local self (start_frame f + l) = Ret (i, l).
Proof.
  intros Hc Ht Hnn Hi Hl.
  assert (Hlen : (i < length (files self))%nat)
    by (apply nth_error_Some; congruence).
  pose proof (Hc i f Hi) as Hs.
  pose proof (sum_frames_firstn_succ _ _ _ Hi) as Hsucc.
  pose proof (sum_frames_firstn_mono _ Hnn 0%nat i (Nat.le_0_l _)) as H0.
  pose proof (sum_frames_firstn_mono _ Hnn (S i) (length (files self)) Hlen) as Hend.
  rewrite (sum_frames_firstn_all _ (length (files self))) in Hend by lia.
  simpl in H0.
  unfold _global_to_file_local. rewrite clamp_id by lia.
  rewrite (scan_files_first 0 (files self) (start_frame f + l) i f).
  - simpl. f_equal. f_equal. lia.
  - repeat split; auto; [lia|].
    intros j f' Hlt Hj.
    rewrite (Hc j f' Hj), <- (sum_frames_firstn_succ _ _ _ Hj).
    pose proof (sum_frames_firstn_mono _ Hnn (S j) i Hlt). lia.
Qed.

Lemma frame_of_clip_offset_witness :
  contiguous (files two_clips) /\
  total_frames two_clips = sum_frames (files two_clips) /\
  Forall (fun c => 0 <= frames c) (files two_clips) /\
  _global_to_file_local two_clips (3 + 1) = Ret (1%nat, 1).
Proof.
  assert (Ht : total_frames two_clips = sum_frames (files two_clips))
    by reflexivity.
  assert (Hnn : Forall (fun c => 0 <= frames c) (files two_clips))
    by (repeat constructor; discriminate).
  refine (conj two_clips_contiguous (conj Ht (conj Hnn _))).
  apply (frame_of_clip_offset two_clips 1 (mkClip [] (Fin 30) 2 0 0 3 (Fin (1 # 10))) 1
           two_clips_contiguous Ht Hnn eq_refl).
  simpl. lia.
Defined.

(** X2. The mapper keeps the order of frames: of two indices of the table,
    the later one is never mapped to an earlier clip, and two indices
    mapped to the same clip are as far apart in it as they are in the
    table. *)
Theorem global_to_file_local_monotone (self : player) (g g' : Z)
    (i i' : nat) (l l' : Z) :
  contiguous (files self) ->
  total_frames self = sum_frames (files self) ->
  0 <= g -> g <= g' -> g' < total_frames self ->
  _global_to_file_local self g = Ret (i, l) ->
  _global_to_file_local self g' = Ret (i', l') ->
  (i <= i')%nat /\ (i = i' -> l' - l = g' - g).
Proof.
  intros Hc Ht H0 Hgg Hg' Hr Hr'.
  unfold _global_to_file_local in Hr, Hr'.
  rewrite clamp_id in Hr by lia. rewrite clamp_id in Hr' by lia.
  assert (Hown : forall x r, 0 <= x < total_frames self ->
            match scan_files 0 (files self) x with
            | Some r => Ret r
            | None => fallback_last (files self)
            end = Ret r ->
            exists f, first_owner (files self) x (fst r) f /\
                      snd r = x - start_frame f).
  { intros x r Hx H.
    destruct (scan_files_contiguous 0 0 (files self) x
                (contiguous_contiguous_from _ Hc) ltac:(lia)) as (j & f & Hs & _).
    rewrite Hs in H. inversion H; subst r; clear H.
    destruct (scan_files_inv _ _ _ _ Hs) as (k & fk & Hk & Hfo).
    inversion Hk as [[Hjk Hst]]. simpl.
    replace j with k by lia. exists fk. split; [exact Hfo|lia]. }
  destruct (Hown g (i, l) ltac:(lia) Hr) as (f & (Hn & Hlt & Hb) & Hl).
  destruct (Hown g' (i', l') ltac:(lia) Hr') as (f' & (Hn' & Hlt' & Hb') & Hl').
  simpl in *. split.
  - destruct (Nat.le_gt_cases i i') as [|Hgt]; [assumption|].
    specialize (Hb i' f' Hgt Hn'). lia.
  - intros ->. rewrite Hn in Hn'. inversion Hn'; subst. lia.
Qed.

Lemma global_to_file_local_monotone_witness :
  contiguous (files two_clips) /\
  total_frames two_clips = sum_frames (files two_clips) /\
  0 <= 1 /\ 1 <= 4 /\ 4 < total_frames two_clips /\
  _global_to_file_local two_clips 1 = Ret (0%nat, 1) /\
  _global_to_file_local two_clips 4 = Ret (1%nat, 1) /\
  (0 <= 1)%nat.
Proof.
  assert (Ht : total_frames two_clips = sum_frames (files two_clips))
    by reflexivity.
  assert (H0 : 0 <= 1) by discriminate.
  assert (H1 : 1 <= 4) by discriminate.
  assert (H2 : 4 < total_frames two_clips) by reflexivity.
  assert (Hr : _global_to_file_local two_clips 1 = Ret (0%nat, 1)) by reflexivity.
  assert (Hr' : _global_to_file_local two_clips 4 = Ret (1%nat, 1)) by reflexivity.
  exact (conj two_clips_contiguous (conj Ht (conj H0 (conj H1 (conj H2
           (conj Hr (conj Hr'
             (proj1 (global_to_file_local_monotone two_clips 1 4 0 1 1 1
                       two_clips_contiguous Ht H0 H1 H2 Hr Hr'))))))))).
Defined.

(** X3. Without a table the mapper raises [IndexError] on every input; with
    one, whatever its content and the total, it returns a position of
    the table. *)
Theorem global_to_file_local_raises (self : player) (g : Z) :
  (files self = [] -> _global_to_file_local self g = Raise IndexError) /\
  (files self <> [] ->
   exists i l, _global_to_file_local self g = Ret (i, l) /\
               (i < length (files self))%nat).
Proof.
  split.
  - intros H. unfold _global_to_file_local. now rewrite H.
  - intros H. destruct (global_to_file_local_total self g H) as ([i l] & Hr & Hlt).
    exists i, l. auto.
Qed.

Lemma global_to_file_local_raises_witness :
  files player0 = [] /\ _global_to_file_local player0 7 = Raise IndexError.
Proof.
  exact (conj eq_refl (proj1 (global_to_file_local_raises player0 7) eq_refl)).
Defined.

End MapperExtras.

(* ================================================================== *)
(** * More on loading a folder *)
(* ================================================================== *)

Section LoadExtras.
Import Viewer.

Variable folder : str.
Variable video : str -> option cv_props.

Lemma index_step_paths acc p acc' :
  index_step folder video acc p = Ret acc' ->
  map path (a_files acc') =
  map path (a_files acc) ++ (if opens folder video p then [path_str folder p] else []).
Proof.
  unfold index_step, opens. intros H.
  destruct (video (path_str folder p)) as [c|].
  - destruct (int_or_0 (cv_frame_count c)) as [n|]; simpl in H; [|discriminate].
    destruct (int_or_0 (cv_frame_width c)) as [w|]; simpl in H; [|discriminate].
    destruct (int_or_0 (cv_frame_height c)) as [h|]; simpl in H; [|discriminate].
    match type of H with bind ?d _ = _ => destruct d as [dur|] end;
      simpl in H; [|discriminate].
    inversion H; subst acc'. simpl. now rewrite map_app.
  - inversion H; subst. now rewrite app_nil_r.
Qed.

Lemma index_loop_paths paths : forall acc acc',
  index_loop folder video acc paths = Ret acc' ->
  map path (a_files acc') =
  map path (a_files acc) ++ map (path_str folder) (filter (opens folder video) paths).
Proof.
  induction paths as [|p paths IH]; intros acc acc' H; simpl in H.
  - inversion H; subst. simpl. now rewrite app_nil_r.
  - destruct (index_step folder video acc p) as [acc1|] eqn:Hstep;
      simpl in H; [|discriminate].
    rewrite (IH _ _ H), (index_step_paths _ _ _ Hstep), <- app_assoc.
    simpl. now destruct (opens folder video p).
Qed.

(** X4. After a load that replaces the table, the table lists the .mp4
    entries of the folder that open, in their natural order: a clip that
    does not open is left out and the others keep their places. *)
Theorem load_folder_table_paths (self : player) (entries : list dirent) :
  let o := _load_folder folder video self entries in
  loaded o ->
  exists paths,
    sort_paths (filter is_mp4 entries) = Ret paths /\
    map path (files (o_self o)) = map (path_str folder) (filter (opens folder video) paths).
Proof.
  intros o Hl. pose proof (load_folder_cases folder video self entries) as H.
  fold o in H. destruct Hl as [Hres Hdlg].
  destruct H as [(Hd & _)|(_ & [(e & He & _)|(paths & acc & Hs & Hloop & H)])];
    [congruence|congruence|].
  destruct H as [(_ & Hd & _)|(_ & _ & Hf & _)]; [congruence|].
  exists paths. split; [exact Hs|].
  rewrite Hf, (index_loop_paths _ _ _ Hloop). reflexivity.
Qed.










End LoadExtras.

(* ================================================================== *)
(** * Seeking, stepping and the timer *)
(* ================================================================== *)

Section Playback.
Import Viewer Player.

Lemma open_file_settled c idx f :
  nth_error (files c) idx = Some f ->
  open_on c \/ Z.of_nat idx <> cur_file_idx c ->
  _open_capture_for_file c idx = Ret (settled c (cur_global_frame c) idx f).
Proof.
  intros Hn Hpre. unfold _open_capture_for_file.
  destruct (Z.eqb_spec (Z.of_nat idx) (cur_file_idx c)) as [Heq|Hne].
  - destruct Hpre as [(i & f' & Hi & Hn' & Hcap)|Hne]; [|congruence].
    assert (i = idx) by lia. subst i. rewrite Hn in Hn'. inversion Hn'; subst f'.
    f_equal. destruct c; unfold settled; simpl in *. now subst.
  - unfold index. rewrite Hn. reflexivity.
Qed.

Lemma settled_open_on c g i f :
  nth_error (files c) i = Some f -> open_on (settled c g i f).
Proof. intros H. exists i, f. auto. Qed.

Lemma global_to_file_local_settled c g i f x :
  _global_to_file_local (settled c g i f) x = _global_to_file_local c x.
Proof. reflexivity. Qed.

Lemma status_text_ext c c' :
  files c' = files c -> total_frames c' = total_frames c ->
  total_seconds c' = total_seconds c ->
  cur_global_frame c' = cur_global_frame c ->
  _status_text c' = _status_text c.
Proof. destruct c, c'; simpl; intros; subst; reflexivity. Qed.

Lemma status_ok_ext c c' :
  files c' = files c -> total_frames c' = total_frames c ->
  total_seconds c' = total_seconds c ->
  status_ok c -> status_ok c'.
Proof.
  intros Hf Ht Hs H g. rewrite <- (H g).
  apply status_text_ext; simpl; auto.
Qed.

(** Building the status text converts the offset of the playhead in its
    clip to a float, as positioning the capture does. *)
Lemma status_text_local c i l :
  files c <> [] ->
  _global_to_file_local c (cur_global_frame c) = Ret (i, l) ->
  _status_text c = Done tt ->
  exists x, float_of_int l = Ret x.
Proof.
  intros Hne Hr. unfold _status_text.
  destruct (files c) as [|f0 fs] eqn:Hf; [congruence|]. rewrite <- Hf.
  rewrite Hr. cbn [lift rbind fst snd].
  destruct (index (files c) i) as [f|e]; cbn [lift rbind]; [|discriminate].
  destruct (float_of_int l) as [x|e]; [eauto|]. cbn [bind lift]. discriminate.
Qed.

Lemma set_position_done c l x p :
  cap c = Some p -> float_of_int l = Ret x -> set_position c l = Done tt.
Proof. intros Hc Hx. unfold set_position, cap_call. now rewrite Hc, Hx. Qed.

Lemma open_capture_for_global_frame_settled c g i l f x :
  _global_to_file_local c g = Ret (i, l) ->
  nth_error (files c) i = Some f ->
  open_on c \/ Z.of_nat i <> cur_file_idx c ->
  float_of_int l = Ret x ->
  open_capture_for_global_frame c g = Done (settled c (cur_global_frame c) i f).
Proof.
  intros Hr Hn Hpre Hx. unfold open_capture_for_global_frame.
  rewrite Hr. cbn [lift rbind fst snd].
  rewrite (open_file_settled c i f Hn Hpre). cbn [lift rbind].
  now rewrite (set_position_done (settled c (cur_global_frame c) i f) l x
                 (path f) eq_refl Hx).
Qed.

Lemma display_current_frame_settled c i l f x :
  _global_to_file_local c (cur_global_frame c) = Ret (i, l) ->
  nth_error (files c) i = Some f ->
  open_on c \/ Z.of_nat i <> cur_file_idx c ->
  float_of_int l = Ret x ->
  display_current_frame c = Done (settled c (cur_global_frame c) i f).
Proof.
  intros Hr Hn Hpre Hx. unfold display_current_frame.
  rewrite Hr. cbn [lift rbind fst snd].
  rewrite (open_file_settled c i f Hn Hpre). cbn [lift rbind].
  now rewrite (set_position_done (settled c (cur_global_frame c) i f) l x
                 (path f) eq_refl Hx).
Qed.

(** What [seek_to] does on a player that holds a table. *)
Lemma seek_to_opens c g i l f :
  files c <> [] ->
  open_on c \/ Z.of_nat i <> cur_file_idx c ->
  _global_to_file_local c (clamp g 0 (total_frames c - 1)) = Ret (i, l) ->
  nth_error (files c) i = Some f ->
  _status_text (with_frame c (clamp g 0 (total_frames c - 1))) = Done tt ->
  seek_to c g = Done (settled c (clamp g 0 (total_frames c - 1)) i f).
Proof.
  intros Hne Hpre Hr Hn Hst.
  set (g' := clamp g 0 (total_frames c - 1)) in *.
  destruct (status_text_local (with_frame c g') i l Hne Hr Hst) as [x Hx].
  unfold seek_to.
  destruct (files c) as [|f0 fs] eqn:Hf; [congruence|]. rewrite <- Hf in *.
  fold g'. set (c1 := with_frame c g').
  rewrite (open_capture_for_global_frame_settled c1 (cur_global_frame c1) i l f x).
  - cbv beta iota delta [rbind].
    rewrite (display_current_frame_settled (settled c1 (cur_global_frame c1) i f)
               i l f x).
    + cbv beta iota delta [rbind].
      rewrite (status_text_ext (with_frame c g')) by reflexivity.
      rewrite Hst. reflexivity.
    + exact Hr.
    + exact Hn.
    + left. now apply settled_open_on.
    + exact Hx.
  - exact Hr.
  - exact Hn.
  - destruct Hpre as [(j & fj & Hj & Hnj & Hc)|Hd].
    + left. exists j, fj. auto.
    + right. exact Hd.
  - exact Hx.
Qed.

Lemma seek_to_settled c g i l f :
  files c <> [] ->
  open_on c \/ cur_file_idx c < 0 ->
  _global_to_file_local c (clamp g 0 (total_frames c - 1)) = Ret (i, l) ->
  nth_error (files c) i = Some f ->
  _status_text (with_frame c (clamp g 0 (total_frames c - 1))) = Done tt ->
  seek_to c g = Done (settled c (clamp g 0 (total_frames c - 1)) i f).
Proof.
  intros Hne Hpre. apply seek_to_opens; [exact Hne|].
  destruct Hpre as [H|H]; [now left|right; lia].
Qed.

Lemma clamp_twice g lo hi : clamp (clamp g lo hi) lo hi = clamp g lo hi.
Proof. unfold clamp. lia. Qed.

Lemma seek_to_open c g :
  files c <> [] -> open_on c \/ cur_file_idx c < 0 ->
  _status_text (with_frame c (clamp g 0 (total_frames c - 1))) = Done tt ->
  exists c',
    seek_to c g = Done c' /\
    files c' = files c /\ total_frames c' = total_frames c /\
    total_seconds c' = total_seconds c /\
    cur_global_frame c' = clamp g 0 (total_frames c - 1) /\
    open_on c' /\ playhead_owned c' /\
    seek_to c' (cur_global_frame c') = Done c'.
Proof.
  intros Hne Hpre Hst.
  set (g' := clamp g 0 (total_frames c - 1)) in *.
  destruct (global_to_file_local_total c g' Hne) as ([i l] & Hr & Hlt).
  destruct (nth_error (files c) i) as [f|] eqn:Hn;
    [|apply nth_error_None in Hn; simpl in Hlt; lia].
  exists (settled c g' i f).
  rewrite (seek_to_settled c g i l f Hne Hpre Hr Hn Hst). fold g'.
  split; [reflexivity|]. split; [reflexivity|]. split; [reflexivity|].
  split; [reflexivity|]. split; [reflexivity|].
  split; [now apply settled_open_on|].
  split; [exists i, l; split; [exact Hr|reflexivity]|].
  change (cur_global_frame (settled c g' i f)) with g'.
  assert (Hg : clamp g' 0 (total_frames (settled c g' i f) - 1) = g')
    by (simpl; unfold g'; apply clamp_twice).
  rewrite (seek_to_settled (settled c g' i f) g' i l f).
  - now rewrite Hg.
  - exact Hne.
  - left. now apply settled_open_on.
  - rewrite Hg. exact Hr.
  - exact Hn.
  - rewrite Hg. rewrite <- Hst. apply status_text_ext; reflexivity.
Qed.

(** X8. [seek_to] on a player with a table, when the status text of the
    clamped index can be built, puts the playhead at that index and
    leaves the capture of the clip that owns it open; seeking again to
    where the playhead is changes nothing; without a table it does
    nothing. *)
Theorem seek_to_settles (c : player) (g : Z) :
  (files c = [] -> seek_to c g = Done c) /\
  (files c <> [] -> open_on c \/ cur_file_idx c < 0 ->
   _status_text (with_frame c (clamp g 0 (total_frames c - 1))) = Done tt ->
   exists c',
     seek_to c g = Done c' /\
     files c' = files c /\ total_frames c' = total_frames c /\
     total_seconds c' = total_seconds c /\
     cur_global_frame c' = clamp g 0 (total_frames c - 1) /\
     open_on c' /\ playhead_owned c' /\
     seek_to c' (cur_global_frame c') = Done c').
Proof.
  split.
  - intros H. unfold seek_to. now rewrite H.
  - apply seek_to_open.
Qed.

(** The status text of [two_clips] can be built on every frame. *)
Lemma two_clips_status_ok : status_ok two_clips.
Proof.
  intros g. unfold _status_text, _global_to_file_local.
  cbn [with_frame files total_frames cur_global_frame two_clips].
  set (k := clamp g 0 (Z.max 0 (5 - 1))).
  assert (Hk : k = 0 \/ k = 1 \/ k = 2 \/ k = 3 \/ k = 4)
    by (unfold k, clamp; lia).
  clearbody k.
  repeat (destruct Hk as [->|Hk]; [vm_compute; reflexivity|]).
  subst k. vm_compute. reflexivity.
Qed.

Lemma seek_to_settles_witness :
  files two_clips <> [] /\ (open_on two_clips \/ cur_file_idx two_clips < 0) /\
  _status_text (with_frame two_clips (clamp 99 0 (total_frames two_clips - 1)))
    = Done tt /\
  exists c', seek_to two_clips 99 = Done c' /\ cur_global_frame c' = 4 /\
             cur_file_idx c' = 1.
Proof.
  assert (Hne : files two_clips <> []) by discriminate.
  assert (Hpre : open_on two_clips \/ cur_file_idx two_clips < 0)
    by (right; reflexivity).
  assert (Hst : _status_text
                  (with_frame two_clips (clamp 99 0 (total_frames two_clips - 1)))
                = Done tt) by (vm_compute; reflexivity).
  destruct (proj2 (seek_to_settles two_clips 99) Hne Hpre Hst)
    as (c' & Hs & _ & _ & _ & Hg & _).
  refine (conj Hne (conj Hpre (conj Hst (ex_intro _ c' (conj Hs (conj Hg _)))))).
  vm_compute in Hs. inversion Hs. reflexivity.
Defined.








(** ** The delay of the timer *)

Lemma round_half_even_between q a b :
  (inject_Z a <= q)%Q -> (q <= inject_Z b)%Q ->
  a <= round_half_even q <= b.
Proof.
  intros Ha Hb.
  assert (Hfa : a <= Qfloor q)
    by (rewrite <- (Qfloor_Z a); now apply Qfloor_resp_le).
  assert (Hfb : Qfloor q <= b)
    by (rewrite <- (Qfloor_Z b); now apply Qfloor_resp_le).
  pose proof (Qfloor_le q) as Hle.
  unfold round_half_even.
  destruct (Qlt_bool (q - inject_Z (Qfloor q)) (1 # 2)) eqn:E1; [lia|].
  apply Qlt_bool_false in E1.
  assert (Hlt : Qfloor q < b).
  { destruct (Z.eq_dec (Qfloor q) b) as [Heq|]; [|lia].
    rewrite Heq in E1. exfalso. lra. }
  destruct (Qlt_bool (1 # 2) (q - inject_Z (Qfloor q))); [lia|].
  destruct (Z.even (Qfloor q)); lia.
Qed.

Lemma float_overflow_thousand : (1000 < inject_Z float_overflow)%Q.
Proof.
  change 1000%Q with (inject_Z 1000). rewrite <- Zlt_Qlt. now vm_compute.
Qed.

(** The delay computed from any rate and any speed. *)
Lemma delay_between fps speed :
  let eff := fmax2 (Fin 1) (fmul fps (fmax2 (Fin (1 # 100)) speed)) in
  exists q r, fdiv (Fin 1000) eff = Ret q /\ round_float q = Ret r /\
              0 <= r <= 1000.
Proof.
  intros eff. subst eff.
  set (x := fmul fps (fmax2 (Fin (1 # 100)) speed)). clearbody x.
  unfold fmax2. destruct (flt (Fin 1) x) eqn:E.
  - destruct x as [y| | |]; simpl in E; try discriminate.
    + apply Qlt_bool_iff in E.
      assert (Hz : is_zero y = false).
      { unfold is_zero. apply Z.eqb_neq. intros Hn.
        assert (y == 0)%Q by (destruct y; unfold Qeq; simpl in *; lia). lra. }
      assert (Hq : (0 <= 1000 / y)%Q /\ (1000 / y <= 1000)%Q).
      { assert (0 < / y)%Q by (apply Qinv_lt_0_compat; lra).
        assert (/ y <= 1)%Q.
        { apply Qle_shift_inv_r; lra. }
        unfold Qdiv. set (z := (/ y)%Q) in *. split; lra. }
      destruct Hq as [Hq0 Hq1].
      unfold fdiv. rewrite Hz. rewrite fnorm_finite.
      * eexists _, _. split; [reflexivity|]. split; [reflexivity|].
        apply round_half_even_between; assumption.
      * pose proof float_overflow_thousand.
        set (w := (1000 / y)%Q) in *. split; lra.
    + exists (Fin 0), 0. repeat split; discriminate.
  - exists (Fin (1000 / 1)), 1000. repeat split; discriminate.
Qed.

Lemma next_delay_between self :
  open_on (core self) ->
  exists d, next_delay self = Done d /\ 1 <= d <= 1000.
Proof.
  intros (i & f & Hi & Hn & _). unfold next_delay.
  assert (Hf : match files (core self) with
               | [] => Done (Fin 30)
               | _ :: _ =>
                   rbind (lift (index_z (files (core self))
                                  (cur_file_idx (core self))))
                         (fun f => Done (fps f))
               end = Done (fps f)).
  { destruct (files (core self)) as [|f0 fs] eqn:Hfs;
      [destruct i; discriminate|].
    unfold index_z. rewrite Hi.
    destruct (Z.ltb_spec (Z.of_nat i) 0); [lia|].
    destruct (Z.ltb_spec (Z.of_nat i) 0); [lia|].
    rewrite Nat2Z.id. unfold index. rewrite Hn. reflexivity. }
  rewrite Hf. cbn [rbind].
  destruct (delay_between (fps f) (play_speed self)) as (q & r & Hq & Hrr & Hr).
  cbv zeta in Hq. rewrite Hq. cbn [lift rbind]. rewrite Hrr. cbn [lift rbind].
  eexists; split; [reflexivity|]. lia.
Qed.

Lemma open_on_with_frame c g : open_on c -> open_on (with_frame c g).
Proof. intros (i & f & H). exists i, f. exact H. Qed.

Lemma open_on_after_read c ok : open_on c -> open_on (after_read c ok).
Proof.
  intros H. unfold after_read. destruct ok; [now apply open_on_with_frame|exact H].
Qed.

(** X12. One tick of the timer on a player that holds a table of at least
    one frame, with the capture of clip [cur_file_idx] open, a status
    text that can be built and a position answered by the capture that
    is a number: the tick raises nothing, asks for a next tick in 1 to
    1000 milliseconds, keeps the table, leaves the capture of clip
    [cur_file_idx] open, and leaves the playhead where it was, on a frame
    of the table, or on the first frame of a clip. *)
Theorem timer_tick_safe (self : playback) (io : tick_io) :
  files (core self) <> [] ->
  1 <= total_frames (core self) ->
  open_on (core self) ->
  status_ok (core self) ->
  (exists n, int_or_0 (cap_pos io) = Ret n) ->
  exists self' d,
    _timer_tick self io = Done (self', d) /\
    1 <= d <= 1000 /\
    files (core self') = files (core self) /\
    total_frames (core self') = total_frames (core self) /\
    open_on (core self') /\
    (cur_global_frame (core self') = cur_global_frame (core self) \/
     timer_frame (core self) (cur_global_frame (core self'))).
Proof.
  intros Hne Htot Hopen Hok [n Hpos]. unfold _timer_tick.
  destruct (files (core self)) as [|f0 fs] eqn:Hfs; [congruence|].
  rewrite <- Hfs in *.
  destruct (playing self) eqn:Hplay.
  2:{ exists self, 33. repeat split; auto; lia. }
  set (c := core self) in *.
  destruct (global_to_file_local_total c (cur_global_frame c) Hne)
    as ([i l] & Hr & Hlt).
  destruct (nth_error (files c) i) as [f|] eqn:Hn;
    [|apply nth_error_None in Hn; simpl in Hlt; lia].
  rewrite Hr. cbn [lift]. cbv beta iota delta [rbind]. cbn [fst snd].
  rewrite (open_file_settled c i f Hn (or_introl Hopen)). cbn [lift cap_call settled cap].
  rewrite Hpos. cbn [lift].
  set (c1 := settled c (cur_global_frame c) i f).
  assert (Ho1 : open_on c1) by now apply settled_open_on.
  assert (Hdrift : (if 1 <? Z.abs (n - l) then set_position c1 l else Done tt)
                   = Done tt).
  { destruct (1 <? Z.abs (n - l)); [|reflexivity].
    destruct (status_text_local (with_frame c (cur_global_frame c)) i l Hne Hr
                (Hok _)) as [x Hx].
    exact (set_position_done c1 l x (path f) eq_refl Hx). }
  rewrite Hdrift.
  assert (Hfinish : forall c' (ok : bool),
            open_on c' -> files c' = files c -> total_frames c' = total_frames c ->
            total_seconds c' = total_seconds c ->
            cur_global_frame c' = cur_global_frame c \/
            timer_frame c (cur_global_frame c') ->
            exists self' d,
              rbind (if ok return run unit
                     then _status_text (core (with_core self (after_read c' ok)))
                     else Done tt)
                (fun _ =>
                 rbind (next_delay (with_core self (after_read c' ok)))
                   (fun d => Done (with_core self (after_read c' ok), d)))
              = Done (self', d) /\
              1 <= d <= 1000 /\
              files (core self') = files c /\
              total_frames (core self') = total_frames c /\
              open_on (core self') /\
              (cur_global_frame (core self') = cur_global_frame c \/
               timer_frame c (cur_global_frame (core self')))).
  { intros c' ok Ho Hf Ht Hsec Hg.
    assert (Hst : (if ok return run unit
                   then _status_text (core (with_core self (after_read c' ok)))
                   else Done tt) = Done tt).
    { destruct ok; [|reflexivity]. cbn [core with_core after_read].
      apply (status_ok_ext c c' Hf Ht Hsec Hok). }
    rewrite Hst. cbv beta iota delta [rbind].
    destruct (next_delay_between (with_core self (after_read c' ok)))
      as (d & Hd & Hb); [now apply open_on_after_read|].
    rewrite Hd. exists (with_core self (after_read c' ok)), d.
    split; [reflexivity|]. split; [exact Hb|]. cbn [core with_core].
    unfold after_read. destruct ok; cbn [with_frame files total_frames cur_global_frame].
    - split; [exact Hf|]. split; [exact Ht|].
      split; [now apply open_on_with_frame|].
      right. left. rewrite Ht. unfold clamp. lia.
    - split; [exact Hf|]. split; [exact Ht|]. split; [exact Ho|exact Hg]. }
  cbv beta iota delta [rbind].
  destruct (read1 io).
  - apply (Hfinish c1 true); auto.
  - destruct (Nat.ltb_spec (i + 1) (length (files c1))) as [Hnext|Hlast].
    + destruct (nth_error (files c) (i + 1)) as [f2|] eqn:Hn2;
        [|apply nth_error_None in Hn2; simpl in Hnext; lia].
      rewrite (open_file_settled c1 (i + 1) f2 Hn2)
        by (right; simpl; lia).
      cbn [lift]. unfold index, c1. cbn [settled files]. rewrite Hn2.
      cbn [lift cap_call with_frame cap].
      apply (Hfinish (with_frame (settled c1 (cur_global_frame c1) (i + 1) f2)
                        (start_frame f2)) (read2 io)); auto.
      * exists (i + 1)%nat, f2. auto.
      * right. right. exists f2. split; [|reflexivity].
        now apply (nth_error_In _ (i + 1)).
    + destruct (loop_var self).
      * assert (Hok1 : status_ok c1)
          by (apply (status_ok_ext c c1); auto; reflexivity).
        destruct (seek_to_open c1 0 Hne (or_introl Ho1) (Hok1 _))
          as (c2 & -> & Hf2 & Ht2 & Hs2 & Hg2 & Ho2 & _).
        destruct Ho2 as (j & fj & Hj & Hnj & Hcj).
        unfold cap_call. rewrite Hcj.
        apply (Hfinish c2 (read2 io)); auto.
        -- exists j, fj. auto.
        -- right. left. rewrite Hg2. simpl. unfold clamp. lia.
      * eexists _, 33. split; [reflexivity|]. cbn [core].
        repeat split; auto; lia.
Qed.

Lemma timer_tick_safe_witness :
  let self := mkPlayback (settled two_clips 2 0 (mkClip [] (Fin 30) 3 0 0 0 (Fin 0)))
                true false true (Fin 2) in
  let io := mkTickIo (Fin 2) false true in
  files (core self) <> [] /\ 1 <= total_frames (core self) /\
  open_on (core self) /\ status_ok (core self) /\
  (exists n, int_or_0 (cap_pos io) = Ret n) /\
  exists self' d, _timer_tick self io = Done (self', d) /\ 1 <= d <= 1000 /\
                  cur_global_frame (core self') = 4.
Proof.
  intros self io.
  assert (Hne : files (core self) <> []) by discriminate.
  assert (Htot : 1 <= total_frames (core self)) by discriminate.
  assert (Hopen : open_on (core self))
    by (exists 0%nat, (mkClip [] (Fin 30) 3 0 0 0 (Fin 0)); auto).
  assert (Hok : status_ok (core self))
    by (apply (status_ok_ext two_clips); [reflexivity..|exact two_clips_status_ok]).
  assert (Hpos : exists n, int_or_0 (cap_pos io) = Ret n)
    by (exists 2; reflexivity).
  destruct (timer_tick_safe self io Hne Htot Hopen Hok Hpos)
    as (self' & d & Ht & Hd & _).
  refine (conj Hne (conj Htot (conj Hopen (conj Hok (conj Hpos
            (ex_intro _ self' (ex_intro _ d (conj Ht (conj Hd _))))))))).
  vm_compute in Ht. inversion Ht. reflexivity.
Defined.

(** ** Playback speed *)

Lemma speed_bounds :
  list_min speed_choices = Ret (Fin (1 # 4)) /\
  list_max speed_choices = Ret (Fin 4).
Proof. split; reflexivity. Qed.

(** X13. [_set_speed] stores a speed between the least and the greatest
    choice, whatever it is given (for NaN, the greatest), and stores the
    speed it is given when that lies between them. *)
Theorem set_speed_in_range (self : playback) (speed : pyfloat) :
  _status_text (core self) = Done tt ->
  exists self',
    _set_speed self speed = Done self' /\
    core self' = core self /\ playing self' = playing self /\
    fle (Fin (1 # 4)) (play_speed self') = true /\
    fle (play_speed self') (Fin 4) = true /\
    (fle (Fin (1 # 4)) speed = true -> fle speed (Fin 4) = true ->
     same_float (play_speed self') speed) /\
    (speed = NaN -> play_speed self' = Fin 4).
Proof.
  intros Hst. unfold _set_speed. destruct speed_bounds as [-> ->].
  cbn [lift rbind]. cbv zeta. cbn [core]. rewrite Hst. cbn [rbind].
  eexists. split; [reflexivity|]. cbn [core playing play_speed].
  split; [reflexivity|]. split; [reflexivity|].
  unfold clamp_float, fmin2, fmax2.
  destruct speed as [q| | |]; cbn [flt fle];
    try (repeat split; try reflexivity; intros; discriminate).
  destruct (Qlt_bool q 4) eqn:E4; cbn [flt].
  - apply Qlt_bool_iff in E4.
    destruct (Qlt_bool (1 # 4) q) eqn:E1; cbn [fle same_float].
    + apply Qlt_bool_iff in E1.
      repeat split; try discriminate; try reflexivity;
        apply Qle_bool_iff; lra.
    + apply Qlt_bool_false in E1.
      repeat split; try discriminate; try reflexivity.
      intros H1 _. apply Qle_bool_iff in H1. lra.
  - apply Qlt_bool_false in E4. cbn [Qlt_bool fle same_float].
    change (Qlt_bool (1 # 4) 4) with true. cbn [fle same_float].
    repeat split; try discriminate; try reflexivity.
    intros _ H4. apply Qle_bool_iff in H4. lra.
Qed.

Lemma set_speed_in_range_witness :
  _status_text (core (mkPlayback two_clips false false true (Fin 1))) = Done tt /\
  exists self',
    _set_speed (mkPlayback two_clips false false true (Fin 1)) (Fin 9) = Done self' /\
    fle (play_speed self') (Fin 4) = true.
Proof.
  assert (Hst : _status_text (core (mkPlayback two_clips false false true (Fin 1)))
                = Done tt) by (vm_compute; reflexivity).
  destruct (set_speed_in_range (mkPlayback two_clips false false true (Fin 1))
              (Fin 9) Hst) as (self' & Hs & _ & _ & _ & Hle & _).
  exact (conj Hst (ex_intro _ self' (conj Hs Hle))).
Defined.

(** The position of the choice nearest to a choice is its own. *)
Lemma nearest_choice i s :
  nth_error speed_choices i = Some s ->
  argmin (map (fun c => fabs (fsub c s)) speed_choices) = Ret i.
Proof.
  intros H.
  do 9 (destruct i as [|i]; [inversion H; subst s; reflexivity|]).
  destruct i; discriminate.
Qed.

Lemma argmin_from_bound keys : forall best bk i,
  (best < i)%nat -> (argmin_from best bk i keys < i + length keys)%nat.
Proof.
  induction keys as [|k keys IH]; intros best bk i H; simpl; [lia|].
  destruct (flt k bk).
  - specialize (IH i k (S i) ltac:(lia)). lia.
  - specialize (IH best bk (S i) ltac:(lia)). lia.
Qed.

Lemma argmin_bound keys i :
  argmin keys = Ret i -> (i < length keys)%nat.
Proof.
  destruct keys as [|k keys]; simpl; [discriminate|].
  intros H. inversion H; subst.
  pose proof (argmin_from_bound keys 0%nat k 1%nat ltac:(lia)). lia.
Qed.

Lemma choice_at k :
  0 <= k <= 8 ->
  exists s, index_z speed_choices k = Ret s /\
            nth_error speed_choices (Z.to_nat k) = Some s.
Proof.
  intros H.
  assert (Hk : k = 0 \/ k = 1 \/ k = 2 \/ k = 3 \/ k = 4 \/
               k = 5 \/ k = 6 \/ k = 7 \/ k = 8) by lia.
  repeat (destruct Hk as [->|Hk]; [eexists; split; reflexivity|]).
  subst. eexists; split; reflexivity.
Qed.

Lemma set_speed_choice self s :
  In s speed_choices ->
  _status_text (core self) = Done tt ->
  _set_speed self s =
  Done {| core := core self; playing := playing self; seeking := seeking self;
          loop_var := loop_var self; play_speed := s |}.
Proof.
  intros H Hst. unfold _set_speed. destruct speed_bounds as [-> ->].
  cbn [lift rbind]. cbv zeta. cbn [core]. rewrite Hst. cbn [rbind].
  simpl in H.
  repeat (destruct H as [<-|H]; [reflexivity|]). contradiction.
Qed.

(** X14. [_nudge_speed] moves from the choice in use to the choice [step]
    places further, stopping at the first and at the last one; from any
    speed it ends on one of the choices. *)
Theorem nudge_speed_moves (self : playback) (step : Z) :
  _status_text (core self) = Done tt ->
  (exists s, In s speed_choices /\
             _nudge_speed self step =
             Done {| core := core self; playing := playing self;
                     seeking := seeking self; loop_var := loop_var self;
                     play_speed := s |}) /\
  (forall i, nth_error speed_choices i = Some (play_speed self) ->
     exists s,
       nth_error speed_choices
         (Z.to_nat (clamp (Z.of_nat i + step) 0 8)) = Some s /\
       _nudge_speed self step =
       Done {| core := core self; playing := playing self;
               seeking := seeking self; loop_var := loop_var self;
               play_speed := s |}).
Proof.
  intros Hst.
  assert (Hgen : forall idx,
            argmin (map (fun c => fabs (fsub c (play_speed self))) speed_choices)
              = Ret idx ->
            exists s,
              nth_error speed_choices
                (Z.to_nat (clamp (Z.of_nat idx + step) 0 8)) = Some s /\
              _nudge_speed self step =
              Done {| core := core self; playing := playing self;
                      seeking := seeking self; loop_var := loop_var self;
                      play_speed := s |}).
  { intros idx Hidx. unfold _nudge_speed. rewrite Hidx. cbn [lift rbind].
    change (Z.of_nat (length speed_choices) - 1) with 8.
    destruct (choice_at (clamp (Z.of_nat idx + step) 0 8)) as (s & Hs & Hn);
      [unfold clamp; lia|].
    cbv zeta. rewrite Hs. cbn [lift rbind]. exists s. split; [exact Hn|].
    apply set_speed_choice; [now apply (nth_error_In _ _ Hn)|exact Hst]. }
  split.
  - destruct (argmin (map (fun c => fabs (fsub c (play_speed self)))
                        speed_choices)) as [idx|e] eqn:Hidx.
    + destruct (Hgen idx eq_refl) as (s & Hn & Hs).
      exists s. split; [now apply (nth_error_In _ _ Hn)|exact Hs].
    + discriminate.
  - intros i Hi. apply Hgen. now apply nearest_choice.
Qed.

Lemma nudge_speed_moves_witness :
  let self := mkPlayback two_clips true false true (Fin 4) in
  _status_text (core self) = Done tt /\
  nth_error speed_choices 8 = Some (play_speed self) /\
  _nudge_speed self 1 = Done self /\
  _nudge_speed self (-1) = Done (mkPlayback two_clips true false true (Fin 3)).
Proof.
  intros self.
  assert (Hst : _status_text (core self) = Done tt) by (vm_compute; reflexivity).
  assert (Hi : nth_error speed_choices 8 = Some (play_speed self)) by reflexivity.
  destruct (proj2 (nudge_speed_moves self 1 Hst) 8%nat Hi) as (s & Hn & Hs).
  destruct (proj2 (nudge_speed_moves self (-1) Hst) 8%nat Hi) as (s' & Hn' & Hs').
  refine (conj Hst (conj Hi (conj _ _))).
  - rewrite Hs. vm_compute in Hn. inversion Hn. reflexivity.
  - rewrite Hs'. vm_compute in Hn'. inversion Hn'. reflexivity.
Defined.

End Playback.

(* ================================================================== *)
(** * Loading, then seeking *)
(* ================================================================== *)

Lemma load_folder_table_paths_witness :
  loaded (Viewer._load_folder demo_folder demo_video player0 demo_entries) /\
  map Viewer.path
    (Viewer.files
       (Viewer.o_self
          (Viewer._load_folder demo_folder demo_video player0 demo_entries))) =
  [lit "/d/clip2.mp4"; lit "/d/clip10.mp4"].
Proof.
  assert (Hl : loaded (Viewer._load_folder demo_folder demo_video player0
                         demo_entries)) by (split; reflexivity).
  destruct (load_folder_table_paths demo_folder demo_video player0 demo_entries Hl)
    as (paths & Hs & Hm).
  refine (conj Hl _). rewrite Hm.
  vm_compute in Hs. inversion Hs. reflexivity.
Defined.

Section LoadThenSeek.
Import Viewer Player.

Variable folder : str.
Variable video : str -> option cv_props.

(** A load that shows a dialog leaves the player as it was, but for the
    capture, which is released. *)
Lemma load_folder_dialog_state self entries :
  o_dialogs (_load_folder folder video self entries) <> [] ->
  o_self (_load_folder folder video self entries) = release_cap self.
Proof.
  unfold _load_folder.
  destruct (filter is_mp4 entries) as [|p0 ps]; [reflexivity|].
  destruct (sort_paths (p0 :: ps)) as [paths|e]; [|simpl; congruence].
  simpl bind.
  destruct (index_loop folder video acc0 paths) as [acc|e]; [|simpl; congruence].
  destruct (a_total_frames acc =? 0); [reflexivity|].
  match goal with
  | |- context [_open_capture_for_global_frame ?s 0] =>
      destruct (_open_capture_for_global_frame s 0) as [s2|e]; [|simpl; congruence]
  end.
  destruct (_display_current_frame s2); simpl; congruence.
Qed.

(** What the end of a load that replaces the table leaves: the playhead
    on frame 0 and the capture of the clip that owns it open. *)
Lemma first_frame_settled self i l f :
  cur_file_idx self = -1 -> cur_global_frame self = 0 ->
  _global_to_file_local self 0 = Ret (i, l) ->
  nth_error (files self) i = Some f ->
  exists self2,
    _open_capture_for_global_frame self 0 = Ret self2 /\
    _display_current_frame self2 = Ret (settled self 0 i f).
Proof.
  intros Hidx Hg Hr Hn. exists (settled self 0 i f).
  unfold _open_capture_for_global_frame, _display_current_frame.
  rewrite Hr. cbn [bind fst].
  assert (Ho : _open_capture_for_file self i = Ret (settled self 0 i f)).
  { rewrite <- Hg. apply open_file_settled; [exact Hn|]. right. lia. }
  split; [exact Ho|].
  cbn [settled cur_global_frame]. rewrite global_to_file_local_settled, Hr.
  cbn [bind fst]. unfold _open_capture_for_file.
  cbn [settled cur_file_idx]. now rewrite Z.eqb_refl.
Qed.

(** X6. After a load that replaces the table the playhead is on frame 0 and
    the capture of the clip that owns it is open; and, where the status
    text can be built, every seek returns: it puts the playhead on the
    clamped index with the capture of its clip open. *)
Theorem load_folder_then_seek (self : player) (entries : list dirent) :
  let o := _load_folder folder video self entries in
  loaded o ->
  cur_global_frame (o_self o) = 0 /\
  open_on (o_self o) /\ playhead_owned (o_self o) /\
  (status_ok (o_self o) ->
   forall g, exists c',
     seek_to (o_self o) g = Done c' /\
     files c' = files (o_self o) /\
     cur_global_frame c' = clamp g 0 (total_frames (o_self o) - 1) /\
     open_on c' /\ playhead_owned c').
Proof.
  intros o [Hres Hdlg]. subst o.
  assert (H : exists s i l f,
            o_self (_load_folder folder video self entries) = settled s 0 i f /\
            _global_to_file_local s 0 = Ret (i, l) /\
            nth_error (files s) i = Some f).
  { revert Hres Hdlg. unfold _load_folder.
    destruct (filter is_mp4 entries) as [|p0 ps]; [simpl; discriminate|].
    destruct (sort_paths (p0 :: ps)) as [paths|e]; [|simpl; discriminate].
    simpl bind.
    destruct (index_loop folder video acc0 paths) as [acc|e] eqn:Hloop;
      [|simpl; discriminate].
    destruct (Z.eqb_spec (a_total_frames acc) 0) as [Hz|Hnz];
      [simpl; discriminate|].
    destruct (index_loop_ok _ _ _ _ _ acc0_ok Hloop) as (_ & Ht & _).
    set (self1 := {| files := a_files acc |}).
    assert (Hne : files self1 <> []).
    { simpl. intros Hnil. rewrite Hnil in Ht. simpl in Ht. congruence. }
    destruct (global_to_file_local_total self1 0 Hne) as ([i l] & Hr & Hlt).
    destruct (nth_error (files self1) i) as [f|] eqn:Hn;
      [|apply nth_error_None in Hn; simpl in Hlt, Hn; lia].
    destruct (first_frame_settled self1 i l f eq_refl eq_refl Hr Hn)
      as (self2 & -> & ->).
    intros _ _. exists self1, i, l, f. auto. }
  destruct H as (s & i & l & f & -> & Hr & Hn).
  split; [reflexivity|]. split; [now apply settled_open_on|].
  split; [exists i, l; split; [exact Hr|reflexivity]|].
  intros Hok g.
  assert (Hne : files (settled s 0 i f) <> []).
  { simpl. intros Hnil. rewrite Hnil in Hn. destruct i; discriminate. }
  destruct (seek_to_open (settled s 0 i f) g Hne
              (or_introl (settled_open_on s 0 i f Hn)) (Hok _))
    as (c' & Hs & Hf & _ & _ & Hg & Ho & Hp & _).
  exists c'. auto.
Qed.

(** X7. After a load that shows a dialog the old table is still there but
    no capture is: a seek into the clip that was current fails on the
    missing capture, and a seek into another clip opens that clip and
    returns (where the status text can be built). *)
Theorem failed_load_then_seek (self : player) (entries : list dirent)
    (g : Z) (i : nat) (l : Z) :
  let o := _load_folder folder video self entries in
  o_dialogs o <> [] ->
  files self <> [] ->
  _global_to_file_local self (clamp g 0 (total_frames self - 1)) = Ret (i, l) ->
  (cur_file_idx self = Z.of_nat i -> seek_to (o_self o) g = NoCapture) /\
  (cur_file_idx self <> Z.of_nat i ->
   _status_text (with_frame self (clamp g 0 (total_frames self - 1))) = Done tt ->
   exists c', seek_to (o_self o) g = Done c' /\ open_on c' /\
              cur_file_idx c' = Z.of_nat i).
Proof.
  intros o Hd Hne Hr. subst o.
  rewrite (load_folder_dialog_state self entries Hd).
  set (g' := clamp g 0 (total_frames self - 1)) in *.
  split.
  - intros Hidx. unfold seek_to.
    change (files (release_cap self)) with (files self).
    destruct (files self) as [|f0 fs] eqn:Hf; [congruence|]. rewrite <- Hf in *.
    change (total_frames (release_cap self)) with (total_frames self). fold g'.
    unfold open_capture_for_global_frame.
    change (_global_to_file_local (with_frame (release_cap self) g')
              (cur_global_frame (with_frame (release_cap self) g')))
      with (_global_to_file_local self g').
    rewrite Hr. cbn [lift rbind fst snd].
    unfold _open_capture_for_file. cbn [with_frame release_cap cur_file_idx].
    rewrite Hidx, Z.eqb_refl. reflexivity.
  - intros Hidx Hst.
    destruct (global_to_file_local_total self g' Hne) as (r & Hr' & Hlt).
    rewrite Hr in Hr'. inversion Hr'; subst r. simpl in Hlt.
    destruct (nth_error (files self) i) as [f|] eqn:Hn;
      [|apply nth_error_None in Hn; lia].
    exists (settled (release_cap self) g' i f).
    split; [|split; [now apply settled_open_on|reflexivity]].
    apply (seek_to_opens (release_cap self) g i l f).
    + exact Hne.
    + right. cbn [release_cap cur_file_idx]. congruence.
    + exact Hr.
    + exact Hn.
    + rewrite <- Hst. apply status_text_ext; reflexivity.
Qed.

End LoadThenSeek.

(** The status text of the demo folder, once loaded, can be built on
    every frame. *)
Lemma demo_loaded_status_ok :
  status_ok
    (Viewer.o_self (Viewer._load_folder demo_folder demo_video player0 demo_entries)).
Proof.
  intros g.
  set (p := Viewer.o_self
              (Viewer._load_folder demo_folder demo_video player0 demo_entries)).
  assert (Hf : Viewer.total_frames p = 5) by (vm_compute; reflexivity).
  unfold Player._status_text, Viewer._global_to_file_local.
  cbn [Player.with_frame Viewer.files Viewer.total_frames Viewer.cur_global_frame].
  rewrite Hf.
  set (k := Viewer.clamp g 0 (Z.max 0 (5 - 1))).
  assert (Hk : k = 0 \/ k = 1 \/ k = 2 \/ k = 3 \/ k = 4)
    by (unfold k, Viewer.clamp; lia).
  clearbody k.
  repeat (destruct Hk as [->|Hk]; [vm_compute; reflexivity|]).
  subst k. vm_compute. reflexivity.
Qed.

Lemma load_folder_then_seek_witness :
  loaded (Viewer._load_folder demo_folder demo_video player0 demo_entries) /\
  exists c',
    Player.seek_to
      (Viewer.o_self (Viewer._load_folder demo_folder demo_video player0 demo_entries))
      4 = Player.Done c' /\
    Viewer.cur_global_frame c' = 4 /\ Viewer.cur_file_idx c' = 1.
Proof.
  assert (Hl : loaded (Viewer._load_folder demo_folder demo_video player0
                         demo_entries)) by (split; reflexivity).
  destruct (load_folder_then_seek demo_folder demo_video player0 demo_entries Hl)
    as (_ & _ & _ & Hseek).
  destruct (Hseek demo_loaded_status_ok 4) as (c' & Hs & _ & Hg & _).
  refine (conj Hl (ex_intro _ c' (conj Hs (conj Hg _)))).
  vm_compute in Hs. inversion Hs. reflexivity.
Defined.

Lemma failed_load_then_seek_witness :
  Viewer.o_dialogs (Viewer._load_folder demo_folder no_video two_clips_open []) <> [] /\
  Viewer.files two_clips_open <> [] /\
  Viewer._global_to_file_local two_clips_open
    (Viewer.clamp 1 0 (Viewer.total_frames two_clips_open - 1)) = Ret (0%nat, 1) /\
  Player.seek_to
    (Viewer.o_self (Viewer._load_folder demo_folder no_video two_clips_open [])) 1
  = Player.NoCapture.
Proof.
  assert (Hd : Viewer.o_dialogs
                 (Viewer._load_folder demo_folder no_video two_clips_open []) <> [])
    by discriminate.
  assert (Hne : Viewer.files two_clips_open <> []) by discriminate.
  assert (Hr : Viewer._global_to_file_local two_clips_open
                 (Viewer.clamp 1 0 (Viewer.total_frames two_clips_open - 1))
               = Ret (0%nat, 1)) by reflexivity.
  exact (conj Hd (conj Hne (conj Hr
           (proj1 (failed_load_then_seek demo_folder no_video two_clips_open []
                     1 0 1 Hd Hne Hr) eq_refl)))).
Defined.

(* ================================================================== *)
(** * The rate, the speed and the audio chain *)
(* ================================================================== *)

Section RateAndSpeed.
Import Concat App.
Local Open Scope Q_scope.

Lemma while_below_half_returns fuel : forall steps factor r,
  while_below_half fuel steps factor = Some r -> exists p, r = Ret p.
Proof.
  induction fuel as [|fuel IH]; intros steps factor r;
    rewrite while_below_half_eq; destruct (flt factor (Fin (1 # 2)));
    try discriminate; try (intros H; inversion H; eauto; fail).
  destruct factor as [q| | |]; simpl; apply IH.
Qed.

Lemma while_above_two_returns fuel : forall steps factor r,
  while_above_two fuel steps factor = Some r -> exists p, r = Ret p.
Proof.
  induction fuel as [|fuel IH]; intros steps factor r;
    rewrite while_above_two_eq; destruct (fgt factor (Fin 2));
    try discriminate; try (intros H; inversion H; eauto; fail).
  destruct factor as [q| | |]; simpl; apply IH.
Qed.

Lemma build_atempo_chain_returns_list fuel a r :
  _build_atempo_chain fuel a = Some r -> exists l, r = Ret l.
Proof.
  unfold _build_atempo_chain.
  destruct (fle a (Fin 0)); [intros H; inversion H; eauto|].
  destruct (while_below_half fuel [] a) as [[[s f]|e]|] eqn:E1; try discriminate.
  - destruct (while_above_two fuel s f) as [[[s' f']|e]|] eqn:E2; try discriminate.
    + destruct (fgt (fabs (fsub f' (Fin 1))) (Fin (1 # 1000000)));
        intros H; inversion H; eauto.
    + destruct (while_above_two_returns _ _ _ _ E2). discriminate.
  - destruct (while_below_half_returns _ _ _ _ E1). discriminate.
Qed.

Lemma build_atempo_chain_unit fuel q :
  1 # 2 <= q -> q <= 2 ->
  _build_atempo_chain fuel (Fin q) =
  Some (Ret (if Qlt_bool (1 # 1000000) (Qabs (q - 1)) then [Fin q] else [])).
Proof.
  intros Hlo Hhi. unfold _build_atempo_chain.
  assert (E0 : fle (Fin q) (Fin 0) = false).
  { simpl. destruct (Qle_bool q 0) eqn:E; [|reflexivity].
    apply Qle_bool_iff in E. lra. }
  rewrite E0, while_below_half_eq.
  assert (E1 : flt (Fin q) (Fin (1 # 2)) = false)
    by (simpl; apply Qlt_bool_false; exact Hlo).
  rewrite E1, while_above_two_eq.
  assert (E2 : fgt (Fin q) (Fin 2) = false)
    by (unfold fgt; simpl; apply Qlt_bool_false; exact Hhi).
  rewrite E2. unfold fsub, fneg, fadd.
  pose proof float_overflow_large.
  rewrite fnorm_finite by (split; lra).
  unfold fabs, fgt, flt. change (q + - (1)) with (q - 1).
  now destruct (Qlt_bool (1 # 1000000) (Qabs (q - 1))).
Qed.

(** X19. The chain at its edges.  A ratio that is not positive, or is NaN,
    gives the empty chain without a turn of either loop.  A ratio that
    already lies in [0.5, 2.0] is the one factor of its chain, or is left
    out if it is within a millionth of 1.  Building a chain never
    raises. *)
Theorem build_atempo_chain_edges :
  (forall fuel a, fle a (Fin 0) = true \/ a = NaN ->
     _build_atempo_chain fuel a = Some (Ret [])) /\
  (forall fuel q, 1 # 2 <= q -> q <= 2 ->
     (1 # 1000000 < Qabs (q - 1) ->
      _build_atempo_chain fuel (Fin q) = Some (Ret [Fin q])) /\
     (Qabs (q - 1) <= 1 # 1000000 ->
      _build_atempo_chain fuel (Fin q) = Some (Ret []))) /\
  (forall fuel a r, _build_atempo_chain fuel a = Some r -> exists l, r = Ret l).
Proof.
  split; [|split].
  - intros fuel a [H| ->].
    + unfold _build_atempo_chain. now rewrite H.
    + unfold _build_atempo_chain. simpl fle. cbv iota.
      rewrite while_below_half_eq. simpl flt. cbv iota.
      rewrite while_above_two_eq. reflexivity.
  - intros fuel q Hlo Hhi. rewrite (build_atempo_chain_unit fuel q Hlo Hhi).
    split; intros H.
    + apply Qlt_bool_iff in H. now rewrite H.
    + apply Qlt_bool_false in H. now rewrite H.
  - exact build_atempo_chain_returns_list.
Qed.

Variable float_of_str : str -> py pyfloat.

Lemma speed_of_fin q :
  0 < q -> speed_of (Fin q) = Ret (fnorm (60 / q)).
Proof.
  intros Hq. unfold speed_of.
  assert (Hb : float_of_int base_out_fps = Ret (Fin 60)) by (vm_compute; reflexivity).
  rewrite Hb. cbn [bind]. unfold fdiv.
  assert (Hz : is_zero q = false).
  { unfold is_zero. apply Z.eqb_neq. unfold Qlt in Hq. simpl in Hq. lia. }
  now rewrite Hz.
Qed.

Lemma fnorm_nonneg x : 0 <= x -> fle (Fin 0) (fnorm x) = true.
Proof.
  intros Hx. unfold fnorm.
  destruct (Qle_bool (inject_Z float_overflow) x); [reflexivity|].
  destruct (Qle_bool x (inject_Z (- float_overflow))) eqn:E.
  - apply Qle_bool_iff in E. rewrite inject_Z_opp in E.
    pose proof float_overflow_large. exfalso. lra.
  - simpl. now apply Qle_bool_iff.
Qed.

Lemma accepted_rate fps_text user_fps :
  parse_fps float_of_str fps_text = Some user_fps ->
  fgt user_fps (Fin 0) = true.
Proof.
  unfold parse_fps.
  destruct (catch (float_of_str _)) as [u|]; [|discriminate].
  destruct (fgt u (Fin 0)) eqn:E; [|discriminate].
  intros H. inversion H; subst. exact E.
Qed.

Lemma speed_of_accepted user_fps :
  fgt user_fps (Fin 0) = true ->
  exists speed, speed_of user_fps = Ret speed /\ fle (Fin 0) speed = true.
Proof.
  intros Hpos. destruct user_fps as [q| | |]; try discriminate.
  - apply Qlt_bool_iff in Hpos. rewrite (speed_of_fin q Hpos).
    eexists. split; [reflexivity|]. apply fnorm_nonneg.
    apply Qle_shift_div_l; lra.
  - exists (Fin 0). split; reflexivity.
Qed.

Lemma fdiv_positive a speed :
  fgt speed (Fin 0) = true -> exists e, fdiv a speed = Ret e.
Proof.
  intros H. destruct speed as [y| | |]; try discriminate.
  - apply Qlt_bool_iff in H.
    assert (Hz : is_zero y = false).
    { unfold is_zero. apply Z.eqb_neq. unfold Qlt in H. simpl in H. lia. }
    unfold fdiv. rewrite Hz. destruct a; eauto.
  - destruct a; simpl; eauto.
Qed.

(** X20. A rate that [start] accepts is above zero, so neither [start] nor
    the command line divides by zero: the speed is computed and is not
    negative, the total for the progress bar is computed, and the audio
    arguments, when they are returned, are returned without an exception,
    with audio left out exactly when it is not kept or not present.  But
    for a finite rate so low that the speed is beyond the floats, the
    speed is [inf] and, with audio kept and present in speed mode, the
    chain of the audio arguments is never returned. *)
Theorem accepted_rate_speed (fps_text : str) (user_fps : pyfloat) :
  parse_fps float_of_str fps_text = Some user_fps ->
  fgt user_fps (Fin 0) = true /\
  (exists speed, speed_of user_fps = Ret speed /\ fle (Fin 0) speed = true) /\
  (forall mode durations,
     exists e, effective_total mode user_fps durations = Ret e) /\
  (forall fuel mode keep present r,
     audio_of fuel user_fps mode keep present = Some r ->
     exists a, r = Ret a /\ (a = NoAudio <-> keep && present = false)) /\
  (forall q, user_fps = Fin q -> inject_Z float_overflow * q <= 60 ->
     speed_of user_fps = Ret PInf /\
     forall fuel, audio_of fuel user_fps true true true = None).
Proof.
  intros Hacc. pose proof (accepted_rate _ _ Hacc) as Hpos.
  destruct (speed_of_accepted _ Hpos) as (speed & Hspeed & Hnn).
  split; [exact Hpos|]. split; [eauto|].
  split; [|split].
  - intros mode durations. unfold effective_total.
    destruct mode; [|eauto]. rewrite Hspeed. cbn [bind].
    destruct (fgt speed (Fin 0)) eqn:E; [|eauto].
    now apply fdiv_positive.
  - intros fuel mode keep present r. unfold audio_of. rewrite Hspeed.
    destruct mode.
    + destruct (keep && present) eqn:Ekp.
      * destruct (_build_atempo_chain fuel speed) as [[[|s steps]|e]|] eqn:Ec;
          try discriminate.
        -- intros H. inversion H. eexists. split; [reflexivity|].
           split; discriminate.
        -- intros H. inversion H. eexists. split; [reflexivity|].
           split; discriminate.
        -- destruct (build_atempo_chain_returns_list _ _ _ Ec). discriminate.
      * intros H. inversion H. eexists. split; [reflexivity|]. tauto.
    + intros H. inversion H. eexists. split; [reflexivity|].
      destruct (keep && present); split; auto; discriminate.
  - intros q -> Hlow. simpl in Hpos. apply Qlt_bool_iff in Hpos.
    assert (Hs : speed_of (Fin q) = Ret PInf).
    { rewrite (speed_of_fin q Hpos). unfold fnorm.
      assert (Hle : inject_Z float_overflow <= 60 / q)
        by (apply Qle_shift_div_l; assumption).
      apply Qle_bool_iff in Hle. now rewrite Hle. }
    split; [exact Hs|]. intros fuel. unfold audio_of. rewrite Hs.
    cbn [andb]. unfold _build_atempo_chain. simpl fle. cbv iota.
    rewrite while_below_half_eq. simpl flt. cbv iota.
    now rewrite while_above_two_inf.
Qed.

End RateAndSpeed.

Lemma accepted_rate_speed_witness :
  App.parse_fps float_of_numeral (lit " 20 ") = Some (Fin (inject_Z 20)) /\
  fgt (Fin (inject_Z 20)) (Fin 0) = true /\
  exists speed, App.speed_of (Fin (inject_Z 20)) = Ret speed /\
                fle (Fin 0) speed = true.
Proof.
  assert (H : App.parse_fps float_of_numeral (lit " 20 ") = Some (Fin (inject_Z 20)))
    by reflexivity.
  destruct (accepted_rate_speed float_of_numeral _ _ H) as (Hpos & Hspeed & _).
  exact (conj H (conj Hpos Hspeed)).
Defined.

(* ================================================================== *)
(** * Times as text, and the progress bar *)
(* ================================================================== *)

Section Times.
Local Open Scope Q_scope.

Lemma Qfloor_unique z x :
  inject_Z z <= x -> x < inject_Z (z + 1) -> Qfloor x = z.
Proof.
  intros Hlo Hhi.
  pose proof (Qfloor_le x) as H1. pose proof (Qlt_floor x) as H2.
  assert (A : (z < Qfloor x + 1)%Z) by (rewrite Zlt_Qlt; lra).
  assert (B : (Qfloor x < z + 1)%Z) by (rewrite Zlt_Qlt; lra).
  lia.
Qed.

(** The floor of [x / d] and what is left, for a positive integer [d]. *)
Lemma floor_div_parts x (d : Z) :
  (0 < d)%Z -> 0 <= x ->
  let k := Qfloor (x / inject_Z d) in
  (0 <= k)%Z /\ inject_Z k <= x /\
  0 <= x - inject_Z d * inject_Z k /\ x - inject_Z d * inject_Z k < inject_Z d.
Proof.
  intros Hd Hx k.
  assert (Hdq : 0 < inject_Z d) by (change 0 with (inject_Z 0); now rewrite <- Zlt_Qlt).
  pose proof (Qfloor_le (x / inject_Z d)) as H1.
  pose proof (Qlt_floor (x / inject_Z d)) as H2.
  fold k in H1, H2. rewrite inject_Z_plus in H2. change (inject_Z 1) with 1 in H2.
  assert (Hk : (0 <= k)%Z).
  { unfold k. rewrite <- (Qfloor_Z 0). apply Qfloor_resp_le.
    change (inject_Z 0) with 0. apply Qle_shift_div_l; lra. }
  assert (Hkq : 0 <= inject_Z k)
    by (change 0 with (inject_Z 0); now rewrite <- Zle_Qle).
  assert (Hx1 : inject_Z k * inject_Z d <= x).
  { apply (Qmult_le_r _ _ (inject_Z d)) in H1; [|exact Hdq].
    setoid_replace (x / inject_Z d * inject_Z d) with x in H1
      by (field; lra). exact H1. }
  assert (Hx2 : x < (inject_Z k + 1) * inject_Z d).
  { apply (Qmult_lt_r _ _ (inject_Z d)) in H2; [|exact Hdq].
    setoid_replace (x / inject_Z d * inject_Z d) with x in H2
      by (field; lra). exact H2. }
  assert (H1d : 1 <= inject_Z d).
  { change 1 with (inject_Z 1). rewrite <- Zle_Qle. lia. }
  split; [exact Hk|]. split; [nra|]. split; lra.
Qed.

Lemma int_of_float_Z z : int_of_float (Fin (inject_Z z)) = Ret z.
Proof. simpl. now rewrite Z.quot_1_r. Qed.

(** What the body computes on a positive finite number of seconds. *)
Lemma format_hms_fin q :
  0 < q -> q < inject_Z float_overflow ->
  exists h m s,
    (0 <= h)%Z /\ (0 <= m < 60)%Z /\ 0 <= s /\ s < 60 /\
    q == inject_Z (3600 * h + 60 * m) + s /\
    format_hms (Fin q) = Ret (hms_text h m s).
Proof.
  intros Hq Hov.
  destruct (floor_div_parts q 3600 eq_refl (Qlt_le_weak _ _ Hq))
    as (Hh & Hhq & Hr0 & Hr1).
  set (h := Qfloor (q / inject_Z 3600)) in *.
  set (r := q - inject_Z 3600 * inject_Z h) in *.
  destruct (floor_div_parts r 60 eq_refl Hr0) as (Hm & Hmq & Hs0 & Hs1).
  set (m := Qfloor (r / inject_Z 60)) in *.
  assert (Hm60 : (m < 60)%Z).
  { rewrite Zlt_Qlt. change (inject_Z 3600) with 3600 in *.
    change (inject_Z 60) with 60 in *. lra. }
  assert (Hk : Qfloor (q / inject_Z 60) = (60 * h + m)%Z).
  { apply Qfloor_unique.
    - rewrite inject_Z_plus, inject_Z_mult.
      change (inject_Z 60) with 60 in *. change (inject_Z 3600) with 3600 in *.
      apply Qle_shift_div_l; [reflexivity|]. unfold r in Hs0. lra.
    - rewrite !inject_Z_plus, inject_Z_mult.
      change (inject_Z 60) with 60 in *. change (inject_Z 3600) with 3600 in *.
      change (inject_Z 1) with 1.
      apply Qlt_shift_div_r; [reflexivity|]. unfold r in Hs1. lra. }
  assert (Hk' : inject_Z (Qfloor (q / 60)) == 60 * inject_Z h + inject_Z m).
  { change (q / 60) with (q / inject_Z 60).
    rewrite Hk, inject_Z_plus, inject_Z_mult. reflexivity. }
  exists h, m, (q - 60 * inject_Z (Qfloor (q / 60))).
  rewrite !inject_Z_plus, !inject_Z_mult.
  change (inject_Z 60) with 60 in *. change (inject_Z 3600) with 3600 in *.
  split; [exact Hh|]. split; [lia|].
  split; [unfold r in Hs0; lra|]. split; [unfold r in Hs1; lra|].
  split; [lra|].
  unfold format_hms.
  assert (E0 : fmax2 (Fin 0) (Fin q) = Fin q).
  { unfold fmax2. simpl. apply Qlt_bool_iff in Hq. now rewrite Hq. }
  rewrite E0.
  assert (E1 : ffloordiv (Fin q) (Fin 3600) = Ret (Fin (inject_Z h))).
  { unfold ffloordiv. change (is_zero 3600) with false. cbv iota.
    change (Qfloor (q / 3600)) with h. rewrite fnorm_finite; [reflexivity|].
    pose proof float_overflow_large.
    assert (0 <= inject_Z h) by (change 0 with (inject_Z 0); now rewrite <- Zle_Qle).
    split; lra. }
  rewrite E1. cbn [bind]. rewrite int_of_float_Z. cbn [bind].
  assert (E2 : fmod (Fin q) (Fin 3600) = Ret (Fin r)).
  { unfold fmod. change (is_zero 3600) with false. cbv iota. reflexivity. }
  rewrite E2. cbn [bind].
  assert (E3 : ffloordiv (Fin r) (Fin 60) = Ret (Fin (inject_Z m))).
  { unfold ffloordiv. change (is_zero 60) with false. cbv iota.
    change (Qfloor (r / 60)) with m.
    rewrite fnorm_finite; [reflexivity|].
    pose proof float_overflow_thousand.
    assert (inject_Z m < 60) by (change 60 with (inject_Z 60); now rewrite <- Zlt_Qlt).
    assert (0 <= inject_Z m) by (change 0 with (inject_Z 0); now rewrite <- Zle_Qle).
    split; lra. }
  rewrite E3. cbn [bind]. rewrite int_of_float_Z. cbn [bind].
  assert (E4 : fmod (Fin q) (Fin 60) =
               Ret (Fin (q - 60 * inject_Z (Qfloor (q / 60))))).
  { unfold fmod. change (is_zero 60) with false. cbv iota. reflexivity. }
  rewrite E4. reflexivity.
Qed.

Lemma format_hms_low sec :
  fle sec (Fin 0) = true \/ sec = NaN ->
  format_hms sec = Ret (lit "00:00.00").
Proof.
  intros H.
  assert (E : fmax2 (Fin 0) sec = Fin 0).
  { unfold fmax2. destruct H as [H| ->]; [|reflexivity].
    destruct sec as [q| | |]; simpl in *; try discriminate; try reflexivity.
    apply Qle_bool_iff in H.
    destruct (Qlt_bool 0 q) eqn:E; [|reflexivity].
    apply Qlt_bool_iff in E. lra. }
  unfold format_hms. rewrite E. reflexivity.
Qed.

Lemma format_hms_returns sec :
  is_float sec -> sec <> PInf -> exists t, format_hms sec = Ret t.
Proof.
  intros Hf Hinf. destruct sec as [q| | |]; try congruence.
  - destruct (Qlt_le_dec 0 q) as [Hq|Hq].
    + simpl in Hf. rewrite Qabs_pos in Hf by lra.
      destruct (format_hms_fin q Hq Hf) as (h & m & s & _ & _ & _ & _ & _ & H).
      eauto.
    + rewrite format_hms_low; [eauto|]. left. simpl. now apply Qle_bool_iff.
  - rewrite format_hms_low; [eauto|]. left. reflexivity.
  - rewrite format_hms_low; [eauto|]. now right.
Qed.




End Times.

Section ProgressBar.
Import App.

Lemma fmin2_hundred x : fle (fmin2 (Fin 100) x) (Fin 100) = true.
Proof.
  unfold fmin2. destruct (flt x (Fin 100)) eqn:E; [|reflexivity].
  destruct x as [q| | |]; simpl in *; try discriminate; try reflexivity.
  apply Qlt_bool_iff in E. apply Qle_bool_iff. lra.
Qed.

Lemma fmax2_zero x : fle (Fin 0) (fmax2 (Fin 0) x) = true.
Proof.
  unfold fmax2. destruct (flt (Fin 0) x) eqn:E; [|reflexivity].
  destruct x as [q| | |]; simpl in *; try discriminate; try reflexivity.
  apply Qlt_bool_iff in E. apply Qle_bool_iff. lra.
Qed.

Lemma is_float_fmax2 x : is_float x -> is_float (fmax2 (Fin 0) x).
Proof.
  intros H. unfold fmax2. destruct (flt (Fin 0) x); [exact H|].
  simpl. pose proof float_overflow_large. lra.
Qed.

Lemma format_hms_cases sec :
  is_float sec ->
  (sec = PInf /\ format_hms sec = Raise ValueError) \/
  (sec <> PInf /\ exists t, format_hms sec = Ret t).
Proof.
  intros Hf. destruct sec as [q| | |].
  - right. split; [discriminate|]. apply format_hms_returns; [exact Hf|discriminate].
  - left. split; reflexivity.
  - right. split; [discriminate|]. apply format_hms_returns; [exact Hf|discriminate].
  - right. split; [discriminate|]. apply format_hms_returns; [exact Hf|discriminate].
Qed.

(** X23. The total kept for the progress bar is never negative and never
    NaN.  With a total above zero the bar is given a value that is at
    most 100 and is not NaN, the division never fails, and the call
    raises only where a time that is infinite is put into the label,
    after the bar was set; with a total of zero the bar is left alone
    and nothing is raised. *)
Theorem progress_bar_bounds (seconds_total seconds_done : pyfloat) :
  is_float seconds_total -> is_float seconds_done ->
  let total := fst (_set_progress_total seconds_total) in
  fle (Fin 0) total = true /\
  (snd (_set_progress_total seconds_total) = Ret tt \/
   snd (_set_progress_total seconds_total) = Raise ValueError /\
   seconds_total = PInf) /\
  (fgt total (Fin 0) = true ->
   exists v, fst (_on_progress_seconds total seconds_done) = Some v /\
             fle v (Fin 100) = true /\
             (snd (_on_progress_seconds total seconds_done) = Ret tt \/
              snd (_on_progress_seconds total seconds_done) = Raise ValueError /\
              (seconds_done = PInf \/ seconds_total = PInf))) /\
  (fgt total (Fin 0) = false ->
   _on_progress_seconds total seconds_done = (None, Ret tt)).
Proof.
  intros Ht Hd total. unfold _set_progress_total in *. cbn [fst snd] in *.
  assert (Hft : is_float total) by now apply is_float_fmax2.
  assert (Htinf : total = PInf -> seconds_total = PInf).
  { unfold total, fmax2. destruct (flt (Fin 0) seconds_total); [auto|discriminate]. }
  split; [apply fmax2_zero|]. split; [|split].
  - fold total. destruct (fgt total (Fin 0)); [|now left].
    destruct (format_hms_cases total Hft) as [(Hinf & ->)|(_ & t & ->)].
    + right. split; [reflexivity|auto].
    + now left.
  - intros Hpos. unfold _on_progress_seconds. rewrite Hpos.
    destruct (fdiv_positive seconds_done total Hpos) as [q ->].
    cbn [fst snd]. eexists. split; [reflexivity|]. split; [apply fmin2_hundred|].
    destruct (format_hms_cases seconds_done Hd) as [(Hinf & ->)|(_ & t & ->)].
    + right. split; [reflexivity|auto].
    + cbn [bind].
      destruct (format_hms_cases total Hft) as [(Hinf & ->)|(_ & t' & ->)].
      * right. split; [reflexivity|auto].
      * now left.
  - intros Hz. unfold _on_progress_seconds. now rewrite Hz.
Qed.

Lemma progress_bar_bounds_witness :
  is_float (Fin 90) /\ is_float (Fin 45) /\
  exists v, fst (_on_progress_seconds (fst (_set_progress_total (Fin 90))) (Fin 45))
            = Some v /\ fle v (Fin 100) = true.
Proof.
  assert (Ht : is_float (Fin 90)) by reflexivity.
  assert (Hd : is_float (Fin 45)) by reflexivity.
  destruct (progress_bar_bounds (Fin 90) (Fin 45) Ht Hd) as (_ & _ & H & _).
  destruct (H eq_refl) as (v & Hv & Hle & _).
  exact (conj Ht (conj Hd (ex_intro _ v (conj Hv Hle)))).
Defined.

End ProgressBar.

(* ================================================================== *)
(** * The natural order and the case of letters *)
(* ================================================================== *)

Section IgnoreCase.

Lemma lower_char_facts c :
  is_decimal (lower_char c) = is_decimal c /\
  isdigit_char (lower_char c) = isdigit_char c /\
  lower_char (lower_char c) = lower_char c /\
  (isdigit_char c = true -> lower_char c = c).
Proof.
  destruct c as [[] [] [] [] [] [] [] []]; vm_compute;
    repeat split; try reflexivity; intros H; try reflexivity; discriminate.
Qed.

Lemma lower_idem s : lower (lower s) = lower s.
Proof.
  unfold lower. rewrite map_map. apply map_ext.
  intros c. exact (proj1 (proj2 (proj2 (lower_char_facts c)))).
Qed.

Lemma lower_rev s : lower (rev s) = rev (lower s).
Proof. unfold lower. apply map_rev. Qed.

Lemma re_split_scan_lower s : forall d cur,
  re_split_scan d (lower cur) (lower s) = map lower (re_split_scan d cur s).
Proof.
  induction s as [|c s IH]; intros d cur; simpl.
  - destruct d; simpl; now rewrite lower_rev.
  - destruct (lower_char_facts c) as (-> & _).
    destruct (is_decimal c), d; simpl.
    + apply (IH true (c :: cur)).
    + rewrite lower_rev. apply (f_equal (cons _)). apply (IH true [c]).
    + rewrite lower_rev. apply (f_equal (cons _)). apply (IH false [c]).
    + apply (IH false (c :: cur)).
Qed.

Lemma forallb_isdigit_lower s :
  forallb isdigit_char (lower s) = forallb isdigit_char s.
Proof.
  induction s as [|c s IH]; [reflexivity|]. simpl.
  now rewrite IH, (proj1 (proj2 (lower_char_facts c))).
Qed.

Lemma isdigit_lower tok : isdigit (lower tok) = isdigit tok.
Proof.
  unfold isdigit. destruct tok as [|c tok]; [reflexivity|].
  apply (forallb_isdigit_lower (c :: tok)).
Qed.

Lemma lower_digits tok : isdigit tok = true -> lower tok = tok.
Proof.
  unfold isdigit. destruct tok as [|c tok]; [discriminate|]. intros H.
  unfold lower. rewrite <- (map_id (c :: tok)) at 2.
  apply map_ext_in. intros a Ha.
  apply (proj2 (proj2 (proj2 (lower_char_facts a)))).
  rewrite forallb_forall in H. now apply H.
Qed.

Lemma atoi_lower tok : Viewer.atoi (lower tok) = Viewer.atoi tok.
Proof.
  unfold Viewer.atoi. rewrite isdigit_lower.
  destruct (isdigit tok) eqn:E.
  - now rewrite (lower_digits tok E).
  - now rewrite lower_idem.
Qed.

Lemma natural_keys_lower text :
  Viewer.natural_keys (lower text) = Viewer.natural_keys text.
Proof.
  unfold Viewer.natural_keys, re_split_digits.
  change (@nil ascii) with (lower []) at 1.
  rewrite re_split_scan_lower.
  induction (re_split_scan false [] text) as [|tok toks IH]; [reflexivity|].
  cbn [map mapM]. now rewrite atoi_lower, IH.
Qed.

(** X16. The natural order ignores the case of letters: two names that are
    the same once lowered have the same key, in the player and in the
    concatenator, so whenever the key is built neither name sorts
    before the other and the stable sort keeps them as the folder
    listed them. *)
Theorem natural_keys_ignore_case (a b : str) :
  lower a = lower b ->
  Viewer.natural_keys a = Viewer.natural_keys b /\
  Concat.natural_keys a = Concat.natural_keys b /\
  Viewer.natural_keys (lower a) = Viewer.natural_keys a /\
  (forall k, Viewer.natural_keys a = Ret k ->
     natural_lt a b = Ret false /\ natural_lt b a = Ret false).
Proof.
  intros H.
  assert (E : Viewer.natural_keys a = Viewer.natural_keys b)
    by (rewrite <- (natural_keys_lower a), <- (natural_keys_lower b); now rewrite H).
  split; [exact E|]. split; [exact E|]. split; [apply natural_keys_lower|].
  intros k Hk. unfold natural_lt. rewrite <- E, Hk. cbn [bind].
  split; apply list_lt_irrefl.
Qed.

Lemma natural_keys_ignore_case_witness :
  lower (lit "Clip1.MP4") = lower (lit "clip1.mp4") /\
  Viewer.natural_keys (lit "Clip1.MP4") = Viewer.natural_keys (lit "clip1.mp4").
Proof.
  exact (conj eq_refl
           (proj1 (natural_keys_ignore_case (lit "Clip1.MP4") (lit "clip1.mp4")
                     eq_refl))).
Defined.

End IgnoreCase.

(* ================================================================== *)
(** * The list file, the prober and the log *)
(* ================================================================== *)

Section ListFile.
Import App.

Lemma escape_quotes_cons c p :
  escape_quotes (c :: p) =
  (if Ascii.eqb c "'"%char then lit "'\''" else [c]) ++ escape_quotes p.
Proof. reflexivity. Qed.

Lemma escaped_line_inj p : forall p' r r',
  escape_quotes p ++ "'"%char :: "010"%char :: r =
  escape_quotes p' ++ "'"%char :: "010"%char :: r' ->
  p = p' /\ r = r'.
Proof.
  induction p as [|c p IH]; intros p' r r' H.
  - destruct p' as [|c' p']; [inversion H; auto|].
    rewrite escape_quotes_cons in H.
    destruct (Ascii.eqb_spec c' "'"%char) as [->|Hc']; simpl in H.
    + inversion H.
    + inversion H. congruence.
  - rewrite escape_quotes_cons in H.
    destruct p' as [|c' p'].
    + destruct (Ascii.eqb_spec c "'"%char) as [->|Hc]; simpl in H.
      * inversion H.
      * inversion H. congruence.
    + rewrite escape_quotes_cons in H.
      destruct (Ascii.eqb_spec c "'"%char) as [->|Hc];
        destruct (Ascii.eqb_spec c' "'"%char) as [->|Hc']; simpl in H.
      * inversion H as [H']. destruct (IH _ _ _ H') as [-> ->]. auto.
      * inversion H. congruence.
      * inversion H. congruence.
      * inversion H as [[Hcc H']]. destruct (IH _ _ _ H') as [-> ->]. auto.
Qed.

Lemma listfile_line_inj p p' r r' :
  listfile_line p ++ r = listfile_line p' ++ r' -> p = p' /\ r = r'.
Proof.
  unfold listfile_line. rewrite <- !app_assoc. intros H.
  apply app_inv_head in H. cbn [app] in H.
  now apply escaped_line_inj in H.
Qed.

(** X17. The list file tells the files apart: two lists of paths that give
    the same text are the same list, whatever quotes and line ends the
    paths hold; so are two paths with the same escaped form. *)
Theorem build_concat_listfile_injective (files files' : list str) :
  build_concat_listfile files = build_concat_listfile files' ->
  files = files' /\
  (forall p p', escape_quotes p = escape_quotes p' -> p = p').
Proof.
  intros H. split.
  - revert files' H. induction files as [|p files IH]; intros files' H.
    + destruct files' as [|p' files']; [reflexivity|]. discriminate.
    + destruct files' as [|p' files']; [discriminate|].
      unfold build_concat_listfile in H. simpl in H.
      apply listfile_line_inj in H as [-> H]. f_equal. now apply IH.
  - intros p p' Hp.
    apply (escaped_line_inj p p' [] []). now rewrite Hp.
Qed.

Lemma build_concat_listfile_injective_witness :
  build_concat_listfile [lit "/d/it's.mp4"; lit "/d/b.mp4"] =
  lit "file '/d/it'\''s.mp4'" ++ "010"%char :: lit "file '/d/b.mp4'" ++ ["010"%char] /\
  [lit "/d/it's.mp4"; lit "/d/b.mp4"] = [lit "/d/it's.mp4"; lit "/d/b.mp4"].
Proof.
  exact (conj eq_refl
           (proj1 (build_concat_listfile_injective
                     [lit "/d/it's.mp4"; lit "/d/b.mp4"]
                     [lit "/d/it's.mp4"; lit "/d/b.mp4"] eq_refl))).
Defined.

(** X18. The duration taken from the prober is never negative and never NaN,
    whatever the prober wrote: a positive number is kept, and anything
    else, a failure to run or to convert included, counts as zero. *)
Theorem get_duration_seconds_nonneg (float_of_str : str -> py pyfloat)
    (stdout : option str) :
  fle (Fin 0) (get_duration_seconds float_of_str stdout) = true /\
  (forall out d, stdout = Some out -> float_of_str (strip out) = Ret d ->
     get_duration_seconds float_of_str stdout = (if fgt d (Fin 0) then d else Fin 0)) /\
  (forall out e, stdout = Some out -> float_of_str (strip out) = Raise e ->
     get_duration_seconds float_of_str stdout = Fin 0).
Proof.
  split; [|split].
  - unfold get_duration_seconds. destruct stdout as [out|]; [|reflexivity].
    destruct (float_of_str (strip out)) as [d|e]; simpl; [|reflexivity].
    unfold fmax2. destruct (flt (Fin 0) d) eqn:E; [|reflexivity].
    destruct d as [q| | |]; simpl in *; try discriminate; try reflexivity.
    apply Qlt_bool_iff in E. apply Qle_bool_iff. lra.
  - intros out d -> Hd. unfold get_duration_seconds. rewrite Hd. reflexivity.
  - intros out e -> He. unfold get_duration_seconds. rewrite He. reflexivity.
Qed.

End ListFile.

Section Log.
Import Concat.

Variable float_of_str : str -> py pyfloat.
Variables log_callback progress_callback : bool.

Lemma report_calls secs :
  (length (report progress_callback secs) <= 1)%nat /\
  forall c, In c (report progress_callback secs) ->
            progress_callback = true /\ exists s, c = ProgressCall s.
Proof.
  unfold report. destruct (catch secs) as [s|]; [|simpl; split; [lia|tauto]].
  destruct progress_callback; simpl; split; try lia; try tauto.
  intros c [<-|[]]. eauto.
Qed.

(** X21. A turn of the loop makes at most one call.  The line is logged
    exactly when a log callback was given and the stripped line is not
    empty and is none of the progress lines, and then it is the stripped
    line that is logged; a progress call is made only with a progress
    callback and only on one of the two time lines.  The calls of the
    whole loop are those of its lines, and the value returned is the exit
    code of the encoder. *)
Theorem on_line_calls (raw : str) :
  (length (on_line float_of_str log_callback progress_callback raw) <= 1)%nat /\
  (forall l, In (LogCall l) (on_line float_of_str log_callback progress_callback raw) <->
     log_callback = true /\ l = strip raw /\ l <> [] /\ key_line l = false) /\
  (forall s, In (ProgressCall s)
               (on_line float_of_str log_callback progress_callback raw) ->
     progress_callback = true /\
     (startswith (strip raw) (lit "out_time_ms=") = true \/
      startswith (strip raw) (lit "out_time=") = true)) /\
  (forall lines rc c,
     In c (fst (run_ffmpeg_concat float_of_str log_callback progress_callback
                  lines rc)) <->
     exists raw, In raw lines /\
                 In c (on_line float_of_str log_callback progress_callback raw)) /\
  (forall lines rc,
     snd (run_ffmpeg_concat float_of_str log_callback progress_callback lines rc)
     = rc).
Proof.
  unfold on_line, key_line.
  destruct (strip raw) as [|c0 rest] eqn:Hs.
  { split; [simpl; lia|]. split; [|split; [|split]].
    - intros l. simpl. split; [tauto|]. intros (_ & -> & H & _). congruence.
    - simpl. tauto.
    - intros lines rc c. unfold run_ffmpeg_concat. cbn [fst].
      rewrite progress_loop_flat. cbn [app]. rewrite in_flat_map. reflexivity.
    - reflexivity. }
  set (line := c0 :: rest) in *.
  split; [|split; [|split; [|split]]].
  - destruct (startswith line (lit "out_time_ms="));
      [apply report_calls|].
    destruct (startswith line (lit "out_time="));
      [apply report_calls|].
    destruct (startswith line (lit "progress=")); [simpl; lia|].
    destruct log_callback; simpl; lia.
  - intros l.
    destruct (startswith line (lit "out_time_ms=")) eqn:E1.
    { split.
      - intros H. destruct (proj2 (report_calls _) _ H) as (_ & s & Hc). discriminate.
      - intros (_ & -> & _ & H). rewrite E1 in H. discriminate. }
    destruct (startswith line (lit "out_time=")) eqn:E2.
    { split.
      - intros H. destruct (proj2 (report_calls _) _ H) as (_ & s & Hc). discriminate.
      - intros (_ & -> & _ & H). rewrite E1, E2 in H. discriminate. }
    destruct (startswith line (lit "progress=")) eqn:E3.
    { split; [simpl; tauto|].
      intros (_ & -> & _ & H). rewrite E1, E2, E3 in H. discriminate. }
    destruct log_callback; cbn [In].
    + split.
      * intros [H|[]]. injection H as <-. rewrite E1, E2, E3.
        repeat split. discriminate.
      * intros (_ & -> & _). auto.
    + split; [tauto|]. intros (H & _). discriminate.
  - intros s.
    destruct (startswith line (lit "out_time_ms=")) eqn:E1.
    { intros H. destruct (proj2 (report_calls _) _ H) as (Hp & _). auto. }
    destruct (startswith line (lit "out_time=")) eqn:E2.
    { intros H. destruct (proj2 (report_calls _) _ H) as (Hp & _). auto. }
    destruct (startswith line (lit "progress=")); [simpl; tauto|].
    destruct log_callback; simpl; [|tauto]. intros [H|[]]. discriminate.
  - intros lines rc c. unfold run_ffmpeg_concat. cbn [fst].
    rewrite progress_loop_flat. cbn [app]. rewrite in_flat_map. reflexivity.
  - reflexivity.
Qed.

End Log.

(* ================================================================== *)
(** * The time lines of the progress parser *)
(* ================================================================== *)

Section OutTime.
Import Concat.

Variable float_of_str : str -> py pyfloat.
Variable log_callback : bool.

Lemma split_all_nonempty sep s : split_all sep s <> [].
Proof.
  induction s as [|c s IH]; simpl; [discriminate|].
  destruct (split_all sep s) as [|h t]; [congruence|].
  destruct (Ascii.eqb c sep); discriminate.
Qed.

Lemma split_all_none sep a :
  existsb (fun c => Ascii.eqb c sep) a = false -> split_all sep a = [a].
Proof.
  induction a as [|c a IH]; simpl; intros H; [reflexivity|].
  apply orb_false_iff in H as [Hc Ha]. now rewrite (IH Ha), Hc.
Qed.

Lemma split_all_first sep a x :
  existsb (fun c => Ascii.eqb c sep) a = false ->
  split_all sep (a ++ sep :: x) = a :: split_all sep x.
Proof.
  induction a as [|c a IH]; simpl; intros H.
  - destruct (split_all sep x) as [|h t] eqn:E;
      [now destruct (split_all_nonempty sep x)|].
    now rewrite Ascii.eqb_refl.
  - apply orb_false_iff in H as [Hc Ha]. now rewrite (IH Ha), Hc.
Qed.

Lemma digits_no_colon d : forallb is_decimal d = true -> no_colon d.
Proof.
  unfold no_colon. induction d as [|c d IH]; simpl; intros H; [reflexivity|].
  apply andb_true_iff in H as [Hc Hd]. rewrite (IH Hd), orb_false_r.
  apply Ascii.eqb_neq. intros ->. discriminate.
Qed.

Lemma time_value_trimmed hh mm ss :
  hh <> [] -> forallb is_decimal hh = true ->
  trimmed isspace_char ss ->
  trimmed isspace_char (hh ++ ":"%char :: mm ++ ":"%char :: ss).
Proof.
  intros Hne Hh [_ (c & t & Hr & Hc)]. split.
  - destruct hh as [|c0 hh]; [congruence|]. simpl in Hh.
    apply andb_true_iff in Hh as [Hc0 _].
    exists c0, (hh ++ ":"%char :: mm ++ ":"%char :: ss).
    split; [reflexivity|now apply is_decimal_not_isspace].
  - exists c, (t ++ rev (hh ++ ":"%char :: mm ++ [":"%char])). split; [|exact Hc].
    replace (hh ++ ":"%char :: mm ++ ":"%char :: ss)
      with ((hh ++ ":"%char :: mm ++ [":"%char]) ++ ss)
      by (rewrite <- app_assoc; simpl; now rewrite <- app_assoc).
    now rewrite rev_app_distr, Hr.
Qed.

Lemma time_line_trimmed hh mm ss :
  trimmed isspace_char ss -> trimmed isspace_char (time_line hh mm ss).
Proof.
  intros [_ (c & t & Hr & Hc)]. split.
  - eexists _, _. split; reflexivity.
  - exists c, (t ++ rev (lit "out_time=" ++ hh ++ ":"%char :: mm ++ [":"%char])).
    split; [|exact Hc]. unfold time_line.
    replace (lit "out_time=" ++ hh ++ ":"%char :: mm ++ ":"%char :: ss)
      with ((lit "out_time=" ++ hh ++ ":"%char :: mm ++ [":"%char]) ++ ss).
    + now rewrite rev_app_distr, Hr.
    + rewrite <- !app_assoc. f_equal. f_equal. simpl. now rewrite <- app_assoc.
Qed.

Lemma out_time_value v :
  index (split_once "="%char (lit "out_time=" ++ v)) 1 = Ret v.
Proof.
  change (lit "out_time=" ++ v) with (lit "out_time" ++ "="%char :: v).
  now rewrite split_once_first.
Qed.

Lemma on_line_stripped raw v :
  strip raw = lit "out_time=" ++ v ->
  on_line float_of_str log_callback true raw =
  report true (out_time_secs float_of_str (lit "out_time=" ++ v)).
Proof.
  intros Hs. unfold on_line. rewrite Hs.
  assert (E1 : startswith (lit "out_time=" ++ v) (lit "out_time_ms=") = false)
    by reflexivity.
  rewrite E1, startswith_app. reflexivity.
Qed.

(** X22. The second kind of progress line.  When the loop consumes a line
    "out_time=HH:MM:SS" whose first two fields are runs of digits and
    whose third converts to a float, it calls [progress_callback] with
    the hours and minutes in seconds plus that float, whatever white
    space ends the line.  A line whose value does not split into three
    fields at its colons reports nothing and is not logged. *)
Theorem out_time_reports (hh mm ss ws : str) (s : pyfloat) :
  hh <> [] -> forallb is_decimal hh = true ->
  mm <> [] -> forallb is_decimal mm = true ->
  no_colon ss -> trimmed isspace_char ss ->
  forallb isspace_char ws = true ->
  float_of_str ss = Ret s ->
  Z.abs (decimal_value hh * 3600 + decimal_value mm * 60) < float_overflow ->
  on_line float_of_str log_callback true (time_line hh mm ss ++ ws) =
    [ProgressCall
       (fadd (Fin (inject_Z (decimal_value hh * 3600 + decimal_value mm * 60))) s)] /\
  (forall raw v,
     strip raw = lit "out_time=" ++ v ->
     length (split_all ":"%char (strip v)) <> 3%nat ->
     on_line float_of_str log_callback true raw = []).
Proof.
  intros Hhne Hh Hmne Hm Hss Htr Hws Hfs Hov. split.
  - rewrite (on_line_stripped _ (hh ++ ":"%char :: mm ++ ":"%char :: ss)).
    + unfold out_time_secs. rewrite out_time_value. cbn [bind].
      unfold strip.
      rewrite (strip_by_trimmed_id _ _ (time_value_trimmed hh mm ss Hhne Hh Htr)).
      rewrite (split_all_first _ hh _ (digits_no_colon hh Hh)).
      rewrite (split_all_first _ mm _ (digits_no_colon mm Hm)).
      rewrite (split_all_none _ ss Hss).
      rewrite (int_of_digits hh Hhne Hh), (int_of_digits mm Hmne Hm). cbn [bind].
      rewrite Hfs. cbn [bind]. rewrite (float_of_int_small _ Hov). reflexivity.
    + unfold strip. apply strip_by_trimmed; [|exact Hws].
      now apply time_line_trimmed.
  - intros raw v Hs Hlen. rewrite (on_line_stripped raw v Hs).
    unfold out_time_secs. rewrite out_time_value. cbn [bind].
    destruct (split_all ":"%char (strip v)) as [|a [|b [|c [|d l]]]];
      try reflexivity.
    now elim Hlen.
Qed.

End OutTime.

Lemma out_time_reports_witness :
  lit "00" <> [] /\ forallb is_decimal (lit "00") = true /\
  lit "02" <> [] /\ forallb is_decimal (lit "02") = true /\
  no_colon (lit "05") /\
  forallb isspace_char ["010"%char] = true /\
  float_of_numeral (lit "05") = Ret (Fin (inject_Z 5)) /\
  Z.abs (decimal_value (lit "00") * 3600 + decimal_value (lit "02") * 60)
    < float_overflow /\
  Concat.on_line float_of_numeral true true
    (time_line (lit "00") (lit "02") (lit "05") ++ ["010"%char]) =
  [Concat.ProgressCall (fadd (Fin (inject_Z 120)) (Fin (inject_Z 5)))].
Proof.
  assert (H1 : lit "00" <> []) by discriminate.
  assert (H2 : forallb is_decimal (lit "00") = true) by reflexivity.
  assert (H3 : lit "02" <> []) by discriminate.
  assert (H4 : forallb is_decimal (lit "02") = true) by reflexivity.
  assert (H5 : no_colon (lit "05")) by reflexivity.
  assert (H6 : trimmed isspace_char (lit "05")).
  { split; eexists _, _; split; reflexivity. }
  assert (H7 : forallb isspace_char ["010"%char] = true) by reflexivity.
  assert (H8 : float_of_numeral (lit "05") = Ret (Fin (inject_Z 5))) by reflexivity.
  assert (H9 : Z.abs (decimal_value (lit "00") * 3600 + decimal_value (lit "02") * 60)
               < float_overflow) by reflexivity.
  exact (conj H1 (conj H2 (conj H3 (conj H4 (conj H5 (conj H7 (conj H8 (conj H9
           (proj1 (out_time_reports float_of_numeral true _ _ _ _ _
                     H1 H2 H3 H4 H5 H6 H7 H8 H9)))))))))).
Defined.
